(** * PL/0C: the compiler and the stack-machine interpreter

    A shallow embedding of [pl0c/pl0ccomp.h] (the recursive-descent
    compiler, class [PL0CComp]) and of [pl0c/pl0cinterp.cc] (the
    interpreter, class [Interp]), with the instruction format both share.

    Words are C++ [int32_t] values, held here as [Z] with the two's
    complement wrap-around written out ([wrap32]).  The data stack is a
    [list Z] of fixed length read and written by index; an access outside
    of the vector is undefined in C++ and stops the model. *)

From Stdlib Require Import ZArith Lia String.
From stdpp Require Import base tactics option list numbers strings.

Local Open Scope Z_scope.

(** ** Machine words *)

(** Conversion of an integer to [int32_t]. *)
Definition wrap32 (z : Z) : Z := (z + 2 ^ 31) `mod` 2 ^ 32 - 2 ^ 31.

(** Conversion of an integer to [uint16_t] (the type [Interp::base] works in). *)
Definition wrapU16 (z : Z) : Z := z `mod` 2 ^ 16.

(** Conversion of an integer to [int8_t] (the [level] field of an instruction). *)
Definition wrap8 (z : Z) : Z := (z + 2 ^ 7) `mod` 2 ^ 8 - 2 ^ 7.

(** Conversion of an integer to [unsigned] (the compiler's error counter). *)
Definition wrapU32 (z : Z) : Z := z `mod` 2 ^ 32.

Definition int32 (z : Z) : Prop := - 2 ^ 31 <= z < 2 ^ 31.

(** A C++ [bool] stored in a word. *)
Definition truth (b : bool) : Z := if b then 1 else 0.

(** ** Activation frame layout ([enum Frame]) *)

Definition FrameBase : Z := 0.
Definition FrameOldBp : Z := 1.
Definition FrameRetAddr : Z := 2.
Definition FrameRetVal : Z := 3.
Definition FrameSize : Z := 4.

(** ** Operation codes

    The compiler is written against the instruction set of [pl0c/pl0c.h]
    (which has [odd] and [pop]); the interpreter dispatches on the later
    set (with [eval], [assign], the bitwise and shift operations and
    [halt], and without [odd] and [pop]), whose header is not part of the
    sources.  The two enumerations are two versions of [pl0c::OpCode] and
    are never part of one build.  [OpCode.t] lists the names of both, so
    that one instruction record serves the model of the compiler and the
    model of the interpreter; [compiler_set] tells the names of
    [pl0c/pl0c.h].  A name stands for no byte value: nothing here says
    what the interpreter does with a program the compiler produced. *)

Module OpCode.

Inductive t : Set :=
  | Not | neg | comp
  | add | sub | mul | div | rem
  | bor | band | bxor
  | lshift | rshift
  | lt | lte | equ | gte | gt | neq
  | lor | land
  | pushConst | pushVar | eval | assign
  | call | enter | ret | reti | jump | jneq
  | halt
  | odd | pop.

#[global] Instance eq_dec : EqDecision t.
Proof. solve_decision. Defined.

(** The enumeration of [pl0c/pl0c.h], the one [PL0CComp::emit] is called with. *)
Definition compiler_set (op : t) : bool :=
  match op with
  | odd | neg | add | sub | mul | div | equ | neq | lt | lte | gt | gte
  | pushConst | pushVar | pop | call | ret | reti | enter | jump | jneq => true
  | _ => false
  end.

End OpCode.

(** An instruction: [struct Instr { Word addr; OpCode op; int8_t level; }]. *)
Record Instr : Set := mkInstr { op : OpCode.t; level : Z; addr : Z }.

#[global] Instance Instr_eq_dec : EqDecision Instr.
Proof. solve_decision. Defined.

(** [Instr()]: the default constructor gives [pushConst 0, 0]. *)
Definition Instr0 : Instr := mkInstr OpCode.pushConst 0 0.

(** * The interpreter ([pl0c/pl0cinterp.cc]) *)

Module Interp.

(** The ways a cycle can fail to give a next machine state. *)
Inductive UB : Set :=
  | OutOfBounds      (* an index outside of [stack] *)
  | DivideByZero     (* [/] or [%] with a zero divisor *)
  | Overflow.        (* [/] or [%] of the least word by [-1] *)

Inductive Stop : Set :=
  | AssertFailed                  (* an [assert] of [run] aborted the process *)
  | UnknownOpCode (o : OpCode.t)  (* [default:] wrote "Unknown op code" on [cerr], then [assert(false)] *)
  | Undefined (u : UB).           (* the C++ code has undefined behaviour; nothing is checked or reported *)

Inductive Outcome (A : Type) : Type :=
  | Continue (a : A)
  | Halted (s : Stop).
Arguments Continue {A} a.
Arguments Halted {A} s.

Definition bind {A B} (x : Outcome A) (f : A -> Outcome B) : Outcome B :=
  match x with
  | Continue a => f a
  | Halted s => Halted s
  end.

Notation "x <- m ;; f" := (bind m (fun x => f))
  (at level 100, m at next level, right associativity).

(** The only path of [run] that writes a diagnostic of its own is
    [default:]; a failed [assert] aborts with the runtime's message. *)
Definition reported {A} (o : Outcome A) : bool :=
  match o with
  | Halted (UnknownOpCode _) | Halted AssertFailed => true
  | _ => false
  end.

(** The registers and memories of [class Interp].  [pc], [bp] and [sp] are
    word indices; [ir] is the instruction register.  ([lastWrite] and
    [verbose] feed [dump] only, which prints and changes nothing else.) *)
Record Machine : Set := mkMachine {
  code : list Instr;
  stack : list Z;
  pc : Z;
  bp : Z;
  sp : Z;
  ir : Instr
}.

Definition set_code (c : list Instr) (m : Machine) : Machine :=
  mkMachine c (stack m) (pc m) (bp m) (sp m) (ir m).
Definition set_stack (s : list Z) (m : Machine) : Machine :=
  mkMachine (code m) s (pc m) (bp m) (sp m) (ir m).
Definition set_pc (v : Z) (m : Machine) : Machine :=
  mkMachine (code m) (stack m) v (bp m) (sp m) (ir m).
Definition set_bp (v : Z) (m : Machine) : Machine :=
  mkMachine (code m) (stack m) (pc m) v (sp m) (ir m).
Definition set_sp (v : Z) (m : Machine) : Machine :=
  mkMachine (code m) (stack m) (pc m) (bp m) v (ir m).
Definition set_ir (i : Instr) (m : Machine) : Machine :=
  mkMachine (code m) (stack m) (pc m) (bp m) (sp m) i.

(** [stack[i]] as an rvalue. *)
Definition load (m : Machine) (i : Z) : Outcome Z :=
  if decide (0 <= i) then
    match stack m !! Z.to_nat i with
    | Some v => Continue v
    | None => Halted (Undefined OutOfBounds)
    end
  else Halted (Undefined OutOfBounds).

(** [stack[i] = v]. *)
Definition store (i v : Z) (m : Machine) : Outcome Machine :=
  if decide (0 <= i < Z.of_nat (length (stack m))) then
    Continue (set_stack (<[Z.to_nat i := v]> (stack m)) m)
  else Halted (Undefined OutOfBounds).

(** [Interp::base]: [uint16_t b = bp; for (; lvl > 0; --lvl) b = stack[b];] *)
Fixpoint base_from (m : Machine) (lvl : nat) (b : Z) : Outcome Z :=
  match lvl with
  | O => Continue b
  | S l => v <- load m b ;; base_from m l (wrapU16 v)
  end.

Definition base (m : Machine) (lvl : Z) : Outcome Z :=
  base_from m (Z.to_nat (wrapU16 lvl)) (wrapU16 (bp m)).

(** [Interp::ret]: unlink the frame; [ir.addr] parameters are popped. *)
Definition ret (m : Machine) : Outcome Machine :=
  let sp1 := wrap32 (bp m - 1) in
  pc' <- load m (wrap32 (bp m + FrameRetAddr)) ;;
  bp' <- load m (wrap32 (bp m + FrameOldBp)) ;;
  Continue (set_sp (wrap32 (sp1 - addr (ir m))) (set_bp bp' (set_pc pc' m))).

(** [stack[sp] = OP stack[sp]] *)
Definition unop (f : Z -> Z) (m : Machine) : Outcome Machine :=
  x <- load m (sp m) ;;
  store (sp m) (f x) m.

(** [--sp; stack[sp] = stack[sp] OP stack[sp+1]] *)
Definition binop (f : Z -> Z -> Outcome Z) (m : Machine) : Outcome Machine :=
  let m1 := set_sp (wrap32 (sp m - 1)) m in
  x <- load m1 (sp m1) ;;
  y <- load m1 (wrap32 (sp m1 + 1)) ;;
  r <- f x y ;;
  store (sp m1) r m1.

Definition total (f : Z -> Z -> Z) (x y : Z) : Outcome Z := Continue (wrap32 (f x y)).
Definition test (f : Z -> Z -> bool) (x y : Z) : Outcome Z := Continue (truth (f x y)).

(** [x / y] and [x % y] truncate toward zero; the code does not look at
    the operands: a zero divisor is undefined, and so is the division of
    the least word by [-1], whose quotient is no [int32_t]. *)
Definition divide (f : Z -> Z -> Z) (x y : Z) : Outcome Z :=
  if decide (y = 0) then Halted (Undefined DivideByZero)
  else if decide (x = - 2 ^ 31 /\ y = -1) then Halted (Undefined Overflow)
  else Continue (wrap32 (f x y)).

Definition nonzero (x : Z) : bool := negb (x =? 0).

(** The [switch (ir.op)] of [run], on the machine after the fetch. *)
Definition dispatch (m : Machine) : Outcome Machine :=
  match op (ir m) with
  | OpCode.Not => unop (fun x => truth (x =? 0)) m
  | OpCode.neg => unop (fun x => wrap32 (- x)) m
  | OpCode.comp => unop Z.lnot m

  | OpCode.add => binop (total Z.add) m
  | OpCode.sub => binop (total Z.sub) m
  | OpCode.mul => binop (total Z.mul) m
  | OpCode.div => binop (divide Z.quot) m
  | OpCode.rem => binop (divide Z.rem) m

  | OpCode.bor => binop (total Z.lor) m
  | OpCode.band => binop (test (fun x y => nonzero x && nonzero y)) m
  | OpCode.bxor => binop (total Z.lxor) m

  | OpCode.lshift => binop (total (fun x y => Z.shiftl x (y `mod` 32))) m
  | OpCode.rshift => binop (total (fun x y => Z.shiftr x (y `mod` 32))) m

  | OpCode.equ => binop (test Z.eqb) m
  | OpCode.neq => binop (test (fun x y => negb (x =? y))) m
  | OpCode.lt => binop (test Z.ltb) m
  | OpCode.gte => binop (test Z.geb) m
  | OpCode.gt => binop (test Z.gtb) m
  | OpCode.lte => binop (test Z.leb) m
  | OpCode.lor => binop (test (fun x y => nonzero x || nonzero y)) m
  | OpCode.land => binop (test (fun x y => nonzero x && nonzero y)) m

  | OpCode.pushConst =>
      let m1 := set_sp (wrap32 (sp m + 1)) m in
      store (sp m1) (addr (ir m)) m1
  | OpCode.pushVar =>
      b <- base m (level (ir m)) ;;
      let m1 := set_sp (wrap32 (sp m + 1)) m in
      store (sp m1) (wrap32 (b + addr (ir m))) m1
  | OpCode.eval =>
      ea <- load m (sp m) ;;
      v <- load m ea ;;
      store (sp m) v m
  | OpCode.assign =>
      lastWrite <- load m (sp m) ;;
      let m1 := set_sp (wrap32 (sp m - 1)) m in
      v <- load m1 (sp m1) ;;
      let m2 := set_sp (wrap32 (sp m1 - 1)) m1 in
      store lastWrite v m2

  | OpCode.call =>
      b <- base m (level (ir m)) ;;
      m1 <- store (wrap32 (wrap32 (sp m + 1) + FrameBase)) b m ;;
      m2 <- store (wrap32 (wrap32 (sp m + 1) + FrameOldBp)) (bp m) m1 ;;
      m3 <- store (wrap32 (wrap32 (sp m + 1) + FrameRetAddr)) (pc m) m2 ;;
      m4 <- store (wrap32 (wrap32 (sp m + 1) + FrameRetVal)) 0 m3 ;;
      Continue (set_pc (addr (ir m)) (set_sp (wrap32 (sp m + FrameSize)) (set_bp (wrap32 (sp m + 1)) m4)))
  | OpCode.ret => ret m
  | OpCode.reti =>
      temp <- load m (wrap32 (bp m + FrameRetVal)) ;;
      m1 <- ret m ;;
      let m2 := set_sp (wrap32 (sp m1 + 1)) m1 in
      store (sp m2) temp m2

  | OpCode.enter => Continue (set_sp (wrap32 (sp m + addr (ir m))) m)
  | OpCode.jump => Continue (set_pc (addr (ir m)) m)
  | OpCode.jneq =>
      v <- load m (sp m) ;;
      let m1 := set_sp (wrap32 (sp m - 1)) m in
      Continue (if decide (v = 0) then set_pc (addr (ir m)) m1 else m1)

  | o => Halted (UnknownOpCode o)   (* [default:] *)
  end.

(** [code[pc]], when [pc < code.size()]. *)
Definition at_pc (m : Machine) : option Instr :=
  if decide (0 <= pc m) then code m !! Z.to_nat (pc m) else None.

(** [assert(pc < code.size()); ir = code[pc++];] *)
Definition fetch (m : Machine) : Outcome Machine :=
  match at_pc m with
  | Some i => Continue (set_pc (wrap32 (pc m + 1)) (set_ir i m))
  | None => Halted AssertFailed
  end.

(** One turn of the [do ... while] of [run]: the two asserts, the fetch,
    the dispatch. *)
Definition cycle (m : Machine) : Outcome Machine :=
  if decide (sp m <> -1 /\ ~ sp m < wrap32 (Z.of_nat (length (stack m)))) then Halted AssertFailed
  else m1 <- fetch m ;; dispatch m1.

(** What a call of [run] comes to: it returns the cycle count, it is
    stopped, or the model's fuel is used up. *)
Inductive Result : Set :=
  | Finished (cycles : nat) (m : Machine)
  | Stopped (s : Stop)
  | OutOfFuel.

(** [Interp::run], with [cycles] cycles run to date. *)
Fixpoint run_from (fuel cycles : nat) (m : Machine) : Result :=
  match fuel with
  | O => OutOfFuel
  | S f =>
      match cycle m with
      | Halted s => Stopped s
      | Continue m' =>
          if decide (pc m' = 0) then Finished (S cycles) m'
          else run_from f (S cycles) m'
      end
  end.

Definition run (fuel : nat) (m : Machine) : Result := run_from fuel 0 m.

(** The machine states at the end of each cycle of [run]. *)
Fixpoint trace (fuel : nat) (m : Machine) : list Machine :=
  match fuel with
  | O => []
  | S f =>
      match cycle m with
      | Halted _ => []
      | Continue m' => m' :: (if decide (pc m' = 0) then [] else trace f m')
      end
  end.

(** [Interp::reset] *)
Definition reset (m : Machine) : Outcome Machine :=
  let m0 := set_pc 0 m in
  m1 <- store 3 0 m0 ;;
  m2 <- store 2 0 m1 ;;
  m3 <- store 1 0 m2 ;;
  m4 <- store 0 0 m3 ;;
  Continue (set_sp 3 (set_bp 0 m4)).

(** [Interp::Interp(stacksz)] *)
Definition new (stacksz : nat) : Outcome Machine :=
  reset (mkMachine [] (replicate stacksz 0) 0 0 0 Instr0).

(** [Interp::operator()] up to the call of [run]: fill the stack with
    [-1], load the program, reset. *)
Definition start (m : Machine) (program : list Instr) : Outcome Machine :=
  let m1 := set_stack (replicate (length (stack m)) (-1)) m in
  let m2 := set_code program m1 in
  reset m2.

(** [Interp::operator()] *)
Definition operator_call (fuel : nat) (m : Machine) (program : list Instr) : Result :=
  match start m program with
  | Continue m0 => run fuel m0
  | Halted s => Stopped s
  end.

(** The states [operator()] passes through: the one [reset] leaves, and
    the one each cycle of [run] leaves. *)
Definition operator_states (fuel : nat) (m : Machine) (program : list Instr) : list Machine :=
  match start m program with
  | Continue m0 => m0 :: trace fuel m0
  | Halted s => []
  end.

(** The registers and memories but [ir]. *)
Definition visible (m : Machine) : list Instr * list Z * Z * Z * Z :=
  (code m, stack m, pc m, bp m, sp m).

(** A machine state the C++ types can hold: registers and the immediates
    of the program are 32-bit words, and the program and the stack can be
    indexed by one. *)
Record wf (m : Machine) : Prop := mkWf {
  wf_pc : int32 (pc m);
  wf_bp : int32 (bp m);
  wf_sp : int32 (sp m);
  wf_code : Z.of_nat (length (code m)) < 2 ^ 31;
  wf_stack : Z.of_nat (length (stack m)) < 2 ^ 31;
  wf_addr : Forall (fun i => int32 (addr i)) (code m)
}.

(** ** The specification's static links

    [spec_base] follows the words of the specification, "base(hops)
    starts at bp and repeats b := stack[b] exactly hops times", on words;
    it is what [Interp::base], which works in [uint16_t], is compared
    with. *)
Fixpoint spec_base_from (m : Machine) (hops : nat) (b : Z) : option Z :=
  match hops with
  | O => Some b
  | S h =>
      match load m b with
      | Continue v => spec_base_from m h v
      | Halted _ => None
      end
  end.

Definition spec_base (m : Machine) (hops : nat) : option Z := spec_base_from m hops (bp m).

(** The frames [spec_base] goes through, the last included, start below
    [2^16]: their indices are values of [uint16_t]. *)
Fixpoint short_from (m : Machine) (hops : nat) (b : Z) : bool :=
  (0 <=? b) && (b <? 2 ^ 16) &&
  match hops with
  | O => true
  | S h =>
      match load m b with
      | Continue v => short_from m h v
      | Halted _ => true
      end
  end.

Definition short_links (m : Machine) (hops : nat) : bool := short_from m hops (bp m).

(** ** Machines to run the statements on *)

(** A caller about to execute a [call], the callee's [ret] right behind. *)
Definition calling : Machine :=
  mkMachine [mkInstr OpCode.call 0 2; mkInstr OpCode.jump 0 0; mkInstr OpCode.ret 0 0]
            ([0; 0; 0; 0] ++ replicate 12 (-1)) 0 0 3 Instr0.

(** The same after the [call], and after the [ret]. *)
Definition called : Machine :=
  mkMachine (code calling) ([0; 0; 0; 0; 0; 0; 1; 0] ++ replicate 8 (-1)) 2 4 7
            (mkInstr OpCode.call 0 2).
Definition returned : Machine :=
  mkMachine (code calling) (stack called) 1 0 3 (mkInstr OpCode.ret 0 0).

(** A routine nested two deep about to call a sibling: its frame is at 8,
    the frame of the enclosing routine at 4, the one of the main block at
    0; [call 1 5] hands the callee the frame at 4 for its static link. *)
Definition nested : Machine :=
  mkMachine [mkInstr OpCode.jump 0 9; mkInstr OpCode.call 1 5]
            ([0; 0; 0; 0; 0; 0; 7; 0; 4; 4; 3; 0] ++ replicate 8 (-1)) 1 8 11 Instr0.

(** A frame beyond what [uint16_t] indexes: [bp] is [2^16 + 4]. *)
Definition far : Machine :=
  mkMachine [mkInstr OpCode.call 0 0] (replicate (Z.to_nat 65552) 0) 0 65540 65543 Instr0.

(** [7 / 0] about to be computed. *)
Definition dividing : Machine :=
  mkMachine [mkInstr OpCode.div 0 0] [0; 0; 0; 0; 7; 0] 0 0 5 Instr0.

(** A block with one local about to be entered, right after its [call]. *)
Definition entering : Machine :=
  mkMachine [mkInstr OpCode.jump 0 1; mkInstr OpCode.enter 0 5; mkInstr OpCode.ret 0 0]
            ([0; 0; 0; 0] ++ replicate 12 (-1)) 1 0 3 Instr0.

(** A machine that has run before, and a new one of the same size. *)
Definition used : Machine :=
  mkMachine [mkInstr OpCode.halt 0 0] [5; 6; 7; 8; 9; 10; 11; 12] 4 2 6 (mkInstr OpCode.add 0 0).
Definition pristine : Machine :=
  mkMachine [] (replicate 8 0) 0 0 3 Instr0.

(** [pushConst 1; jump 0] about to run: two cycles, and [pc] is 0 again. *)
Definition counting : Machine :=
  mkMachine [mkInstr OpCode.pushConst 0 1; mkInstr OpCode.jump 0 0]
            ([0; 0; 0; 0] ++ replicate 4 (-1)) 0 0 3 Instr0.

(** [stack[5] = 9] about to be done by [assign], and the value about to
    be read back by [eval]. *)
Definition assigning : Machine :=
  mkMachine [mkInstr OpCode.assign 0 0; mkInstr OpCode.eval 0 0]
            [0; 0; 0; 0; 5; 0; 9; 5] 0 0 7 Instr0.
Definition evaluating : Machine :=
  mkMachine (code assigning) [0; 0; 0; 0; 5; 9; 9; 5] 1 0 4 (mkInstr OpCode.assign 0 0).

(** A function called with one argument about to return 42 by [reti 1],
    and a block about to push on a full stack. *)
Definition returning : Machine :=
  mkMachine [mkInstr OpCode.reti 0 1]
            [0; 0; 0; 0; 7; 0; 0; 3; 42; -1] 0 5 8 Instr0.
Definition full : Machine :=
  mkMachine [mkInstr OpCode.pushConst 0 1] [0; 0; 0; 0] 0 0 3 Instr0.

(** The main block about to return, on the stack [reset] leaves. *)
Definition ending : Machine :=
  mkMachine [mkInstr OpCode.ret 0 0] ([0; 0; 0; 0] ++ replicate 4 (-1)) 0 0 3 Instr0.

(** [2 & 1] about to be computed by [band]. *)
Definition anding : Machine :=
  mkMachine [mkInstr OpCode.band 0 0] [0; 0; 0; 0; 2; 1] 0 0 5 Instr0.

End Interp.

(** * The scanner's interface ([token.h]) *)

Module Token.

(** [Token::Kind], with the names the compiler uses. *)
Inductive Kind : Set :=
  | unknown | badComment | eos
  | identifier | number
  | constDecl | varDecl | procDecl | funcDecl
  | begin | end_ | If | then_ | Else | While | Do | repeat | until | odd
  | equ | neq | lt | lte | gt | gte
  | lor | land | shiftL | shiftR
  | lnot | complement | bitOr | bitAnd | bitXor
  | add | sub | mul | div | Mod
  | lparen | rparen | comma | period | scomma | assign.

#[global] Instance Kind_eq_dec : EqDecision Kind.
Proof. solve_decision. Defined.

(** A token: kind, [string_value] (identifiers), [number_value] (numbers). *)
Record Token : Set := mkToken {
  kind : Kind;
  string_value : string;
  number_value : Z
}.

(** [Token(Kind k)]: empty string, number 0. *)
Definition of_kind (k : Kind) : Token := mkToken k "" 0.

Definition ident (s : string) : Token := mkToken identifier s 0.
Definition num (n : Z) : Token := mkToken number "" n.

End Token.

(** * The symbol table ([symbol.h]) *)

Module SymValue.

Inductive Kind : Set := constant | identifier | proc | function.

#[global] Instance Kind_eq_dec : EqDecision Kind.
Proof. solve_decision. Defined.

(** [struct SymValue { kind; level; value }] *)
Record t : Set := mk { kind : Kind; level : Z; value : Z }.

#[global] Instance eq_dec : EqDecision t.
Proof. solve_decision. Defined.

End SymValue.

(** * The compiler ([pl0c/pl0ccomp.h]) *)

Module Comp.

(** [SymbolTable] is a [std::multimap<std::string, SymValue>].  A node of
    the multimap keeps its identity while it is in the table ([block] is
    handed a reference to a node's value and writes through it), so a node
    carries the serial number it was inserted with.  The list is in
    insertion order, which is the order [equal_range] enumerates the
    entries of one key in. *)
Record Node : Set := mkNode { id : nat; key : string; val : SymValue.t }.

(** A diagnostic written by [error]. *)
Inductive Diag : Set :=
  | Diag_name (s t : string)                (* [error(s, t)], [t] a name of the source text *)
  | Diag_kind (s : string) (k : Token.Kind) (* [error(s, Token::toString(k))] *)
  | Diag_expected (k got : Token.Kind).     (* the message of [expect] *)

(** A search of the table for an identifier, as [identifier] and
    [identStmt] do it: the block level it was done at, the table, the name
    and the entry chosen. *)
Record Lookup : Set := mkLookup {
  at_level : Z;
  table : list Node;
  name : string;
  chosen : option Node
}.

(** The members of [class PL0CComp], the token stream reduced to its
    current token [ct] and the tokens still to come, and [*code].
    [lookups] is a ghost record of the searches done so far; nothing reads
    it. *)
Record State : Set := mkState {
  ct : Token.Token;
  input : list Token.Token;
  symtbl : list Node;
  serial : nat;
  code : list Instr;
  nErrors : Z;
  cerr : list Diag;
  lookups : list Lookup
}.

Definition set_ts (t : Token.Token) (i : list Token.Token) (s : State) : State :=
  mkState t i (symtbl s) (serial s) (code s) (nErrors s) (cerr s) (lookups s).
Definition set_symtbl (tbl : list Node) (n : nat) (s : State) : State :=
  mkState (ct s) (input s) tbl n (code s) (nErrors s) (cerr s) (lookups s).
Definition set_code (c : list Instr) (s : State) : State :=
  mkState (ct s) (input s) (symtbl s) (serial s) c (nErrors s) (cerr s) (lookups s).
Definition set_errors (n : Z) (d : list Diag) (s : State) : State :=
  mkState (ct s) (input s) (symtbl s) (serial s) (code s) n d (lookups s).
Definition set_lookups (l : list Lookup) (s : State) : State :=
  mkState (ct s) (input s) (symtbl s) (serial s) (code s) (nErrors s) (cerr s) l.

(** What a member function comes to: it returns, it aborts (a failed
    [assert], or a reference that dangles), or the model's fuel is used
    up. *)
Inductive Res (A : Type) : Type :=
  | Ok (a : A) (s : State)
  | Abort
  | OutOfFuel.
Arguments Ok {A} a s.
Arguments Abort {A}.
Arguments OutOfFuel {A}.

Definition M (A : Type) : Type := State -> Res A.

Definition ret {A} (a : A) : M A := fun s => Ok a s.

Definition bind {A B} (x : M A) (f : A -> M B) : M B := fun s =>
  match x s with
  | Ok a s' => f a s'
  | Abort => Abort
  | OutOfFuel => OutOfFuel
  end.

Notation "x <- m ;; f" := (bind m (fun x => f))
  (at level 100, m at next level, right associativity).
Notation "m ;; f" := (bind m (fun _ => f))
  (at level 100, f at level 200, right associativity).

Definition get : M State := fun s => Ok s s.
Definition abort {A} : M A := fun _ => Abort.
Definition out_of_fuel {A} : M A := fun _ => OutOfFuel.

(** Modelled from the spec: [TokenStream::get] (token.cc is not part of the
    sources).  It returns the next token and makes it the current one;
    end of input yields the end-of-stream token repeatedly. *)
Definition ts_get : M Token.Token := fun s =>
  match input s with
  | [] => let t := Token.of_kind Token.eos in Ok t (set_ts t [] s)
  | t :: rest => Ok t (set_ts t rest s)
  end.

(** [PL0CComp::error]: one more diagnostic, one more error. *)
Definition error (d : Diag) : M unit := fun s =>
  Ok tt (set_errors (wrapU32 (nErrors s + 1)) (cerr s ++ [d]) s).

(** [PL0CComp::next] *)
Definition next : M Token.Token := ts_get.

(** [PL0CComp::current] *)
Definition current : M Token.Kind := fun s => Ok (Token.kind (ct s)) s.

(** [PL0CComp::accept] *)
Definition accept (k : Token.Kind) (get : bool) : M bool :=
  c <- current ;;
  if decide (c = k) then
    (if get then next ;; ret true else ret true)
  else ret false.

(** [PL0CComp::expect] *)
Definition expect (k : Token.Kind) (get : bool) : M bool :=
  b <- accept k get ;;
  if b then ret true
  else c <- current ;; error (Diag_expected k c) ;; ret false.

(** [a || b] on two calls. *)
Definition orelse (a b : M bool) : M bool :=
  x <- a ;; if x then ret true else b.

(** [code->size()] *)
Definition code_size : M nat := fun s => Ok (length (code s)) s.

(** [PL0CComp::emit]: the [int] level is narrowed to the [int8_t] of the
    instruction. *)
Definition emit (o : OpCode.t) (lvl : Z) (a : Z) : M nat := fun s =>
  Ok (length (code s)) (set_code (code s ++ [mkInstr o (wrap8 lvl) a]) s).

(** [code[i].addr = a], on the vector [code] points to. *)
Definition patch (i : nat) (a : Z) : M unit := fun s =>
  match code s !! i with
  | Some ins => Ok tt (set_code (<[i := mkInstr (op ins) (level ins) a]> (code s)) s)
  | None => Abort
  end.

(** [symtbl.equal_range(name)] *)
Definition equal_range (nm : string) (tbl : list Node) : list Node :=
  filter (fun n => key n = nm) tbl.

(** The search for the "closest" entry of a range:
    [closest = first; for (it ...) if (it.level > closest.level) closest = it;] *)
Definition closest (range : list Node) : option Node :=
  match range with
  | [] => None
  | first :: _ =>
      Some (fold_left (fun c it => if decide (SymValue.level (val it) > SymValue.level (val c)) then it else c)
                      range first)
  end.

(** The search, recorded. *)
Definition lookup (lvl : Z) (nm : string) : M (option Node) := fun s =>
  let c := closest (equal_range nm (symtbl s)) in
  Ok c (set_lookups (lookups s ++ [mkLookup lvl (symtbl s) nm c]) s).

(** [symtbl.insert({name, v})]; the result stands for the iterator. *)
Definition insert (nm : string) (v : SymValue.t) : M nat := fun s =>
  Ok (serial s) (set_symtbl (symtbl s ++ [mkNode (serial s) nm v]) (S (serial s)) s).

(** Is some entry of [name] at level [lvl]? and how many are. *)
Definition same_level (lvl : Z) (nm : string) (tbl : list Node) : list Node :=
  filter (fun n => SymValue.level (val n) = lvl) (equal_range nm tbl).

(** Reading through the reference [val] of [block]. *)
Definition deref (r : nat) : M SymValue.t := fun s =>
  match filter (fun n => id n = r) (symtbl s) with
  | n :: _ => Ok (val n) s
  | [] => Abort
  end.

(** [val.value = a] *)
Definition set_value (r : nat) (a : Z) : M unit := fun s =>
  match filter (fun n => id n = r) (symtbl s) with
  | _ :: _ =>
      Ok tt (set_symtbl
               (map (fun n => if decide (id n = r)
                              then mkNode (id n) (key n)
                                     (SymValue.mk (SymValue.kind (val n)) (SymValue.level (val n)) a)
                              else n) (symtbl s))
               (serial s) s)
  | [] => Abort
  end.

(** The closing loop of [block]: erase the entries of level [lvl]. *)
Definition purge (lvl : Z) : M unit := fun s =>
  Ok tt (set_symtbl (filter (fun n => SymValue.level (val n) <> lvl) (symtbl s)) (serial s) s).

(** [Frame::size] and [Frame::rValue] of [pl0c/pl0c.h]. *)
Definition Frame_size : Z := 4.
Definition Frame_rValue : Z := 3.

(** The member functions that call each other, with their arguments.
    [Arguments], [Terms], [Factors], [Statements] and [SubDecls] are the
    loops of [identifier] and [callStmt], [expression], [terminal],
    [statement] and [block]. *)
Inductive Prod : Set :=
  | Identifier (lvl : Z)
  | Factor (lvl : Z)
  | Factors (lvl : Z)
  | Terminal (lvl : Z)
  | Terms (lvl : Z)
  | Expression (lvl : Z)
  | Arguments (lvl : Z)
  | Condition (lvl : Z)
  | AssignStmt (nm : string) (v : SymValue.t) (lvl : Z)
  | CallStmt (nm : string) (v : SymValue.t) (lvl : Z)
  | IdentStmt (lvl : Z)
  | WhileStmt (lvl : Z)
  | IfStmt (lvl : Z)
  | RepeatStmt (lvl : Z)
  | Statement (lvl : Z)
  | Statements (lvl : Z)
  | SubDecl (lvl : Z)
  | SubDecls (lvl : Z)
  | Block (r : nat) (lvl : Z) (nargs : Z).

Section Bodies.

(** The calls of member functions from a body. *)
Variable call : Prod -> M unit.

(** [do expression(level); while (accept(Token::comma));] *)
Definition arguments_ (lvl : Z) : M unit :=
  call (Expression lvl) ;;
  b <- accept Token.comma true ;;
  if b then call (Arguments lvl) else ret tt.

(** [PL0CComp::identifier] *)
Definition identifier_ (lvl : Z) : M unit :=
  s <- get ;;
  let nm := Token.string_value (ct s) in
  next ;;
  c <- lookup lvl nm ;;
  match c with
  | None => error (Diag_name "Undefined identifier" nm)
  | Some n =>
      let v := val n in
      match SymValue.kind v with
      | SymValue.constant =>
          emit OpCode.pushConst 0 (SymValue.value v) ;; ret tt
      | SymValue.identifier =>
          emit OpCode.pushVar (lvl - SymValue.level v) (SymValue.value v) ;; ret tt
      | SymValue.function =>
          expect Token.lparen true ;;
          b <- accept Token.rparen false ;;
          (if b then ret tt else call (Arguments lvl)) ;;
          expect Token.rparen true ;;
          emit OpCode.call (lvl - SymValue.level v) (SymValue.value v) ;; ret tt
      | SymValue.proc => error (Diag_name "Unknown symbol" nm)
      end
  end.

(** [PL0CComp::factor] *)
Definition factor_ (lvl : Z) : M unit :=
  b <- accept Token.identifier false ;;
  if b then call (Identifier lvl)
  else
    b <- accept Token.number false ;;
    if b then
      s <- get ;;
      emit OpCode.pushConst 0 (Token.number_value (ct s)) ;;
      expect Token.number true ;; ret tt
    else
      b <- accept Token.lparen true ;;
      if b then
        call (Expression lvl) ;;
        expect Token.rparen true ;; ret tt
      else
        k <- current ;;
        error (Diag_kind "factor: syntax error; expected ident | num | { expr }, but got:" k) ;;
        next ;; ret tt.

(** The [for] loop of [PL0CComp::terminal] *)
Definition factors_ (lvl : Z) : M unit :=
  k <- current ;;
  if decide (k = Token.mul \/ k = Token.div) then
    next ;;
    call (Factor lvl) ;;
    (if decide (Token.mul = k) then emit OpCode.mul 0 0 else emit OpCode.div 0 0) ;;
    call (Factors lvl)
  else ret tt.

(** [PL0CComp::terminal] *)
Definition terminal_ (lvl : Z) : M unit :=
  call (Factor lvl) ;;
  call (Factors lvl).

(** The [for] loop of [PL0CComp::expression] *)
Definition terms_ (lvl : Z) : M unit :=
  k <- current ;;
  if decide (k = Token.add \/ k = Token.sub) then
    next ;;
    call (Terminal lvl) ;;
    (if decide (Token.add = k) then emit OpCode.add 0 0 else emit OpCode.sub 0 0) ;;
    call (Terms lvl)
  else ret tt.

(** [PL0CComp::expression] *)
Definition expression_ (lvl : Z) : M unit :=
  unary <- current ;;
  (if decide (unary = Token.add \/ unary = Token.sub) then next ;; ret tt else ret tt) ;;
  call (Terminal lvl) ;;
  (if decide (Token.sub = unary) then emit OpCode.neg 0 0 ;; ret tt else ret tt) ;;
  call (Terms lvl).

(** The [switch (op)] of [PL0CComp::condition] *)
Definition relation (k : Token.Kind) : option OpCode.t :=
  match k with
  | Token.lte => Some OpCode.lte
  | Token.lt => Some OpCode.lt
  | Token.equ => Some OpCode.equ
  | Token.gt => Some OpCode.gt
  | Token.gte => Some OpCode.gte
  | Token.neq => Some OpCode.neq
  | _ => None
  end.

(** [PL0CComp::condition] *)
Definition condition_ (lvl : Z) : M unit :=
  b <- accept Token.odd true ;;
  if b then
    call (Expression lvl) ;;
    emit OpCode.odd 0 0 ;; ret tt
  else
    call (Expression lvl) ;;
    k <- current ;;
    b <- orelse (accept Token.lte true)
          (orelse (accept Token.lt true)
             (orelse (accept Token.equ true)
                (orelse (accept Token.gt true)
                   (orelse (accept Token.gte true) (accept Token.neq true))))) ;;
    if b then
      call (Expression lvl) ;;
      match relation k with
      | Some o => emit o 0 0 ;; ret tt
      | None => abort
      end
    else ret tt.

(** [PL0CComp::assignStmt] *)
Definition assignStmt_ (nm : string) (v : SymValue.t) (lvl : Z) : M unit :=
  call (Expression lvl) ;;
  match SymValue.kind v with
  | SymValue.identifier =>
      emit OpCode.pop (lvl - SymValue.level v) (SymValue.value v) ;; ret tt
  | SymValue.function =>
      emit OpCode.pop 0 Frame_rValue ;; ret tt
  | SymValue.constant => error (Diag_name "Can't assign to a constant" nm)
  | SymValue.proc => error (Diag_name "Can't assign to a procedure" nm)
  end.

(** [PL0CComp::callStmt] *)
Definition callStmt_ (nm : string) (v : SymValue.t) (lvl : Z) : M unit :=
  b <- accept Token.rparen false ;;
  (if b then ret tt else call (Arguments lvl)) ;;
  expect Token.rparen true ;;
  if decide (SymValue.proc <> SymValue.kind v) then
    error (Diag_name "Identifier is not a procedure" nm)
  else
    emit OpCode.call (lvl - SymValue.level v) (SymValue.value v) ;; ret tt.

(** [PL0CComp::identStmt] *)
Definition identStmt_ (lvl : Z) : M unit :=
  s <- get ;;
  let nm := Token.string_value (ct s) in
  next ;;
  c <- lookup lvl nm ;;
  match c with
  | None => error (Diag_name "undefined variable" nm)
  | Some n =>
      b <- accept Token.assign true ;;
      if b then call (AssignStmt (key n) (val n) lvl)
      else
        b <- accept Token.lparen true ;;
        if b then call (CallStmt (key n) (val n) lvl)
        else error (Diag_name "identifier is not a variable or a procedure" nm)
  end.

(** [PL0CComp::whileStmt] *)
Definition whileStmt_ (lvl : Z) : M unit :=
  cond_pc <- code_size ;;
  call (Condition lvl) ;;
  jmp_pc <- emit OpCode.jneq 0 0 ;;
  expect Token.Do true ;;
  call (Statement lvl) ;;
  emit OpCode.jump 0 (wrap32 (Z.of_nat cond_pc)) ;;
  sz <- code_size ;;
  patch jmp_pc (wrap32 (Z.of_nat sz)).

(** [PL0CComp::ifStmt] *)
Definition ifStmt_ (lvl : Z) : M unit :=
  call (Condition lvl) ;;
  jmp_pc <- emit OpCode.jneq 0 0 ;;
  expect Token.then_ true ;;
  call (Statement lvl) ;;
  Else <- accept Token.Else true ;;
  else_pc <- (if Else then emit OpCode.jump 0 0 else ret 0%nat) ;;
  sz <- code_size ;;
  patch jmp_pc (wrap32 (Z.of_nat sz)) ;;
  if Else then
    call (Statement lvl) ;;
    sz <- code_size ;;
    patch else_pc (wrap32 (Z.of_nat sz))
  else ret tt.

(** [PL0CComp::repeatStmt] *)
Definition repeatStmt_ (lvl : Z) : M unit :=
  loop_pc <- code_size ;;
  call (Statement lvl) ;;
  expect Token.until true ;;
  call (Condition lvl) ;;
  emit OpCode.jneq 0 (wrap32 (Z.of_nat loop_pc)) ;; ret tt.

(** [do statement(level); while (accept(Token::scomma));] *)
Definition statements_ (lvl : Z) : M unit :=
  call (Statement lvl) ;;
  b <- accept Token.scomma true ;;
  if b then call (Statements lvl) else ret tt.

(** [PL0CComp::statement] *)
Definition statement_ (lvl : Z) : M unit :=
  b <- accept Token.identifier false ;;
  if b then call (IdentStmt lvl)
  else
    b <- accept Token.begin true ;;
    if b then
      call (Statements lvl) ;;
      expect Token.end_ true ;; ret tt
    else
      b <- accept Token.If true ;;
      if b then call (IfStmt lvl)
      else
        b <- accept Token.While true ;;
        if b then call (WhileStmt lvl)
        else
          b <- accept Token.repeat true ;;
          if b then call (RepeatStmt lvl)
          else ret tt.

End Bodies.

(** [PL0CComp::constDecl] *)
Definition constDecl (lvl : Z) : M unit :=
  s <- get ;;
  let nm := Token.string_value (ct s) in
  expect Token.identifier true ;;
  expect Token.assign true ;;
  b <- expect Token.number false ;;
  if b then
    s <- get ;;
    let number := Token.number_value (ct s) in
    next ;;
    s <- get ;;
    match same_level lvl nm (symtbl s) with
    | _ :: _ => error (Diag_name "identifier has previously been defined" nm)
    | [] => insert nm (SymValue.mk SymValue.constant lvl number) ;; ret tt
    end
  else ret tt.

(** [PL0CComp::varDecl] *)
Definition varDecl (offset lvl : Z) : M Z :=
  s <- get ;;
  let nm := Token.string_value (ct s) in
  b <- expect Token.identifier true ;;
  if b then
    s <- get ;;
    match same_level lvl nm (symtbl s) with
    | _ :: _ => error (Diag_name "identifer has previously been defined" nm) ;; ret offset
    | [] => insert nm (SymValue.mk SymValue.identifier lvl offset) ;; ret (offset + 1)
    end
  else ret offset.

(** [do constDecl(level); while (accept(Token::comma));] *)
Fixpoint constDecls (fuel : nat) (lvl : Z) : M unit :=
  match fuel with
  | O => out_of_fuel
  | S n =>
      constDecl lvl ;;
      b <- accept Token.comma true ;;
      if b then constDecls n lvl else ret tt
  end.

(** [do dx = varDecl(dx, level); while (accept(Token::comma));] *)
Fixpoint varDecls (fuel : nat) (dx lvl : Z) : M Z :=
  match fuel with
  | O => out_of_fuel
  | S n =>
      dx' <- varDecl dx lvl ;;
      b <- accept Token.comma true ;;
      if b then varDecls n dx' lvl else ret dx'
  end.

(** The formal arguments of [subDecl]:
    [do { args.push_back(...); --offset; accept(Token::identifier); } while (accept(Token::comma));] *)
Fixpoint formals (fuel : nat) (args : list string) : M (list string) :=
  match fuel with
  | O => out_of_fuel
  | S n =>
      s <- get ;;
      let args' := args ++ [Token.string_value (ct s)] in
      accept Token.identifier true ;;
      b <- accept Token.comma true ;;
      if b then formals n args' else ret args'
  end.

(** [for (auto& x : args) symtbl.insert({x, {identifier, level+1, offset++}});] *)
Fixpoint bind_formals (args : list string) (lvl offset : Z) : M unit :=
  match args with
  | [] => ret tt
  | x :: rest =>
      insert x (SymValue.mk SymValue.identifier lvl offset) ;;
      bind_formals rest lvl (offset + 1)
  end.

(** One [error] for each entry of the range that is at this level. *)
Fixpoint redefined (range : list Node) (nm : string) : M unit :=
  match range with
  | [] => ret tt
  | _ :: rest => error (Diag_name "identifier has previously been defined" nm) ;; redefined rest nm
  end.

Section Declarations.

Variable fuel : nat.
Variable call : Prod -> M unit.

(** [PL0CComp::subDecl] *)
Definition subDecl_ (lvl : Z) : M unit :=
  kind <- current ;;
  next ;;
  s <- get ;;
  let nm := Token.string_value (ct s) in
  b <- expect Token.identifier true ;;
  if b then
    s <- get ;;
    redefined (same_level lvl nm (symtbl s)) nm ;;
    it <- (if decide (Token.procDecl = kind)
          then insert nm (SymValue.mk SymValue.proc lvl 0)
          else insert nm (SymValue.mk SymValue.function lvl 0)) ;;
    expect Token.lparen true ;;
    b <- accept Token.identifier false ;;
    args <- (if b then
              args <- formals fuel [] ;;
              bind_formals args (lvl + 1) (- Z.of_nat (length args)) ;;
              ret args
            else ret []) ;;
    expect Token.rparen true ;;
    call (Block it (lvl + 1) (wrapU32 (Z.of_nat (length args)))) ;;
    expect Token.scomma true ;; ret tt
  else ret tt.

(** [while (accept(Token::procDecl, false) || accept(Token::funcDecl, false)) subDecl(level);] *)
Definition subDecls_ (lvl : Z) : M unit :=
  b <- orelse (accept Token.procDecl false) (accept Token.funcDecl false) ;;
  if b then
    call (SubDecl lvl) ;;
    call (SubDecls lvl)
  else ret tt.

(** [PL0CComp::block] *)
Definition block_ (r : nat) (lvl : Z) (nargs : Z) : M unit :=
  jmp_pc <- emit OpCode.jump 0 0 ;;
  let dx := Frame_size in
  b <- accept Token.constDecl true ;;
  (if b then constDecls fuel lvl ;; expect Token.scomma true ;; ret tt else ret tt) ;;
  b <- accept Token.varDecl true ;;
  dx <- (if b then dx' <- varDecls fuel dx lvl ;; expect Token.scomma true ;; ret dx' else ret dx) ;;
  call (SubDecls lvl) ;;
  addr <- emit OpCode.enter 0 dx ;;
  set_value r (wrap32 (Z.of_nat addr)) ;;
  patch jmp_pc (wrap32 (Z.of_nat addr)) ;;
  call (Statement lvl) ;;
  (if decide (nargs < 2 ^ 31 - 1) then ret tt else abort) ;;
  v <- deref r ;;
  (if decide (SymValue.function = SymValue.kind v)
       then emit OpCode.reti 0 (wrap32 nargs)
       else emit OpCode.ret 0 (wrap32 nargs)) ;;
  purge lvl.

(** The body of each member function. *)
Definition body (p : Prod) : M unit :=
  match p with
  | Identifier lvl => identifier_ call lvl
  | Factor lvl => factor_ call lvl
  | Factors lvl => factors_ call lvl
  | Terminal lvl => terminal_ call lvl
  | Terms lvl => terms_ call lvl
  | Expression lvl => expression_ call lvl
  | Arguments lvl => arguments_ call lvl
  | Condition lvl => condition_ call lvl
  | AssignStmt nm v lvl => assignStmt_ call nm v lvl
  | CallStmt nm v lvl => callStmt_ call nm v lvl
  | IdentStmt lvl => identStmt_ call lvl
  | WhileStmt lvl => whileStmt_ call lvl
  | IfStmt lvl => ifStmt_ call lvl
  | RepeatStmt lvl => repeatStmt_ call lvl
  | Statement lvl => statement_ call lvl
  | Statements lvl => statements_ call lvl
  | SubDecl lvl => subDecl_ lvl
  | SubDecls lvl => subDecls_ lvl
  | Block r lvl nargs => block_ r lvl nargs
  end.

End Declarations.

(** The member functions, tied together: [fuel] bounds the depth of the
    calls. *)
Fixpoint exec (fuel : nat) (p : Prod) : M unit :=
  match fuel with
  | O => out_of_fuel
  | S n => body n (exec n) p
  end.

Definition identifier (fuel : nat) (lvl : Z) : M unit := exec fuel (Identifier lvl).
Definition factor (fuel : nat) (lvl : Z) : M unit := exec fuel (Factor lvl).
Definition terminal (fuel : nat) (lvl : Z) : M unit := exec fuel (Terminal lvl).
Definition expression (fuel : nat) (lvl : Z) : M unit := exec fuel (Expression lvl).
Definition condition (fuel : nat) (lvl : Z) : M unit := exec fuel (Condition lvl).
Definition assignStmt (fuel : nat) (nm : string) (v : SymValue.t) (lvl : Z) : M unit :=
  exec fuel (AssignStmt nm v lvl).
Definition callStmt (fuel : nat) (nm : string) (v : SymValue.t) (lvl : Z) : M unit :=
  exec fuel (CallStmt nm v lvl).
Definition identStmt (fuel : nat) (lvl : Z) : M unit := exec fuel (IdentStmt lvl).
Definition whileStmt (fuel : nat) (lvl : Z) : M unit := exec fuel (WhileStmt lvl).
Definition ifStmt (fuel : nat) (lvl : Z) : M unit := exec fuel (IfStmt lvl).
Definition repeatStmt (fuel : nat) (lvl : Z) : M unit := exec fuel (RepeatStmt lvl).
Definition statement (fuel : nat) (lvl : Z) : M unit := exec fuel (Statement lvl).
Definition subDecl (fuel : nat) (lvl : Z) : M unit := exec fuel (SubDecl lvl).
Definition block (fuel : nat) (r : nat) (lvl : Z) (nargs : Z) : M unit :=
  exec fuel (Block r lvl nargs).

(** The block level a member function works at. *)
Definition lvl_of (p : Prod) : Z :=
  match p with
  | Identifier l | Factor l | Factors l | Terminal l | Terms l | Expression l
  | Arguments l | Condition l | AssignStmt _ _ l | CallStmt _ _ l | IdentStmt l
  | WhileStmt l | IfStmt l | RepeatStmt l | Statement l | Statements l
  | SubDecl l | SubDecls l | Block _ l _ => l
  end.

(** The member functions that declare: the others leave the symbol table
    as it is. *)
Definition declares (p : Prod) : bool :=
  match p with
  | SubDecl _ | SubDecls _ | Block _ _ _ => true
  | _ => false
  end.

(** The member functions of the expression grammar. *)
Definition in_expression (p : Prod) : bool :=
  match p with
  | Identifier _ | Factor _ | Factors _ | Terminal _ | Terms _ | Expression _
  | Arguments _ => true
  | _ => false
  end.

(** The tokens not yet consumed, the current one included. *)
Definition remaining (s : State) : nat :=
  length (input s) + (if decide (Token.kind (ct s) = Token.eos) then 0 else 1).

(** How deep the calls of a member function can go before a token is
    consumed. *)
Definition rank (p : Prod) : nat :=
  match p with
  | Identifier _ | Factors _ | Terms _ | IdentStmt _ | SubDecl _ => 0
  | Factor _ | Statement _ | SubDecls _ => 1
  | Terminal _ | Statements _ | Block _ _ _ => 2
  | Expression _ => 3
  | Arguments _ | Condition _ | AssignStmt _ _ _ => 4
  | CallStmt _ _ _ | WhileStmt _ | IfStmt _ | RepeatStmt _ => 5
  end.

(** Fuel that is enough to run [p] from [s]. *)
Definition budget (p : Prod) (s : State) : nat := 6 * remaining s + rank p + 1.

(** [identifier], [identStmt] and [subDecl] are called on the token they
    start with. *)
Definition started (p : Prod) (s : State) : Prop :=
  match p with
  | Identifier _ | IdentStmt _ | SubDecl _ => Token.kind (ct s) <> Token.eos
  | _ => True
  end.

(** [PL0CComp::PL0CComp]: no errors, the "main" routine declared, and the
    token stream on its initial end-of-stream token. *)
Definition new : State :=
  mkState (Token.of_kind Token.eos) []
          [mkNode 0 "main" (SymValue.mk SymValue.proc 0 0)] 1
          [] 0 [] [].

(** [PL0CComp::run] *)
Definition run (fuel : nat) : M unit :=
  next ;;
  s <- get ;;
  match equal_range "main" (symtbl s) with
  | [] => abort
  | first :: _ =>
      block fuel (id first) 0 0 ;;
      expect Token.period true ;; ret tt
  end.

(** [PL0CComp::operator()], on the tokens of the source file: the
    instructions are appended to [prog]; the result is the number of
    errors. *)
Definition compile (fuel : nat) (source : list Token.Token) (prog : list Instr) : M Z :=
  fun s =>
    let s0 := set_code prog (set_ts (Token.of_kind Token.eos) source s) in
    match run fuel s0 with
    | Ok _ s' => Ok (nErrors s') s'
    | Abort => Abort
    | OutOfFuel => OutOfFuel
    end.


(** ** Vocabulary of the statements about the compiler *)

(** The code only grows: instructions are appended, and the instructions
    a function patches are its own. *)
Definition extends (s s' : State) : Prop := exists d, code s' = code s ++ d.

(** Every instruction has an opcode of the enumeration of [pl0c/pl0c.h]. *)
Definition in_compiler_set (c : list Instr) : Prop :=
  Forall (fun i => OpCode.compiler_set (op i) = true) c.

(** Each diagnostic counts: the error counter moves with the messages on
    [cerr] ([unsigned] arithmetic, so modulo [2^32]). *)
Definition reports (s s' : State) (ds : list Diag) : Prop :=
  cerr s' = cerr s ++ ds /\
  wrapU32 (nErrors s') = wrapU32 (nErrors s + Z.of_nat (length ds)).

(** A relation between states, with the length of the code added. *)
Definition with_len (R : Z -> State -> State -> Prop) (L : Z) (s s' : State) : Prop :=
  R L s s' /\ (length (code s) <= length (code s'))%nat.

(** [m1] is [m2], or has run out of fuel. *)
Definition le_res {A} (r1 r2 : Res A) : Prop := r1 = OutOfFuel \/ r1 = r2.
Definition le_M {A} (m1 m2 : M A) : Prop := forall s, le_res (m1 s) (m2 s).

(** [m] does not run out of fuel; does not abort; puts no token back. *)
Definition runs {A} (m : M A) : Prop := forall s, m s <> OutOfFuel.
Definition safe {A} (m : M A) : Prop := forall s, m s <> Abort.
Definition keeps_tokens {A} (m : M A) : Prop :=
  forall s x s', m s = Ok x s' -> (remaining s' <= remaining s)%nat.


(** The table holds no entry above level [L]. *)
Definition bounded (L : Z) (tbl : list Node) : Prop :=
  Forall (fun n => SymValue.level (val n) <= L) tbl.

(** A recorded search chose what [closest] gives, in a table that held
    nothing above the level it was done at. *)
Definition lookup_ok (l : Lookup) : Prop :=
  chosen l = closest (equal_range (name l) (table l)) /\ bounded (at_level l) (table l).

Definition scoped (L : Z) (s : State) : Prop :=
  bounded L (symtbl s) /\ Forall lookup_ok (lookups s).

(** The table is as it was, and the searches done in between were done
    at level [L], on that table. *)
Definition searches (L : Z) (s s' : State) : Prop :=
  symtbl s' = symtbl s /\ serial s' = serial s /\
  exists new, lookups s' = lookups s ++ new /\
    Forall (fun l => at_level l = L /\ table l = symtbl s /\
                     chosen l = closest (equal_range (name l) (table l))) new.

(** The level whose entries are the innermost ones when [p] returns: a
    block has erased its own. *)
Definition level_after (p : Prod) : Z :=
  match p with
  | Block _ l _ => l - 1
  | _ => lvl_of p
  end.


(** A relation between the state before and the state after that every
    primitive step of a statement or expression keeps.  A [patch] rewrites
    an instruction that the running function emitted itself. *)
Record Keeps (R : Z -> State -> State -> Prop) : Prop := mkKeeps {
  keeps_refl : forall L s, R L s s;
  keeps_trans : forall L s1 s2 s3, R L s1 s2 -> R L s2 s3 -> R L s1 s3;
  keeps_next : forall L s t s', ts_get s = Ok t s' -> R L s s';
  keeps_error : forall L d s u s', error d s = Ok u s' -> R L s s';
  keeps_emit : forall L o l a s n s',
    OpCode.compiler_set o = true -> emit o l a s = Ok n s' -> R L s s';
  keeps_patch : forall L s0 s i a u s',
    R L s0 s -> (length (code s0) <= i)%nat -> (length (code s0) <= length (code s))%nat ->
    patch i a s = Ok u s' -> R L s0 s';
  keeps_lookup : forall L nm s c s', lookup L nm s = Ok c s' -> R L s s'
}.

(** The same, kept by the writes to the symbol table as well, whatever
    the level. *)
Record Keeps_decl (R : Z -> State -> State -> Prop) : Prop := mkKeeps_decl {
  keeps_stmt : Keeps R;
  keeps_level : forall L L' s s', R L s s' -> R L' s s';
  keeps_insert : forall L nm v s n s', insert nm v s = Ok n s' -> R L s s';
  keeps_set_value : forall L r a s u s', set_value r a s = Ok u s' -> R L s s';
  keeps_purge : forall L l s u s', purge l s = Ok u s' -> R L s s'
}.


(** An entry for a variable of the block at level [L], at an offset of
    the frame from [lo] up to, excluding, [hi]. *)
Definition is_local (L lo hi : Z) (n : Node) : Prop :=
  SymValue.kind (val n) = SymValue.identifier /\
  SymValue.level (val n) = L /\
  lo <= SymValue.value (val n) < hi.

(** What compiling does to the symbol table: entries are added at level
    [Li] or deeper, the value of an entry is set, and the entries of some
    level [Lp] or deeper are erased. *)
Inductive grows (Li Lp : Z) : list Node -> list Node -> Prop :=
  | grows_refl t : grows Li Lp t t
  | grows_insert t n : Li <= SymValue.level (val n) -> grows Li Lp t (t ++ [n])
  | grows_value t r a :
      grows Li Lp t
        (map (fun n => if decide (id n = r)
                       then mkNode (id n) (key n)
                              (SymValue.mk (SymValue.kind (val n)) (SymValue.level (val n)) a)
                       else n) t)
  | grows_purge t l :
      Lp <= l -> grows Li Lp t (filter (fun n => SymValue.level (val n) <> l) t)
  | grows_trans t1 t2 t3 : grows Li Lp t1 t2 -> grows Li Lp t2 t3 -> grows Li Lp t1 t3.

(** The shallowest level a member function erases entries of: its own for
    a block, which ends by erasing it, and the next one otherwise. *)
Definition erases_from (p : Prod) : Z :=
  match p with
  | Block _ l _ => l
  | _ => lvl_of p + 1
  end.

(** What [block] relies on: its [val] refers to an entry of the table, of
    its level or an outer one, and [nargs] passes its assert. *)
Definition callable (p : Prod) (s : State) : Prop :=
  match p with
  | Block r l nargs =>
      nargs < 2 ^ 31 - 1 /\
      exists n, n ∈ symtbl s /\ id n = r /\ SymValue.level (val n) <= l
  | _ => True
  end.

(** A recorded search chose the innermost binding: an entry of the name
    with the greatest level, none being above the level of the block; or
    nothing, when the name has no entry. *)
Definition innermost (l : Lookup) : Prop :=
  match chosen l with
  | Some e =>
      e ∈ equal_range (name l) (table l) /\
      (forall e', e' ∈ equal_range (name l) (table l) ->
                  SymValue.level (val e') <= SymValue.level (val e)) /\
      SymValue.level (val e) <= at_level l
  | None => equal_range (name l) (table l) = []
  end.

(** ** Source texts to run the statements on *)

Definition K : Token.Kind -> Token.Token := Token.of_kind.

(** [var i; i = i .] *)
Definition copy_source : list Token.Token :=
  [K Token.varDecl; Token.ident "i"; K Token.scomma;
   Token.ident "i"; K Token.assign; Token.ident "i"; K Token.period].

(** [var i; if odd i then i = 1 .] *)
Definition odd_source : list Token.Token :=
  [K Token.varDecl; Token.ident "i"; K Token.scomma;
   K Token.If; K Token.odd; Token.ident "i"; K Token.then_;
   Token.ident "i"; K Token.assign; Token.num 1; K Token.period].

(** [var i; i = 2 % 3 .] and [var i; i = 2 * 3 .] *)
Definition rem_source : list Token.Token :=
  [K Token.varDecl; Token.ident "i"; K Token.scomma;
   Token.ident "i"; K Token.assign; Token.num 2; K Token.Mod; Token.num 3; K Token.period].
Definition mul_source : list Token.Token :=
  [K Token.varDecl; Token.ident "i"; K Token.scomma;
   Token.ident "i"; K Token.assign; Token.num 2; K Token.mul; Token.num 3; K Token.period].

(** [var x; procedure p(x) x = 1; p(x) .]: a parameter hides a global. *)
Definition hiding_source : list Token.Token :=
  [K Token.varDecl; Token.ident "x"; K Token.scomma;
   K Token.procDecl; Token.ident "p"; K Token.lparen; Token.ident "x"; K Token.rparen;
   Token.ident "x"; K Token.assign; Token.num 1; K Token.scomma;
   Token.ident "p"; K Token.lparen; Token.ident "x"; K Token.rparen; K Token.period].

(** [var a, a; .]: the second [a] is a redeclaration. *)
Definition twice_source : list Token.Token :=
  [K Token.varDecl; Token.ident "a"; K Token.comma; Token.ident "a"; K Token.scomma;
   K Token.period].

(** What follows [while], [if] and [repeat] in
    [while i < 3 do i = i + 1], [if i < 3 then i = 1 else i = 2],
    [if i < 3 then i = 1] and [repeat i = i + 1 until i >= 3]. *)
Definition while_source : list Token.Token :=
  [Token.ident "i"; K Token.lt; Token.num 3; K Token.Do;
   Token.ident "i"; K Token.assign; Token.ident "i"; K Token.add; Token.num 1;
   K Token.period].
Definition if_else_source : list Token.Token :=
  [Token.ident "i"; K Token.lt; Token.num 3; K Token.then_;
   Token.ident "i"; K Token.assign; Token.num 1; K Token.Else;
   Token.ident "i"; K Token.assign; Token.num 2; K Token.period].
Definition if_source : list Token.Token :=
  [Token.ident "i"; K Token.lt; Token.num 3; K Token.then_;
   Token.ident "i"; K Token.assign; Token.num 1; K Token.period].
Definition repeat_source : list Token.Token :=
  [Token.ident "i"; K Token.assign; Token.ident "i"; K Token.add; Token.num 1;
   K Token.until; Token.ident "i"; K Token.gte; Token.num 3; K Token.period].

(** The tokens of a list of formal parameters, [x1, x2, ..., xn]. *)
Fixpoint params (xs : list string) : list Token.Token :=
  match xs with
  | [] => []
  | x :: rest =>
      Token.ident x :: match rest with
                       | [] => []
                       | _ :: _ => K Token.comma :: params rest
                       end
  end.

(** [procedure p(a, a) a = 1; .]: a parameter name given twice. *)
Definition twin_source : list Token.Token :=
  [K Token.procDecl; Token.ident "p"; K Token.lparen]
  ++ params ["a"; "a"]%string
  ++ [K Token.rparen; Token.ident "a"; K Token.assign; Token.num 1; K Token.scomma;
      K Token.period].

(** [var x, y; x = y .] and [procedure p(a, b) a = b; p(1, 2) .] *)
Definition two_vars_source : list Token.Token :=
  [K Token.varDecl; Token.ident "x"; K Token.comma; Token.ident "y"; K Token.scomma;
   Token.ident "x"; K Token.assign; Token.ident "y"; K Token.period].
Definition two_params_source : list Token.Token :=
  [K Token.procDecl; Token.ident "p"; K Token.lparen]
  ++ params ["a"; "b"]%string
  ++ [K Token.rparen; Token.ident "a"; K Token.assign; Token.ident "b"; K Token.scomma;
      Token.ident "p"; K Token.lparen; Token.num 1; K Token.comma; Token.num 2;
      K Token.rparen; K Token.period].

(** The compiler once it has read [source] up to its first token. *)
Definition reading (source : list Token.Token) (tbl : list Node) : State :=
  mkState (hd (K Token.eos) source) (tl source) tbl (length tbl) [] 0 [] [].

(** A table with a variable [i] at offset 4 of the main block. *)
Definition table_i : list Node :=
  [mkNode 0 "main" (SymValue.mk SymValue.proc 0 0);
   mkNode 1 "i" (SymValue.mk SymValue.identifier 0 4)].

(** Three declarations of a name [i] that [table_i] has already:
    [i = 1;] after [const], [i;] after [var], and [procedure i();]. *)
Definition again_const : list Token.Token :=
  [Token.ident "i"; K Token.assign; Token.num 1; K Token.scomma].
Definition again_var : list Token.Token := [Token.ident "i"; K Token.scomma].
Definition again_proc : list Token.Token :=
  [K Token.procDecl; Token.ident "i"; K Token.lparen; K Token.rparen; K Token.scomma].

End Comp.

(** * Facts about the interpreter *)

Lemma wrap32_id z : int32 z -> wrap32 z = z.
Proof.
  unfold int32, wrap32. intros H.
  rewrite Z.mod_small by lia. lia.
Qed.

Lemma wrap32_int32 z : int32 (wrap32 z).
Proof.
  unfold int32, wrap32.
  pose proof (Z.mod_pos_bound (z + 2 ^ 31) (2 ^ 32)). lia.
Qed.

(** An index just above the largest word wraps to a negative one. *)
Lemma wrap32_above z : 2 ^ 31 <= z < 2 ^ 32 -> wrap32 z = z - 2 ^ 32.
Proof.
  unfold wrap32. intros H.
  replace (z + 2 ^ 31) with ((z - 2 ^ 31) + 1 * 2 ^ 32) by lia.
  rewrite Z.mod_add by lia. rewrite Z.mod_small by lia. lia.
Qed.

Lemma wrap32_index s k :
  int32 s -> 0 <= k <= 4 -> 0 <= wrap32 (s + k) -> wrap32 (s + k) = s + k.
Proof.
  intros Hs Hk H. destruct (decide (s + k < 2 ^ 31)).
  - apply wrap32_id. unfold int32 in *. lia.
  - rewrite wrap32_above in H by (unfold int32 in *; lia). unfold int32 in *. lia.
Qed.

Module InterpFacts.
Import Interp.

Lemma bind_Continue {A B} (x : Outcome A) (f : A -> Outcome B) b :
  bind x f = Continue b -> exists a, x = Continue a /\ f a = Continue b.
Proof. destruct x; simpl; [eauto | discriminate]. Qed.

Lemma store_Continue i v m m' :
  store i v m = Continue m' ->
  0 <= i < Z.of_nat (length (stack m)) /\ m' = set_stack (<[Z.to_nat i := v]> (stack m)) m.
Proof. unfold store. case_decide; intros; simplify_eq; auto. Qed.

Lemma load_store_eq i v m m' :
  store i v m = Continue m' -> load m' i = Continue v.
Proof.
  intros [Hi ->]%store_Continue. unfold load; simpl.
  rewrite decide_True by lia.
  rewrite list_lookup_insert_eq by lia. done.
Qed.

Lemma load_store_ne i j v m m' :
  store i v m = Continue m' -> i <> j -> load m' j = load m j.
Proof.
  intros [Hi ->]%store_Continue Hne. unfold load; simpl.
  case_decide; [|done].
  rewrite list_lookup_insert_ne by lia. done.
Qed.

Lemma load_ext m1 m2 i : stack m1 = stack m2 -> load m1 i = load m2 i.
Proof. unfold load. by intros ->. Qed.

Lemma load_Continue m i v :
  load m i = Continue v -> 0 <= i < Z.of_nat (length (stack m)).
Proof.
  unfold load. case_decide; [|done]. destruct (stack m !! Z.to_nat i) eqn:E; [|done].
  intros _. apply lookup_lt_Some in E. lia.
Qed.

Lemma store_regs i v m m' :
  store i v m = Continue m' ->
  code m' = code m /\ pc m' = pc m /\ bp m' = bp m /\ sp m' = sp m /\ ir m' = ir m /\
  length (stack m') = length (stack m).
Proof. intros [Hi ->]%store_Continue. simpl. rewrite length_insert. by repeat split. Qed.

Lemma at_pc_Some m i :
  at_pc m = Some i -> 0 <= pc m < Z.of_nat (length (code m)) /\ i ∈ code m.
Proof.
  unfold at_pc. case_decide; [|done]. intros Hi.
  pose proof (lookup_lt_Some _ _ _ Hi). split; [lia|]. by eapply list_elem_of_lookup_2.
Qed.

Lemma fetch_Continue m m1 :
  fetch m = Continue m1 ->
  exists i, at_pc m = Some i /\ m1 = set_pc (wrap32 (pc m + 1)) (set_ir i m).
Proof.
  unfold fetch. destruct (at_pc m) eqn:E; [|done].
  intros; simplify_eq. eauto.
Qed.

Lemma cycle_Continue m m' :
  cycle m = Continue m' ->
  exists i, at_pc m = Some i /\
            dispatch (set_pc (wrap32 (pc m + 1)) (set_ir i m)) = Continue m'.
Proof.
  unfold cycle. case_decide; [done|].
  intros (m1 & (i & ? & ->)%fetch_Continue & Hd)%bind_Continue. eauto.
Qed.

(** A cycle whose asserts hold is the dispatch of the fetched
    instruction. *)
Lemma cycle_fetched m i :
  at_pc m = Some i ->
  (sp m = -1 \/ sp m < wrap32 (Z.of_nat (length (stack m)))) ->
  cycle m = dispatch (set_pc (wrap32 (pc m + 1)) (set_ir i m)).
Proof.
  intros Hi Hsp. unfold cycle. rewrite decide_False by lia.
  unfold fetch. by rewrite Hi.
Qed.

(** The base-pointer chain reads the stack and [bp] only. *)
Lemma base_from_ext m1 m2 lvl b :
  stack m1 = stack m2 -> base_from m1 lvl b = base_from m2 lvl b.
Proof.
  intros Hs. revert b. induction lvl as [|l IH]; intros b; simpl; [done|].
  rewrite (load_ext m1 m2) by done. destruct (load m2 b); simpl; auto.
Qed.

Lemma base_ext m1 m2 lvl :
  stack m1 = stack m2 -> bp m1 = bp m2 -> base m1 lvl = base m2 lvl.
Proof. intros Hs Hb. unfold base. rewrite Hb. by apply base_from_ext. Qed.

(** What one cycle on a [call] instruction does to the stack and to the
    registers. *)
Lemma cycle_call (m m' : Machine) (i : Instr) :
  wf m ->
  at_pc m = Some i ->
  op i = OpCode.call ->
  cycle m = Continue m' ->
  exists b,
    base m (level i) = Continue b /\
    load m' (sp m + 1) = Continue b /\
    load m' (sp m + 2) = Continue (bp m) /\
    load m' (sp m + 3) = Continue (pc m + 1) /\
    load m' (sp m + 4) = Continue 0 /\
    bp m' = sp m + 1 /\ sp m' = sp m + 4 /\ pc m' = addr i /\
    -1 <= sp m /\ sp m + 4 < 2 ^ 31.
Proof.
  intros [Wpc Wbp Wsp Wcode Wstack Waddr] Hi Hop (i' & Hi' & Hd)%cycle_Continue.
  rewrite Hi in Hi'. injection Hi' as <-.
  unfold dispatch in Hd. simpl in Hd. rewrite Hop in Hd.
  apply bind_Continue in Hd as (b & Hb & Hd).
  apply bind_Continue in Hd as (m1 & H1 & Hd).
  apply bind_Continue in Hd as (m2 & H2 & Hd).
  apply bind_Continue in Hd as (m3 & H3 & Hd).
  apply bind_Continue in Hd as (m4 & H4 & Hd).
  injection Hd as <-.
  pose proof (at_pc_Some _ _ Hi) as [Hlt _].
  assert (Hpc1 : wrap32 (pc m + 1) = pc m + 1).
  { apply wrap32_id. unfold int32 in *. lia. }
  unfold FrameBase, FrameOldBp, FrameRetAddr, FrameRetVal, FrameSize in *.
  (* the stores succeeded: the indices did not wrap *)
  pose proof (store_Continue _ _ _ _ H1) as [I1 _].
  pose proof (store_Continue _ _ _ _ H4) as [I4 _].
  assert (Hs1 : wrap32 (sp m + 1) = sp m + 1).
  { destruct (decide (sp m + 1 < 2 ^ 31)) as [?|Hge].
    - apply wrap32_id. unfold int32 in *. lia.
    - exfalso. assert (sp m = 2 ^ 31 - 1) as Hsp by (unfold int32 in *; lia).
      rewrite Hsp in I1. vm_compute in I1. destruct I1 as [I1 _]. by destruct I1. }
  rewrite Hs1 in *.
  assert (B1 : int32 (sp m + 1)) by (rewrite <- Hs1; apply wrap32_int32).
  assert (Hs4 : wrap32 (sp m + 1 + 3) = sp m + 1 + 3) by (apply wrap32_index; [done | lia | lia]).
  assert (B4 : int32 (sp m + 1 + 3)) by (rewrite <- Hs4; apply wrap32_int32).
  rewrite (wrap32_id (sp m + 1 + 0)) in * by (unfold int32 in *; lia).
  rewrite (wrap32_id (sp m + 1 + 1)) in * by (unfold int32 in *; lia).
  rewrite (wrap32_id (sp m + 1 + 2)) in * by (unfold int32 in *; lia).
  rewrite Hs4 in *.
  replace (sp m + 1 + 0) with (sp m + 1) in * by lia.
  replace (sp m + 1 + 1) with (sp m + 2) in * by lia.
  replace (sp m + 1 + 2) with (sp m + 3) in * by lia.
  replace (sp m + 1 + 3) with (sp m + 4) in * by lia.
  exists b. simpl.
  split; [rewrite <- Hb; by apply base_ext|].
  assert (Hl : forall j, load (set_pc (addr i) (set_sp (wrap32 (sp m + 4))
                                 (set_bp (sp m + 1) m4))) j = load m4 j).
  { intros j. by apply load_ext. }
  rewrite !Hl.
  split.
  { rewrite (load_store_ne _ _ _ _ _ H4) by lia.
    rewrite (load_store_ne _ _ _ _ _ H3) by lia.
    rewrite (load_store_ne _ _ _ _ _ H2) by lia.
    by apply (load_store_eq _ _ _ _ H1). }
  split.
  { rewrite (load_store_ne _ _ _ _ _ H4) by lia.
    rewrite (load_store_ne _ _ _ _ _ H3) by lia.
    by apply (load_store_eq _ _ _ _ H2). }
  split.
  { rewrite (load_store_ne _ _ _ _ _ H4) by lia.
    rewrite <- Hpc1. by apply (load_store_eq _ _ _ _ H3). }
  split; [by apply (load_store_eq _ _ _ _ H4)|].
  rewrite (wrap32_id (sp m + 4)) by done.
  unfold int32 in *. repeat split; lia.
Qed.

(** [Interp::base] gives what the specification's [base(hops)] gives when
    the frames on the way are within the reach of [uint16_t]. *)
Lemma base_from_spec m hops : forall b0 b,
  spec_base_from m hops b0 = Some b ->
  short_from m hops b0 = true ->
  base_from m hops (wrapU16 b0) = Continue b.
Proof.
  induction hops as [|h IH]; intros b0 b Hs Hsh; simpl in *.
  - injection Hs as <-. unfold wrapU16. rewrite Z.mod_small; [done | lia].
  - assert (Hb : wrapU16 b0 = b0) by (unfold wrapU16; rewrite Z.mod_small; lia).
    rewrite Hb. destruct (load m b0) as [v|] eqn:E; [|done]. simpl.
    apply IH; [done|]. apply andb_prop in Hsh as [_ Hsh]. done.
Qed.

(** With room for a frame above [sp], a [call] whose static link can be
    found runs. *)
Lemma cycle_call_runs (m : Machine) (i : Instr) (b : Z) :
  wf m ->
  at_pc m = Some i ->
  op i = OpCode.call ->
  -1 <= sp m -> sp m + 4 < Z.of_nat (length (stack m)) ->
  base m (level i) = Continue b ->
  exists m', cycle m = Continue m'.
Proof.
  intros [Wpc Wbp Wsp Wcode Wstack Waddr] Hi Hop Hlo Hhi Hb.
  rewrite (cycle_fetched m i); [|done|].
  2: { right. rewrite wrap32_id by (unfold int32; lia). lia. }
  unfold dispatch. simpl. rewrite Hop.
  rewrite (base_ext _ m) by done. rewrite Hb. simpl.
  unfold FrameBase, FrameOldBp, FrameRetAddr, FrameRetVal.
  rewrite (wrap32_id (sp m + 1)) by (unfold int32 in *; lia).
  rewrite (wrap32_id (sp m + 1 + 0)), (wrap32_id (sp m + 1 + 1)),
    (wrap32_id (sp m + 1 + 2)), (wrap32_id (sp m + 1 + 3)) by (unfold int32 in *; lia).
  unfold store. simpl.
  repeat (rewrite ?length_insert; rewrite decide_True by lia; simpl).
  eauto.
Qed.

(** The frame a [call] builds, with what [Interp::base] returned for the
    static link. *)
Lemma call_frame (m : Machine) (i : Instr) (b : Z) :
  wf m ->
  at_pc m = Some i ->
  op i = OpCode.call ->
  -1 <= sp m -> sp m + 4 < Z.of_nat (length (stack m)) ->
  base m (level i) = Continue b ->
  exists m',
    cycle m = Continue m' /\
    load m' (bp m' + FrameBase) = Continue b /\
    load m' (bp m' + FrameOldBp) = Continue (bp m) /\
    load m' (bp m' + FrameRetAddr) = Continue (pc m + 1) /\
    load m' (bp m' + FrameRetVal) = Continue 0 /\
    bp m' = sp m + 1 /\ sp m' = sp m + 4 /\ pc m' = addr i.
Proof.
  intros Hwf Hi Hop Hlo Hhi Hb.
  destruct (cycle_call_runs m i b Hwf Hi Hop Hlo Hhi Hb) as [m' Hc].
  destruct (cycle_call m m' i Hwf Hi Hop Hc)
    as (b' & Hb' & H0 & H1 & H2 & H3 & Hbp & Hsp & Hpc & _).
  rewrite Hb in Hb'. injection Hb' as <-.
  exists m'. unfold FrameBase, FrameOldBp, FrameRetAddr, FrameRetVal. rewrite Hbp.
  replace (sp m + 1 + 0) with (sp m + 1) by lia.
  replace (sp m + 1 + 1) with (sp m + 2) by lia.
  replace (sp m + 1 + 2) with (sp m + 3) by lia.
  replace (sp m + 1 + 3) with (sp m + 4) by lia.
  auto 10.
Qed.


(** C4: a [Ret nargs] reached in the callee's frame, with the dynamic link
    and the return address of the header as [Call] wrote them, gives back
    the caller's [bp], leaves [sp] at its value before the call minus
    [nargs], and resumes at the instruction after the [Call]. *)
Theorem ret_undoes_call (m0 m1 m2 m3 : Machine) (i j : Instr) :
  wf m0 ->
  at_pc m0 = Some i ->
  op i = OpCode.call ->
  cycle m0 = Continue m1 ->
  wf m2 ->
  bp m2 = bp m1 ->
  load m2 (bp m2 + FrameOldBp) = load m1 (bp m1 + FrameOldBp) ->
  load m2 (bp m2 + FrameRetAddr) = load m1 (bp m1 + FrameRetAddr) ->
  at_pc m2 = Some j ->
  op j = OpCode.ret ->
  0 <= addr j ->
  cycle m2 = Continue m3 ->
  bp m3 = bp m0 /\ sp m3 = sp m0 - addr j /\ pc m3 = pc m0 + 1.
Proof.
  intros Hwf0 Hi Hopi Hc0 Hwf2 Hbp Hold Hret Hj Hopj Hn Hc2.
  destruct (cycle_call m0 m1 i Hwf0 Hi Hopi Hc0)
    as (b & _ & _ & H1 & H2 & _ & Hbp1 & _ & _ & Hlo & Hhi).
  unfold FrameOldBp, FrameRetAddr in *.
  rewrite Hbp1 in Hbp. rewrite Hbp, Hbp1 in Hold, Hret.
  replace (sp m0 + 1 + 1) with (sp m0 + 2) in * by lia.
  replace (sp m0 + 1 + 2) with (sp m0 + 3) in * by lia.
  rewrite H1 in Hold. rewrite H2 in Hret.
  apply cycle_Continue in Hc2 as (j' & Hj' & Hd).
  rewrite Hj in Hj'. injection Hj' as <-.
  unfold dispatch in Hd. simpl in Hd. rewrite Hopj in Hd.
  unfold ret in Hd. simpl in Hd.
  destruct Hwf0 as [Wpc0 Wbp0 Wsp0 Wcode0 Wstack0 Waddr0].
  destruct Hwf2 as [Wpc2 Wbp2 Wsp2 Wcode2 Wstack2 Waddr2].
  assert (Haj : int32 (addr j)).
  { rewrite Forall_forall in Waddr2. apply Waddr2. by apply at_pc_Some in Hj as [_ ?]. }
  unfold FrameOldBp, FrameRetAddr in Hd. rewrite Hbp in Hd.
  replace (sp m0 + 1 + 1) with (sp m0 + 2) in Hd by lia.
  replace (sp m0 + 1 + 2) with (sp m0 + 3) in Hd by lia.
  rewrite (wrap32_id (sp m0 + 3)) in Hd by (unfold int32 in *; lia).
  rewrite (wrap32_id (sp m0 + 2)) in Hd by (unfold int32 in *; lia).
  rewrite !(load_ext (set_pc _ (set_ir j m2)) m2) in Hd by done.
  rewrite Hret, Hold in Hd. simpl in Hd. injection Hd as <-. simpl.
  replace (sp m0 + 1 - 1) with (sp m0) by lia.
  rewrite (wrap32_id (sp m0)) by done.
  rewrite wrap32_id by (unfold int32 in *; lia).
  done.
Qed.

(** An [Enter dx]: what the cycle does. *)
Lemma cycle_enter (m : Machine) (i : Instr) :
  at_pc m = Some i ->
  op i = OpCode.enter ->
  (sp m = -1 \/ sp m < wrap32 (Z.of_nat (length (stack m)))) ->
  cycle m = Continue (set_sp (wrap32 (sp m + addr i)) (set_pc (wrap32 (pc m + 1)) (set_ir i m))).
Proof.
  intros Hi Hop Hsp. rewrite (cycle_fetched m i) by done.
  unfold dispatch. simpl. by rewrite Hop.
Qed.

(** ** Divisions *)

(** The division cases do not look at the divisor: with a zero on top of
    the stack the cycle is undefined, and nothing is reported. *)
Lemma cycle_divide_by_zero (m : Machine) (i : Instr) (x : Z) :
  wf m ->
  at_pc m = Some i ->
  op i = OpCode.div \/ op i = OpCode.rem ->
  load m (sp m) = Continue 0 ->
  load m (sp m - 1) = Continue x ->
  cycle m = Halted (Undefined DivideByZero).
Proof.
  intros [Wpc Wbp Wsp Wcode Wstack Waddr] Hi Hop H0 H1.
  pose proof (load_Continue _ _ _ H0) as B0.
  pose proof (load_Continue _ _ _ H1) as B1.
  rewrite (cycle_fetched m i); [|done|].
  2: { right. rewrite wrap32_id by (unfold int32; lia). lia. }
  assert (E : forall f,
    binop (divide f) (set_pc (wrap32 (pc m + 1)) (set_ir i m)) =
    Halted (Undefined DivideByZero)).
  { intros f. unfold binop. simpl.
    rewrite (wrap32_id (sp m - 1)) by (unfold int32 in *; lia).
    rewrite (load_ext _ m) by done. rewrite H1. simpl.
    replace (sp m - 1 + 1) with (sp m) by lia.
    rewrite (wrap32_id (sp m)) by done.
    rewrite (load_ext _ m) by done. rewrite H0. simpl.
    reflexivity. }
  unfold dispatch. simpl. destruct Hop as [-> | ->]; apply E.
Qed.

(** ** Starting over *)

(** The state a cycle leaves does not depend on the instruction register
    it found. *)
Lemma cycle_ir m i : cycle (set_ir i m) = cycle m.
Proof.
  unfold cycle. simpl. case_decide; [done|].
  unfold fetch, at_pc. simpl. case_decide; [|done].
  destruct (code m !! Z.to_nat (pc m)); [|done]. done.
Qed.

Lemma run_from_ir fuel cycles m i : run_from fuel cycles (set_ir i m) = run_from fuel cycles m.
Proof. destruct fuel; [done|]. simpl. by rewrite cycle_ir. Qed.

Lemma trace_ir fuel m i : trace fuel (set_ir i m) = trace fuel m.
Proof. destruct fuel; [done|]. simpl. by rewrite cycle_ir. Qed.

(** [operator()] starts from a state made of the program and of the size
    of the stack alone, the stale [ir] apart. *)
Lemma start_state (m : Machine) (program : list Instr) :
  start m program =
  if decide (4 <= length (stack m))%nat then
    Continue (mkMachine program ([0; 0; 0; 0] ++ replicate (length (stack m) - 4) (-1))
                0 0 3 (ir m))
  else Halted (Undefined OutOfBounds).
Proof.
  unfold start, reset. destruct m as [c st p b s i]. simpl.
  remember (length st) as n eqn:Hn. clear Hn.
  case_decide as Hlen.
  - do 4 (destruct n as [|n]; [lia|]).
    unfold store. simpl.
    repeat (first [rewrite length_replicate | rewrite decide_True by lia]; simpl).
    replace (n - 0)%nat with n by lia. done.
  - unfold store at 1. simpl. rewrite length_replicate.
    rewrite decide_False by lia. done.
Qed.

Lemma calling_wf : wf calling.
Proof. split; simpl; unfold int32; try lia. repeat constructor; simpl; lia. Qed.

Lemma called_wf : wf called.
Proof. split; simpl; unfold int32; try lia. repeat constructor; simpl; lia. Qed.

Lemma nested_wf : wf nested.
Proof. split; simpl; unfold int32; try lia. repeat constructor; simpl; lia. Qed.


Lemma far_wf : wf far.
Proof.
  split; cbn [far pc bp sp code stack]; unfold int32; try lia.
  - simpl. lia.
  - rewrite length_replicate. lia.
  - repeat constructor; simpl; lia.
Qed.


Lemma ret_undoes_call_witness :
  bp returned = bp calling /\ sp returned = sp calling - 0 /\ pc returned = pc calling + 1.
Proof.
  apply (ret_undoes_call calling called called returned
           (mkInstr OpCode.call 0 2) (mkInstr OpCode.ret 0 0));
    [exact calling_wf | reflexivity | reflexivity | reflexivity | exact called_wf
    | reflexivity | reflexivity | reflexivity | reflexivity | reflexivity | simpl; lia
    | reflexivity].
Defined.

(** C8 (as the code has it): a [div] or [rem] on a zero divisor is not
    checked: the cycle is undefined behaviour of the C++ division, and the
    interpreter reports nothing. *)
Theorem divide_by_zero_unchecked (m : Machine) (i : Instr) (x : Z) :
  wf m ->
  at_pc m = Some i ->
  op i = OpCode.div \/ op i = OpCode.rem ->
  load m (sp m) = Continue 0 ->
  load m (sp m - 1) = Continue x ->
  cycle m = Halted (Undefined DivideByZero) /\ reported (cycle m) = false.
Proof.
  intros Hwf Hi Hop H0 H1.
  rewrite (cycle_divide_by_zero m i x) by done. done.
Qed.

Lemma dividing_wf : wf dividing.
Proof. split; simpl; unfold int32; try lia. repeat constructor; simpl; lia. Qed.

Lemma divide_by_zero_unchecked_witness :
  cycle dividing = Halted (Undefined DivideByZero) /\ reported (cycle dividing) = false.
Proof.
  apply (divide_by_zero_unchecked dividing (mkInstr OpCode.div 0 0) 7);
    [exact dividing_wf | reflexivity | by left | reflexivity | reflexivity].
Defined.

(** C8, as stated, fails: dividing 7 by 0 reports no runtime error; the
    cycle has no defined outcome at all. *)
Lemma divide_by_zero_not_reported :
  at_pc dividing = Some (mkInstr OpCode.div 0 0) /\
  load dividing (sp dividing) = Continue 0 /\
  cycle dividing = Halted (Undefined DivideByZero) /\
  reported (cycle dividing) = false /\
  run 10 dividing = Stopped (Undefined DivideByZero).
Proof. repeat split; reflexivity. Qed.



(** * More on the interpreter *)

(** ** What a cycle leaves alone *)

(** Taking a successful cycle apart. *)
Ltac apart :=
  repeat match goal with
  | H : bind _ _ = Continue _ |- _ =>
      let a := fresh "a" in let Ha := fresh "Ho" in
      apply bind_Continue in H as (a & Ha & H); cbv beta in H
  | H : Continue _ = Continue _ |- _ => injection H as H
  | H : Halted _ = Continue _ |- _ => discriminate H
  end.

Lemma ret_frame m m' :
  ret m = Continue m' ->
  code m' = code m /\ stack m' = stack m /\ ir m' = ir m.
Proof. unfold ret. intros H. apart. by subst. Qed.

(** No case of the [switch] writes to [code], resizes [stack] or changes
    [ir]. *)
Lemma dispatch_frame m m' :
  dispatch m = Continue m' ->
  code m' = code m /\ length (stack m') = length (stack m) /\ ir m' = ir m.
Proof.
  unfold dispatch, unop, binop.
  destruct (op (ir m)); intros H; apart;
    repeat match goal with
    | Hs : store _ _ _ = Continue _ |- _ =>
        apply store_regs in Hs as (? & _ & _ & _ & ? & ?)
    | Hr : ret _ = Continue _ |- _ => apply ret_frame in Hr as (? & ? & ?)
    end;
    try case_decide; subst; simpl in *; try done;
    repeat split; congruence.
Qed.

Lemma cycle_frame m m' :
  cycle m = Continue m' ->
  code m' = code m /\ length (stack m') = length (stack m).
Proof.
  intros (i & _ & H)%cycle_Continue.
  apply dispatch_frame in H as (? & ? & _). done.
Qed.

(** X1: a run never writes to the program and never resizes the stack:
    every state it passes through has the code and the stack size of the
    state it started from. *)
Theorem run_keeps_program fuel : forall m,
  Forall (fun m' => code m' = code m /\ length (stack m') = length (stack m)) (trace fuel m).
Proof.
  induction fuel as [|f IH]; intros m; simpl; [constructor|].
  destruct (cycle m) as [m1|] eqn:Hc; [|constructor].
  apply cycle_frame in Hc as [Hcode Hlen].
  constructor; [done|].
  case_decide; [constructor|].
  eapply Forall_impl; [apply IH|].
  intros x [? ?]. split; congruence.
Qed.

(** ** The cycle count *)

Lemma run_from_trace fuel : forall c m n m',
  run_from fuel c m = Finished n m' ->
  n = (c + length (trace fuel m))%nat /\ last (trace fuel m) = Some m' /\ pc m' = 0 /\
  forall k x, trace fuel m !! k = Some x -> pc x = 0 -> S k = length (trace fuel m).
Proof.
  induction fuel as [|f IH]; intros c m n m' H; simpl in *; [discriminate H|].
  destruct (cycle m) as [m1|]; [|discriminate H].
  case_decide as Hpc.
  - injection H as <- <-. simpl. repeat split; [lia | done |].
    intros [|k] x Hk; [done | discriminate Hk].
  - apply IH in H as (-> & Hlast & Hz & Hk). simpl.
    split; [lia|]. split.
    + destruct (trace f m1) eqn:E; [discriminate Hlast|]. done.
    + split; [done|]. intros [|k] x Hx Hx0.
      * injection Hx as <-. done.
      * f_equal. eapply Hk; eassumption.
Qed.

(** X2: when [run] returns, the count it returns is the number of cycles it
    ran, which is at least one; the last state, and no earlier one, has
    [pc = 0]. *)
Theorem run_counts_cycles fuel m n m' :
  run fuel m = Finished n m' ->
  n = length (trace fuel m) /\ (1 <= n)%nat /\
  last (trace fuel m) = Some m' /\ pc m' = 0 /\
  forall k x, trace fuel m !! k = Some x -> pc x = 0 -> S k = n.
Proof.
  unfold run. intros H.
  apply run_from_trace in H as (Hn & Hlast & Hz & Hk). simpl in Hn.
  split; [done|]. split.
  - destruct (trace fuel m); [discriminate Hlast | simpl in Hn; lia].
  - split; [done|]. split; [done|]. intros k x Hx Hx0. rewrite Hn. eauto.
Qed.

Lemma run_counts_cycles_witness :
  run 5 counting = Finished 2 (mkMachine (code counting) [0; 0; 0; 0; 1; -1; -1; -1] 0 0 4
                                 (mkInstr OpCode.jump 0 0)) /\
  length (trace 5 counting) = 2%nat.
Proof.
  assert (H : run 5 counting =
              Finished 2 (mkMachine (code counting) [0; 0; 0; 0; 1; -1; -1; -1] 0 0 4
                            (mkInstr OpCode.jump 0 0))) by (vm_compute; reflexivity).
  split; [exact H|].
  symmetry. exact (proj1 (run_counts_cycles 5 counting _ _ H)).
Defined.

(** ** Binary operations *)

Lemma wf_set_pc m i :
  wf m -> at_pc m = Some i -> wrap32 (pc m + 1) = pc m + 1.
Proof.
  intros [Wpc _ _ Wcode _ _] Hi. pose proof (at_pc_Some _ _ Hi) as [Hlt _].
  apply wrap32_id. unfold int32 in *. lia.
Qed.

(** A binary operation whose operands are on the stack: the result
    replaces the left operand, which becomes the top. *)
Lemma cycle_binop (f : Z -> Z -> Outcome Z) (m : Machine) (i : Instr) (x y r : Z) :
  wf m ->
  at_pc m = Some i ->
  (forall m1, ir m1 = i -> dispatch m1 = binop f m1) ->
  load m (sp m) = Continue y ->
  load m (sp m - 1) = Continue x ->
  f x y = Continue r ->
  exists m',
    cycle m = Continue m' /\
    sp m' = sp m - 1 /\ bp m' = bp m /\ pc m' = pc m + 1 /\
    load m' (sp m') = Continue r /\
    forall j, j <> sp m - 1 -> load m' j = load m j.
Proof.
  intros W Hi Hop Hy Hx Hf.
  pose proof (wf_set_pc _ _ W Hi) as Hpc.
  destruct W as [Wpc Wbp Wsp Wcode Wstack Waddr].
  pose proof (load_Continue _ _ _ Hy) as By.
  pose proof (load_Continue _ _ _ Hx) as Bx.
  rewrite (cycle_fetched m i); [|done|].
  2: { right. rewrite wrap32_id by (unfold int32; lia). lia. }
  rewrite Hop by done. unfold binop. simpl.
  rewrite (wrap32_id (sp m - 1)) by (unfold int32 in *; lia).
  rewrite (load_ext _ m) by done. rewrite Hx. simpl.
  replace (sp m - 1 + 1) with (sp m) by lia.
  rewrite (wrap32_id (sp m)) by done.
  rewrite (load_ext _ m) by done. rewrite Hy. simpl. rewrite Hf. simpl.
  destruct (store (sp m - 1) r _) as [m'|] eqn:Hs.
  2: { unfold store in Hs. simpl in Hs. rewrite decide_True in Hs by lia. discriminate Hs. }
  exists m'. split; [done|].
  pose proof (store_regs _ _ _ _ Hs) as (_ & Hp & Hb & Hsp & _). simpl in *.
  rewrite Hsp, Hb, Hp, Hpc. repeat split; try done.
  - by apply (load_store_eq _ _ _ _ Hs).
  - intros j Hj. rewrite (load_store_ne _ _ _ _ _ Hs) by done. by apply load_ext.
Qed.

(** X3: [band], like [land], is the logical and of C++ ([&&]): the result
    is 1 when both operands are not zero and 0 otherwise, whatever their
    bits; it replaces the left operand, which becomes the top. *)
Theorem band_is_logical (m : Machine) (i : Instr) (x y : Z) :
  wf m ->
  at_pc m = Some i ->
  op i = OpCode.band \/ op i = OpCode.land ->
  load m (sp m) = Continue y ->
  load m (sp m - 1) = Continue x ->
  exists m',
    cycle m = Continue m' /\
    sp m' = sp m - 1 /\
    load m' (sp m') = Continue (if decide (x <> 0 /\ y <> 0) then 1 else 0) /\
    forall j, j <> sp m - 1 -> load m' j = load m j.
Proof.
  intros W Hi Hop Hy Hx.
  destruct (cycle_binop (test (fun x y => nonzero x && nonzero y)) m i x y
              (if decide (x <> 0 /\ y <> 0) then 1 else 0) W Hi)
    as (m' & Hc & Hsp & _ & _ & Hl & Hrest); [| done | done | | by exists m'].
  - intros m1 <-. unfold dispatch. by destruct Hop as [-> | ->].
  - unfold test, nonzero, truth. f_equal.
    destruct (Z.eqb_spec x 0), (Z.eqb_spec y 0); simpl; case_decide; try done; tauto.
Qed.

Lemma anding_wf : wf anding.
Proof. split; try (unfold int32; simpl; lia). repeat constructor; unfold int32; simpl; lia. Qed.

Lemma band_is_logical_witness :
  exists m',
    cycle anding = Continue m' /\ sp m' = 4 /\ load m' 4 = Continue 1 /\ Z.land 2 1 = 0.
Proof.
  destruct (band_is_logical anding (mkInstr OpCode.band 0 0) 2 1 anding_wf)
    as (m' & Hc & Hsp & Hl & _); [reflexivity | by left | reflexivity | reflexivity |].
  exists m'. split; [exact Hc|]. split; [exact Hsp|]. split; [|reflexivity].
  rewrite Hsp in Hl. exact Hl.
Defined.

(** ** Variables *)

Lemma sp_guard m v :
  wf m -> load m (sp m) = Continue v ->
  sp m = -1 \/ sp m < wrap32 (Z.of_nat (length (stack m))).
Proof.
  intros [_ _ _ _ Wstack _] H. apply load_Continue in H.
  right. rewrite wrap32_id by (unfold int32; lia). lia.
Qed.

(** X4: [assign] writes the value under the top to the address on the top
    and pops both, changing no other cell; an [eval] of that address, on
    the stack as [assign] left it, then reads the value back. *)
Theorem assign_then_eval (m : Machine) (i : Instr) (ea v : Z) :
  wf m ->
  at_pc m = Some i ->
  op i = OpCode.assign ->
  load m (sp m) = Continue ea ->
  load m (sp m - 1) = Continue v ->
  0 <= ea < Z.of_nat (length (stack m)) ->
  exists m1,
    cycle m = Continue m1 /\
    sp m1 = sp m - 2 /\
    load m1 ea = Continue v /\
    (forall k, k <> ea -> load m1 k = load m k) /\
    forall m2 j,
      wf m2 -> stack m2 = stack m1 ->
      at_pc m2 = Some j -> op j = OpCode.eval ->
      load m2 (sp m2) = Continue ea ->
      exists m3,
        cycle m2 = Continue m3 /\ sp m3 = sp m2 /\ load m3 (sp m3) = Continue v.
Proof.
  intros W Hi Hop Hea Hv Bea.
  pose proof (sp_guard _ _ W Hea) as Hg.
  destruct W as [Wpc Wbp Wsp Wcode Wstack Waddr].
  pose proof (load_Continue _ _ _ Hea) as B0.
  pose proof (load_Continue _ _ _ Hv) as B1.
  rewrite (cycle_fetched m i) by done.
  unfold dispatch. simpl. rewrite Hop.
  rewrite (load_ext _ m) by done. rewrite Hea. simpl.
  rewrite (wrap32_id (sp m - 1)) by (unfold int32 in *; lia).
  rewrite (load_ext _ m) by done. rewrite Hv. simpl.
  rewrite (wrap32_id (sp m - 1 - 1)) by (unfold int32 in *; lia).
  destruct (store ea v _) as [m1|] eqn:Hs.
  2: { unfold store in Hs. simpl in Hs. rewrite decide_True in Hs by lia. discriminate Hs. }
  exists m1. split; [done|].
  pose proof (store_regs _ _ _ _ Hs) as (_ & _ & _ & Hsp & _). simpl in Hsp.
  pose proof (load_store_eq _ _ _ _ Hs) as Hl.
  split; [lia|]. split; [done|]. split.
  - intros k Hk. rewrite (load_store_ne _ _ _ _ _ Hs) by done. by apply load_ext.
  - intros m2 j W2 Hst Hj Hopj Htop.
    pose proof (sp_guard _ _ W2 Htop) as Hg2.
    pose proof (load_Continue _ _ _ Htop) as B2.
    rewrite (cycle_fetched m2 j) by done.
    unfold dispatch. simpl. rewrite Hopj.
    rewrite (load_ext _ m2) by done. rewrite Htop. simpl.
    rewrite (load_ext _ m1) by done. rewrite Hl. simpl.
    destruct (store (sp m2) v _) as [m3|] eqn:Hs3.
    2: { unfold store in Hs3. simpl in Hs3. rewrite decide_True in Hs3 by lia.
         discriminate Hs3. }
    exists m3. split; [done|].
    pose proof (store_regs _ _ _ _ Hs3) as (_ & _ & _ & Hsp3 & _). simpl in Hsp3.
    split; [done|]. rewrite Hsp3. by apply (load_store_eq _ _ _ _ Hs3).
Qed.

Lemma assigning_wf : wf assigning.
Proof. split; try (unfold int32; simpl; lia). repeat constructor; unfold int32; simpl; lia. Qed.

Lemma evaluating_wf : wf evaluating.
Proof. split; try (unfold int32; simpl; lia). repeat constructor; unfold int32; simpl; lia. Qed.

Lemma assign_then_eval_witness :
  exists m1 m3,
    cycle assigning = Continue m1 /\ load m1 5 = Continue 9 /\
    cycle evaluating = Continue m3 /\ load m3 (sp m3) = Continue 9.
Proof.
  destruct (assign_then_eval assigning (mkInstr OpCode.assign 0 0) 5 9 assigning_wf)
    as (m1 & Hc & _ & Hl & _ & Hev);
    [reflexivity | reflexivity | reflexivity | reflexivity | simpl; lia |].
  destruct (Hev evaluating (mkInstr OpCode.eval 0 0) evaluating_wf)
    as (m3 & Hc3 & _ & Hl3); [| reflexivity | reflexivity | reflexivity |].
  - vm_compute in Hc. injection Hc as <-. reflexivity.
  - exists m1, m3. auto.
Defined.

(** ** Returning *)

(** X5: [reti nargs] unlinks the frame as [ret] does and pushes the word of
    the frame's return-value slot: the result takes the place of the first
    argument, at [bp - nargs]. *)
Theorem reti_pushes_result (m : Machine) (i : Instr) (x ra obp : Z) :
  wf m ->
  at_pc m = Some i ->
  op i = OpCode.reti ->
  load m (bp m + FrameRetVal) = Continue x ->
  load m (bp m + FrameRetAddr) = Continue ra ->
  load m (bp m + FrameOldBp) = Continue obp ->
  0 <= addr i <= bp m ->
  sp m < Z.of_nat (length (stack m)) ->
  exists m',
    cycle m = Continue m' /\
    pc m' = ra /\ bp m' = obp /\ sp m' = bp m - addr i /\
    load m' (sp m') = Continue x /\
    forall k, k <> bp m - addr i -> load m' k = load m k.
Proof.
  intros W Hi Hop Hx Hra Hobp Hn Hsp.
  assert (Hg : sp m = -1 \/ sp m < wrap32 (Z.of_nat (length (stack m)))).
  { right. destruct W. rewrite wrap32_id by (unfold int32; lia). lia. }
  destruct W as [Wpc Wbp Wsp Wcode Wstack Waddr].
  pose proof (load_Continue _ _ _ Hx) as Bx.
  unfold FrameRetVal, FrameRetAddr, FrameOldBp in *.
  rewrite (cycle_fetched m i) by done.
  unfold dispatch, ret. simpl. rewrite Hop.
  unfold FrameRetVal, FrameRetAddr, FrameOldBp.
  rewrite !(wrap32_id (bp m + _)) by (unfold int32 in *; lia).
  rewrite (load_ext _ m (bp m + 3)), Hx by done. simpl.
  rewrite (load_ext _ m (bp m + 2)), Hra by done. simpl.
  rewrite (load_ext _ m (bp m + 1)), Hobp by done. simpl.
  rewrite (wrap32_id (bp m - 1)) by (unfold int32 in *; lia).
  rewrite (wrap32_id (bp m - 1 - addr i)) by (unfold int32 in *; lia).
  rewrite (wrap32_id (bp m - 1 - addr i + 1)) by (unfold int32 in *; lia).
  replace (bp m - 1 - addr i + 1) with (bp m - addr i) by lia.
  destruct (store (bp m - addr i) x _) as [m'|] eqn:Hs.
  2: { unfold store in Hs. simpl in Hs. rewrite decide_True in Hs by lia. discriminate Hs. }
  exists m'. split; [done|].
  pose proof (store_regs _ _ _ _ Hs) as (_ & Hp & Hb & Hs' & _). simpl in *.
  rewrite Hp, Hb, Hs'. repeat split; try done.
  - by apply (load_store_eq _ _ _ _ Hs).
  - intros k Hk. rewrite (load_store_ne _ _ _ _ _ Hs) by done. by apply load_ext.
Qed.

Lemma returning_wf : wf returning.
Proof. split; try (unfold int32; simpl; lia). repeat constructor; unfold int32; simpl; lia. Qed.

Lemma reti_pushes_result_witness :
  exists m',
    cycle returning = Continue m' /\
    pc m' = 3 /\ bp m' = 0 /\ sp m' = 4 /\ load m' 4 = Continue 42.
Proof.
  destruct (reti_pushes_result returning (mkInstr OpCode.reti 0 1) 42 3 0 returning_wf)
    as (m' & Hc & Hp & Hb & Hs & Hl & _);
    [reflexivity | reflexivity | reflexivity | reflexivity | reflexivity
    | simpl; lia | simpl; lia |].
  exists m'. rewrite Hs in Hl. auto.
Defined.

(** ** The static chain *)

Lemma wrapU16_id z : 0 <= z < 2 ^ 16 -> wrapU16 z = z.
Proof. unfold wrapU16. intros H. by apply Z.mod_small. Qed.

Lemma wrapU16_range z : 0 <= wrapU16 z < 2 ^ 16.
Proof. unfold wrapU16. apply Z.mod_pos_bound. lia. Qed.

Lemma base_from_range m lvl : forall b0 b,
  base_from m lvl b0 = Continue b -> 0 <= b0 < 2 ^ 16 -> 0 <= b < 2 ^ 16.
Proof.
  induction lvl as [|l IH]; intros b0 b H Hb0; simpl in H.
  - by injection H as <-.
  - apply bind_Continue in H as (v & _ & H). eapply IH; [exact H|]. apply wrapU16_range.
Qed.

(** X6: in the frame a [Call lvl addr] built, level 0 is the new frame and
    level 1 is the frame the caller reached at level [lvl] (frames being
    addressed by 16-bit indices). *)
Theorem callee_static_link (m m' : Machine) (i : Instr) :
  wf m ->
  at_pc m = Some i ->
  op i = OpCode.call ->
  cycle m = Continue m' ->
  sp m + 1 < 2 ^ 16 ->
  exists b,
    base m (level i) = Continue b /\
    base m' 0 = Continue (bp m') /\
    base m' 1 = Continue b.
Proof.
  intros W Hi Hop Hc Hsmall.
  destruct (cycle_call m m' i W Hi Hop Hc)
    as (b & Hb & Hl & _ & _ & _ & Hbp & _ & _ & Hsp & _).
  exists b. split; [done|].
  assert (Hu : wrapU16 (bp m') = bp m') by (apply wrapU16_id; lia).
  assert (Hrb : wrapU16 b = b).
  { apply wrapU16_id. unfold base in Hb.
    eapply base_from_range; [exact Hb | apply wrapU16_range]. }
  unfold base. rewrite Hu. split; [reflexivity|].
  change (Z.to_nat (wrapU16 1)) with 1%nat. simpl.
  rewrite Hbp, Hl. simpl. by rewrite Hrb.
Qed.

Lemma callee_static_link_witness :
  exists b, base calling 0 = Continue b /\ base called 0 = Continue 4 /\ base called 1 = Continue b.
Proof.
  apply (callee_static_link calling called (mkInstr OpCode.call 0 2));
    [apply calling_wf | reflexivity | reflexivity | vm_compute; reflexivity | simpl; lia].
Defined.

(** ** The ends of the stack and of the program *)

(** X7: the assert of [run] lets a push start from the last cell of the
    stack: [pushConst] writes the next cell when there is one, and
    otherwise writes outside of the vector, which nothing reports. *)
Theorem push_bounds (m : Machine) (i : Instr) :
  wf m ->
  at_pc m = Some i ->
  op i = OpCode.pushConst ->
  -1 <= sp m < Z.of_nat (length (stack m)) ->
  (sp m + 1 < Z.of_nat (length (stack m)) ->
   exists m', cycle m = Continue m' /\ sp m' = sp m + 1 /\
              load m' (sp m') = Continue (addr i) /\
              forall k, k <> sp m + 1 -> load m' k = load m k) /\
  (sp m + 1 = Z.of_nat (length (stack m)) ->
   cycle m = Halted (Undefined OutOfBounds) /\ reported (cycle m) = false).
Proof.
  intros W Hi Hop Hsp.
  assert (Hg : sp m = -1 \/ sp m < wrap32 (Z.of_nat (length (stack m)))).
  { right. destruct W. rewrite wrap32_id by (unfold int32; lia). lia. }
  destruct W as [Wpc Wbp Wsp Wcode Wstack Waddr].
  rewrite (cycle_fetched m i) by done.
  unfold dispatch. simpl. rewrite Hop.
  rewrite (wrap32_id (sp m + 1)) by (unfold int32 in *; lia).
  split.
  - intros Hroom.
    destruct (store (sp m + 1) (addr i) _) as [m'|] eqn:Hs.
    2: { unfold store in Hs. simpl in Hs. rewrite decide_True in Hs by lia. discriminate Hs. }
    exists m'. split; [done|].
    pose proof (store_regs _ _ _ _ Hs) as (_ & _ & _ & Hs' & _). simpl in Hs'.
    rewrite Hs'. split; [done|]. split; [by apply (load_store_eq _ _ _ _ Hs)|].
    intros k Hk. rewrite (load_store_ne _ _ _ _ _ Hs) by done. by apply load_ext.
  - intros Hfull. unfold store. simpl. rewrite decide_False by lia. done.
Qed.

Lemma full_wf : wf full.
Proof. split; try (unfold int32; simpl; lia). repeat constructor; unfold int32; simpl; lia. Qed.

Lemma counting_wf : wf counting.
Proof. split; try (unfold int32; simpl; lia). repeat constructor; unfold int32; simpl; lia. Qed.

Lemma push_bounds_witness :
  (exists m', cycle counting = Continue m' /\ sp m' = 4 /\ load m' 4 = Continue 1) /\
  cycle full = Halted (Undefined OutOfBounds).
Proof.
  split.
  - destruct (proj1 (push_bounds counting (mkInstr OpCode.pushConst 0 1) counting_wf
                       eq_refl eq_refl ltac:(simpl; lia)))
      as (m' & Hc & Hs & Hl & _); [simpl; lia|].
    exists m'. rewrite Hs in Hl. auto.
  - apply (push_bounds full (mkInstr OpCode.pushConst 0 1) full_wf eq_refl eq_refl
             ltac:(simpl; lia)).
    reflexivity.
Defined.

(** X8: [operator()] on a machine of fewer than four stack words writes
    outside of the stack while resetting it, whatever the program; on a
    larger machine an empty program fails the first assert of [run]. *)
Theorem operator_on_degenerate_input (m : Machine) (program : list Instr) (fuel : nat) :
  ((length (stack m) < 4)%nat ->
   operator_call fuel m program = Stopped (Undefined OutOfBounds)) /\
  ((4 <= length (stack m))%nat ->
   operator_call (S fuel) m [] = Stopped AssertFailed).
Proof.
  unfold operator_call. split; intros H; rewrite start_state.
  - by rewrite decide_False by lia.
  - rewrite decide_True by lia. unfold run. simpl.
    unfold cycle, fetch, at_pc. simpl. by case_decide.
Qed.

Lemma operator_on_degenerate_input_witness :
  operator_call 5 (set_stack [0; 0] full) [mkInstr OpCode.pushConst 0 1]
    = Stopped (Undefined OutOfBounds) /\
  operator_call 5 full [] = Stopped AssertFailed.
Proof.
  split.
  - apply (proj1 (operator_on_degenerate_input (set_stack [0; 0] full)
                    [mkInstr OpCode.pushConst 0 1] 5)).
    simpl. lia.
  - apply (proj2 (operator_on_degenerate_input full [] 4)). simpl. lia.
Defined.

(** X9: a [ret] in a frame whose return address is 0, as the frame [reset]
    sets up for the main block is, ends the run with that cycle: [pc] is
    0, the dynamic link is the new [bp], and the stack is as it was. *)
Theorem return_to_zero_ends_run (m : Machine) (i : Instr) (obp : Z) (fuel c : nat) :
  wf m ->
  at_pc m = Some i ->
  op i = OpCode.ret ->
  load m (bp m + FrameRetAddr) = Continue 0 ->
  load m (bp m + FrameOldBp) = Continue obp ->
  sp m = -1 \/ sp m < Z.of_nat (length (stack m)) ->
  exists m',
    run_from (S fuel) c m = Finished (S c) m' /\
    pc m' = 0 /\ bp m' = obp /\ sp m' = wrap32 (bp m - 1 - addr i) /\
    stack m' = stack m.
Proof.
  intros W Hi Hop Hra Hobp Hsp.
  assert (Hg : sp m = -1 \/ sp m < wrap32 (Z.of_nat (length (stack m)))).
  { destruct W. rewrite wrap32_id by (unfold int32; lia). done. }
  destruct W as [Wpc Wbp Wsp Wcode Wstack Waddr].
  pose proof (load_Continue _ _ _ Hra) as Bra.
  unfold FrameRetAddr, FrameOldBp in *.
  simpl. rewrite (cycle_fetched m i) by done.
  unfold dispatch, ret. simpl. rewrite Hop.
  unfold FrameRetAddr, FrameOldBp.
  rewrite !(wrap32_id (bp m + _)) by (unfold int32 in *; lia).
  rewrite (load_ext _ m (bp m + 2)), Hra by done. simpl.
  rewrite (load_ext _ m (bp m + 1)), Hobp by done. simpl.
  rewrite (wrap32_id (bp m - 1)) by (unfold int32 in *; lia).
  eexists. split; [reflexivity|]. done.
Qed.

Lemma ending_wf : wf ending.
Proof. split; try (unfold int32; simpl; lia). repeat constructor; unfold int32; simpl; lia. Qed.

Lemma return_to_zero_ends_run_witness :
  exists m', run_from 1 0 ending = Finished 1 m' /\ pc m' = 0 /\ sp m' = -1.
Proof.
  destruct (return_to_zero_ends_run ending (mkInstr OpCode.ret 0 0) 0 0 0 ending_wf)
    as (m' & Hr & Hp & _ & Hs & _);
    [reflexivity | reflexivity | reflexivity | reflexivity | right; simpl; lia |].
  exists m'. auto.
Defined.
End InterpFacts.

(** * Facts about the compiler *)

Module CompFacts.
Import Comp.

#[local] Unset Default Proof Using.

#[global] Arguments bind : simpl never.
#[global] Arguments ret : simpl never.

Lemma bind_Ok {A B} (m : M A) (f : A -> M B) s b s' :
  bind m f s = Ok b s' -> exists a s1, m s = Ok a s1 /\ f a s1 = Ok b s'.
Proof. unfold bind. destruct (m s); [eauto | discriminate | discriminate]. Qed.

Lemma ret_Ok {A} (a b : A) s s' : ret a s = Ok b s' -> b = a /\ s' = s.
Proof. unfold ret. intros [= -> ->]. auto. Qed.

Lemma get_Ok s a s' : get s = Ok a s' -> a = s /\ s' = s.
Proof. unfold get. intros [= -> ->]. auto. Qed.

Lemma current_Ok s k s' : current s = Ok k s' -> k = Token.kind (ct s) /\ s' = s.
Proof. unfold current. intros [= <- <-]. auto. Qed.

Lemma code_size_Ok s n s' : code_size s = Ok n s' -> n = length (code s) /\ s' = s.
Proof. unfold code_size. intros [= <- <-]. auto. Qed.

Lemma deref_Ok r s v s' : deref r s = Ok v s' -> s' = s.
Proof. unfold deref. destruct (filter _ _); [discriminate|]. by intros [= _ <-]. Qed.

Lemma emit_Ok o l a s n s' :
  emit o l a s = Ok n s' ->
  n = length (code s) /\ s' = set_code (code s ++ [mkInstr o (wrap8 l) a]) s.
Proof. unfold emit. intros [= <- <-]. auto. Qed.

Lemma ts_get_Ok s t s' :
  ts_get s = Ok t s' ->
  code s' = code s /\ symtbl s' = symtbl s /\ serial s' = serial s /\
  nErrors s' = nErrors s /\ cerr s' = cerr s /\ lookups s' = lookups s /\
  ct s' = t /\ t = hd (Token.of_kind Token.eos) (input s) /\ input s' = tl (input s).
Proof. unfold ts_get. destruct (input s); intros [= <- <-]; simpl; auto 10. Qed.

Lemma error_Ok d s u s' :
  error d s = Ok u s' ->
  code s' = code s /\ symtbl s' = symtbl s /\ serial s' = serial s /\
  ct s' = ct s /\ input s' = input s /\ lookups s' = lookups s /\
  cerr s' = cerr s ++ [d] /\ nErrors s' = wrapU32 (nErrors s + 1).
Proof. unfold error. intros ?; simplify_eq; simpl; auto 10. Qed.

Lemma emit_Ok' o l a s n s' :
  emit o l a s = Ok n s' ->
  code s' = code s ++ [mkInstr o (wrap8 l) a] /\ symtbl s' = symtbl s /\ serial s' = serial s /\
  ct s' = ct s /\ input s' = input s /\ lookups s' = lookups s /\
  cerr s' = cerr s /\ nErrors s' = nErrors s.
Proof. unfold emit. intros [= <- <-]; simpl; auto 10. Qed.

Lemma patch_Ok i a s u s' :
  patch i a s = Ok u s' ->
  (exists ins, code s !! i = Some ins /\
               code s' = <[i := mkInstr (op ins) (level ins) a]> (code s)) /\
  symtbl s' = symtbl s /\ serial s' = serial s /\
  ct s' = ct s /\ input s' = input s /\ lookups s' = lookups s /\
  cerr s' = cerr s /\ nErrors s' = nErrors s.
Proof.
  unfold patch. destruct (code s !! i) eqn:E; [|discriminate].
  intros ?; simplify_eq; simpl; eauto 10.
Qed.

Lemma lookup_Ok l nm s c s' :
  lookup l nm s = Ok c s' ->
  c = closest (equal_range nm (symtbl s)) /\
  code s' = code s /\ symtbl s' = symtbl s /\ serial s' = serial s /\
  ct s' = ct s /\ input s' = input s /\
  cerr s' = cerr s /\ nErrors s' = nErrors s /\
  lookups s' = lookups s ++ [mkLookup l (symtbl s) nm c].
Proof. unfold lookup. intros [= <- <-]; simpl; auto 10. Qed.

Lemma insert_Ok nm v s n s' :
  insert nm v s = Ok n s' ->
  n = serial s /\
  symtbl s' = symtbl s ++ [mkNode (serial s) nm v] /\ serial s' = S (serial s) /\
  code s' = code s /\ ct s' = ct s /\ input s' = input s /\ lookups s' = lookups s /\
  cerr s' = cerr s /\ nErrors s' = nErrors s.
Proof. unfold insert. intros [= <- <-]; simpl; auto 10. Qed.

Lemma set_value_Ok r a s u s' :
  set_value r a s = Ok u s' ->
  symtbl s' =
    map (fun n => if decide (id n = r)
                  then mkNode (id n) (key n)
                         (SymValue.mk (SymValue.kind (val n)) (SymValue.level (val n)) a)
                  else n) (symtbl s) /\
  serial s' = serial s /\
  code s' = code s /\ ct s' = ct s /\ input s' = input s /\ lookups s' = lookups s /\
  cerr s' = cerr s /\ nErrors s' = nErrors s.
Proof.
  unfold set_value. destruct (filter _ _); [discriminate|].
  intros ?; simplify_eq; simpl; auto 10.
Qed.

Lemma purge_Ok l s u s' :
  purge l s = Ok u s' ->
  symtbl s' = filter (fun n => SymValue.level (val n) <> l) (symtbl s) /\
  serial s' = serial s /\
  code s' = code s /\ ct s' = ct s /\ input s' = input s /\ lookups s' = lookups s /\
  cerr s' = cerr s /\ nErrors s' = nErrors s.
Proof. unfold purge. intros ?; simplify_eq; simpl; auto 10. Qed.

Lemma relation_compiler_set k o : relation k = Some o -> OpCode.compiler_set o = true.
Proof. destruct k; simpl; intros [= <-]; reflexivity. Qed.

Lemma exec_S n p : exec (S n) p = body n (exec n) p.
Proof. reflexivity. Qed.

(** Taking a successful run apart, call by call. *)
Ltac minv :=
  repeat match goal with
  | H : bind _ _ _ = Ok _ _ |- _ =>
      let a := fresh "a" in let s := fresh "s" in let Ha := fresh "Hm" in
      apply bind_Ok in H; destruct H as (a & s & Ha & H); cbv beta in H
  | H : ret _ _ = Ok _ _ |- _ => apply ret_Ok in H; destruct H; subst
  | H : get _ = Ok _ _ |- _ => apply get_Ok in H; destruct H; subst
  | H : current _ = Ok _ _ |- _ => apply current_Ok in H; destruct H; subst
  | H : code_size _ = Ok _ _ |- _ => apply code_size_Ok in H; destruct H; subst
  | H : deref _ _ = Ok _ _ |- _ => apply deref_Ok in H; subst
  | H : abort _ = Ok _ _ |- _ => discriminate H
  | H : out_of_fuel _ = Ok _ _ |- _ => discriminate H
  | H : (if ?c then _ else _) _ = Ok _ _ |- _ => destruct c eqn:?
  | H : (match ?c with _ => _ end) _ = Ok _ _ |- _ => destruct c eqn:?
  | u : unit |- _ => destruct u
  end.

Ltac unfold_body H :=
  cbv beta iota zeta delta
    [body identifier_ factor_ factors_ terminal_ terms_ expression_ arguments_
     condition_ assignStmt_ callStmt_ identStmt_ whileStmt_ ifStmt_ repeatStmt_
     statement_ statements_ subDecl_ subDecls_ block_] in H.

(** ** Relations every step of the compiler keeps

    A relation between the state before and the state after that holds
    across each primitive step holds across every member function.  A
    [patch] only ever rewrites an instruction the running function has
    emitted itself, which its hypothesis may use. *)
Section Stepwise.

Variable R : Z -> State -> State -> Prop.

Hypothesis R_refl : forall L s, R L s s.
Hypothesis R_trans : forall L s1 s2 s3, R L s1 s2 -> R L s2 s3 -> R L s1 s3.
Hypothesis R_len : forall L s s', R L s s' -> (length (code s) <= length (code s'))%nat.
Hypothesis R_next : forall L s t s', ts_get s = Ok t s' -> R L s s'.
Hypothesis R_error : forall L d s u s', error d s = Ok u s' -> R L s s'.
Hypothesis R_emit : forall L o l a s n s',
  OpCode.compiler_set o = true -> emit o l a s = Ok n s' -> R L s s'.
Hypothesis R_patch : forall L s0 s i a u s',
  R L s0 s -> (length (code s0) <= i)%nat -> patch i a s = Ok u s' -> R L s0 s'.
Hypothesis R_lookup : forall L nm s c s', lookup L nm s = Ok c s' -> R L s s'.

Lemma accept_R L k g s b s' : accept k g s = Ok b s' -> R L s s'.
Proof.
  unfold accept, next. intros H. minv; eauto.
Qed.

Lemma expect_R L k g s b s' : expect k g s = Ok b s' -> R L s s'.
Proof.
  unfold expect. intros H. minv; eauto using accept_R.
Qed.

Lemma orelse_R L (a b : M bool) s x s' :
  (forall s x s', a s = Ok x s' -> R L s s') ->
  (forall s x s', b s = Ok x s' -> R L s s') ->
  orelse a b s = Ok x s' -> R L s s'.
Proof.
  unfold orelse. intros Ha Hb H. minv; eauto.
Qed.

(** One step. *)
Ltac atom L H :=
  first
    [ eapply R_next; exact H
    | eapply R_error; exact H
    | eapply R_emit; [ | exact H]; first [reflexivity | eapply relation_compiler_set; eassumption]
    | eapply R_lookup; exact H
    | eapply accept_R; exact H
    | eapply expect_R; exact H
    | eapply orelse_R; [ | | exact H];
      let Hx := fresh in intros ? ? ? Hx; atom L Hx
    | lazymatch goal with
      | IH : (forall q : Prod, _) |- _ => eapply IH; [ | | exact H]; reflexivity
      end ].

(** Chaining the steps of a run back from its last state. *)
Ltac chain L :=
  lazymatch goal with
  | |- R _ ?s ?s => apply R_refl
  | |- R _ ?s0 ?s' =>
      lazymatch goal with
      | H : patch ?i ?a ?sk = Ok _ s' |- _ =>
          apply (R_patch L s0 sk i a tt s');
          [ chain L
          | lazymatch goal with
            | He : emit _ _ _ ?sj = Ok i _ |- _ =>
                rewrite (proj1 (emit_Ok _ _ _ _ _ _ He)); apply (R_len L); chain L
            end
          | exact H ]
      | H : _ ?sk = Ok _ s' |- _ =>
          apply (R_trans L s0 sk s'); [chain L | atom L H]
      end
  end.

Theorem stmt_R fuel : forall p s s',
  declares p = false -> exec fuel p s = Ok tt s' -> R (lvl_of p) s s'.
Proof.
  induction fuel as [|n IH]; intros p s s' Hp H; [discriminate H|].
  rewrite exec_S in H.
  assert (IH_calls : forall q s s', declares q = false -> lvl_of q = lvl_of p ->
                                    exec n q s = Ok tt s' -> R (lvl_of p) s s').
  { intros q s1 s2 Hq <- Hx. by apply IH. }
  clear IH.
  destruct p; try discriminate Hp; simpl lvl_of in *; unfold_body H; unfold next in *;
    minv; chain lvl.
Qed.

(** The same for the member functions that declare, when the relation
    is kept by the writes to the symbol table as well and does not depend
    on the level. *)
Hypothesis R_level : forall L L' s s', R L s s' -> R L' s s'.
Hypothesis R_insert : forall L nm v s n s', insert nm v s = Ok n s' -> R L s s'.
Hypothesis R_set_value : forall L r a s u s', set_value r a s = Ok u s' -> R L s s'.
Hypothesis R_purge : forall L l s u s', purge l s = Ok u s' -> R L s s'.

Ltac atom_decl L H :=
  first
    [ eapply R_next; exact H
    | eapply R_error; exact H
    | eapply R_emit; [ | exact H]; first [reflexivity | eapply relation_compiler_set; eassumption]
    | eapply R_insert; exact H
    | eapply R_set_value; exact H
    | eapply R_purge; exact H
    | eapply accept_R; exact H
    | eapply expect_R; exact H
    | eapply orelse_R; [ | | exact H];
      let Hx := fresh in intros ? ? ? Hx; atom_decl L Hx
    | lazymatch goal with
      | IH : (forall _, _) |- _ => eapply IH; exact H
      end ].

Ltac chain_decl L :=
  lazymatch goal with
  | |- R _ ?s ?s => apply R_refl
  | |- R _ ?s0 ?s' =>
      lazymatch goal with
      | H : patch ?i ?a ?sk = Ok _ s' |- _ =>
          apply (R_patch L s0 sk i a tt s');
          [ chain_decl L
          | lazymatch goal with
            | He : emit _ _ _ ?sj = Ok i _ |- _ =>
                rewrite (proj1 (emit_Ok _ _ _ _ _ _ He)); apply (R_len L); chain_decl L
            end
          | exact H ]
      | H : R _ ?sk s' |- _ =>
          apply (R_trans L s0 sk s'); [chain_decl L | exact H]
      | H : _ ?sk = Ok _ s' |- _ =>
          apply (R_trans L s0 sk s'); [chain_decl L | atom_decl L H]
      end
  end.

Lemma constDecl_R L l s u s' : constDecl l s = Ok u s' -> R L s s'.
Proof. unfold constDecl, next. intros H. minv; chain_decl L. Qed.

Lemma varDecl_R L o l s x s' : varDecl o l s = Ok x s' -> R L s s'.
Proof. unfold varDecl. intros H. minv; chain_decl L. Qed.

Lemma constDecls_R L fuel : forall l s u s', constDecls fuel l s = Ok u s' -> R L s s'.
Proof.
  induction fuel as [|n IH]; intros l s u s' H; [discriminate H|].
  simpl in H. minv.
  - eapply R_trans; [eapply constDecl_R; eassumption|].
    eapply R_trans; [eapply accept_R; eassumption|]. eapply IH; eassumption.
  - eapply R_trans; [eapply constDecl_R; eassumption|]. eapply accept_R; eassumption.
Qed.

Lemma varDecls_R L fuel : forall o l s x s', varDecls fuel o l s = Ok x s' -> R L s s'.
Proof.
  induction fuel as [|n IH]; intros o l s x s' H; [discriminate H|].
  simpl in H. minv.
  - eapply R_trans; [eapply varDecl_R; eassumption|].
    eapply R_trans; [eapply accept_R; eassumption|]. eapply IH; eassumption.
  - eapply R_trans; [eapply varDecl_R; eassumption|]. eapply accept_R; eassumption.
Qed.

Lemma formals_R L fuel : forall args s x s', formals fuel args s = Ok x s' -> R L s s'.
Proof.
  induction fuel as [|n IH]; intros args s x s' H; [discriminate H|].
  simpl in H. minv.
  - eapply R_trans; [eapply accept_R; eassumption|].
    eapply R_trans; [eapply accept_R; eassumption|]. eapply IH; eassumption.
  - eapply R_trans; [eapply accept_R; eassumption|]. eapply accept_R; eassumption.
Qed.

Lemma bind_formals_R L args : forall l o s u s', bind_formals args l o s = Ok u s' -> R L s s'.
Proof.
  induction args as [|x rest IH]; intros l o s u s' H; simpl in H; minv; [apply R_refl|].
  eapply R_trans; [eapply R_insert; eassumption|]. eapply IH; eassumption.
Qed.

Lemma redefined_R L range : forall nm s u s', redefined range nm s = Ok u s' -> R L s s'.
Proof.
  induction range as [|x rest IH]; intros nm s u s' H; simpl in H; minv; [apply R_refl|].
  eapply R_trans; [eapply R_error; eassumption|]. eapply IH; eassumption.
Qed.

Theorem exec_R L fuel : forall p s s', exec fuel p s = Ok tt s' -> R L s s'.
Proof.
  induction fuel as [|n IH]; intros p s s' H; [discriminate H|].
  destruct (declares p) eqn:Hp.
  - rewrite exec_S in H.
    destruct p; try discriminate Hp; unfold_body H; unfold next in *; minv.
    all: repeat lazymatch goal with
      | Hx : constDecls _ _ _ = Ok _ _ |- _ => apply (constDecls_R L) in Hx
      | Hx : varDecls _ _ _ _ = Ok _ _ |- _ => apply (varDecls_R L) in Hx
      | Hx : formals _ _ _ = Ok _ _ |- _ => apply (formals_R L) in Hx
      | Hx : bind_formals _ _ _ _ = Ok _ _ |- _ => apply (bind_formals_R L) in Hx
      | Hx : redefined _ _ _ = Ok _ _ |- _ => apply (redefined_R L) in Hx
      end.
    all: chain_decl L.
  - apply (R_level (lvl_of p)). by apply (stmt_R (S n)).
Qed.

End Stepwise.

(** The hypothesis on the length of the code comes for free. *)
Section Stepwise_len.

Variable R : Z -> State -> State -> Prop.

Hypothesis R_refl : forall L s, R L s s.
Hypothesis R_trans : forall L s1 s2 s3, R L s1 s2 -> R L s2 s3 -> R L s1 s3.
Hypothesis R_next : forall L s t s', ts_get s = Ok t s' -> R L s s'.
Hypothesis R_error : forall L d s u s', error d s = Ok u s' -> R L s s'.
Hypothesis R_emit : forall L o l a s n s',
  OpCode.compiler_set o = true -> emit o l a s = Ok n s' -> R L s s'.
Hypothesis R_patch : forall L s0 s i a u s',
  R L s0 s -> (length (code s0) <= i)%nat -> (length (code s0) <= length (code s))%nat ->
  patch i a s = Ok u s' -> R L s0 s'.
Hypothesis R_lookup : forall L nm s c s', lookup L nm s = Ok c s' -> R L s s'.


Theorem stmt_keeps fuel p s s' :
  declares p = false -> exec fuel p s = Ok tt s' -> R (lvl_of p) s s'.
Proof.
  intros Hp H.
  refine (proj1 (stmt_R (with_len R) _ _ _ _ _ _ _ _ fuel p s s' Hp H)); unfold with_len.
  - auto.
  - intros L s1 s2 s3 [? ?] [? ?]. split; [eauto | lia].
  - tauto.
  - intros L s1 t s2 Hx. split; [eauto|]. apply ts_get_Ok in Hx as (-> & _). done.
  - intros L d s1 u s2 Hx. split; [eauto|]. apply error_Ok in Hx as (-> & _). done.
  - intros L o l a s1 n s2 Ho Hx. split; [eauto|]. apply emit_Ok' in Hx as (-> & _).
    rewrite length_app. lia.
  - intros L s0 s1 i a u s2 [H1 H2] Hi Hx. split; [eauto|].
    apply patch_Ok in Hx as ((ins & _ & ->) & _). rewrite length_insert. done.
  - intros L nm s1 c s2 Hx. split; [eauto|]. apply lookup_Ok in Hx as (_ & -> & _). done.
Qed.

Hypothesis R_level : forall L L' s s', R L s s' -> R L' s s'.
Hypothesis R_insert : forall L nm v s n s', insert nm v s = Ok n s' -> R L s s'.
Hypothesis R_set_value : forall L r a s u s', set_value r a s = Ok u s' -> R L s s'.
Hypothesis R_purge : forall L l s u s', purge l s = Ok u s' -> R L s s'.

Theorem exec_keeps L fuel p s s' : exec fuel p s = Ok tt s' -> R L s s'.
Proof.
  intros H.
  refine (proj1 (exec_R (with_len R) _ _ _ _ _ _ _ _ _ _ _ _ L fuel p s s' H)); unfold with_len.
  - split; [apply R_refl | done].
  - intros L0 s1 s2 s3 [? ?] [? ?]. split; [by eapply R_trans | lia].
  - tauto.
  - intros L0 s1 t s2 Hx. split; [by eapply R_next|]. apply ts_get_Ok in Hx as (-> & _). done.
  - intros L0 d s1 u s2 Hx. split; [by eapply R_error|]. apply error_Ok in Hx as (-> & _). done.
  - intros L0 o l a s1 n s2 Ho Hx. split; [by eapply R_emit|]. apply emit_Ok' in Hx as (-> & _).
    rewrite length_app. lia.
  - intros L0 s0 s1 i a u s2 [H1 H2] Hi Hx. split; [by eapply R_patch|].
    apply patch_Ok in Hx as ((ins & _ & ->) & _). rewrite length_insert. done.
  - intros L0 nm s1 c s2 Hx. split; [by eapply R_lookup|].
    apply lookup_Ok in Hx as (_ & -> & _). done.
  - intros L0 L' s1 s2 [? ?]. split; [by eapply R_level | done].
  - intros L0 nm v s1 n s2 Hx. split; [by eapply R_insert|].
    apply insert_Ok in Hx as (_ & _ & _ & -> & _). done.
  - intros L0 r a s1 u s2 Hx. split; [by eapply R_set_value|].
    apply set_value_Ok in Hx as (_ & _ & -> & _). done.
  - intros L0 l s1 u s2 Hx. split; [by eapply R_purge|].
    apply purge_Ok in Hx as (_ & _ & -> & _). done.
Qed.

End Stepwise_len.

(** ** What the member functions keep *)

Section Kept.

Variable R : Z -> State -> State -> Prop.
Hypothesis K : Keeps R.

Lemma kept_accept L k g s b s' : accept k g s = Ok b s' -> R L s s'.
Proof. destruct K. by eapply accept_R. Qed.

Lemma kept_expect L k g s b s' : expect k g s = Ok b s' -> R L s s'.
Proof. destruct K. by eapply expect_R. Qed.

Lemma kept_formals L fuel args s x s' : formals fuel args s = Ok x s' -> R L s s'.
Proof. destruct K. by eapply formals_R. Qed.

Lemma kept_redefined L range nm s u s' : redefined range nm s = Ok u s' -> R L s s'.
Proof. destruct K. by eapply redefined_R. Qed.

Lemma kept_stmt fuel p s s' :
  declares p = false -> exec fuel p s = Ok tt s' -> R (lvl_of p) s s'.
Proof. destruct K. by eapply stmt_keeps. Qed.

End Kept.

Section Kept_decl.

Variable R : Z -> State -> State -> Prop.
Hypothesis K : Keeps_decl R.

Lemma kept_constDecl L l s u s' : constDecl l s = Ok u s' -> R L s s'.
Proof. destruct K as [[] ? ? ? ?]. by eapply constDecl_R. Qed.

Lemma kept_varDecl L o l s x s' : varDecl o l s = Ok x s' -> R L s s'.
Proof. destruct K as [[] ? ? ? ?]. by eapply varDecl_R. Qed.

Lemma kept_constDecls L fuel l s u s' : constDecls fuel l s = Ok u s' -> R L s s'.
Proof. destruct K as [[] ? ? ? ?]. by eapply constDecls_R. Qed.

Lemma kept_varDecls L fuel o l s x s' : varDecls fuel o l s = Ok x s' -> R L s s'.
Proof. destruct K as [[] ? ? ? ?]. by eapply varDecls_R. Qed.

Lemma kept_bind_formals L args l o s u s' : bind_formals args l o s = Ok u s' -> R L s s'.
Proof. destruct K as [[] ? ? ? ?]. by eapply bind_formals_R. Qed.

Lemma kept_exec L fuel p s s' : exec fuel p s = Ok tt s' -> R L s s'.
Proof. destruct K as [[] ? ? ? ?]. by eapply exec_keeps. Qed.

End Kept_decl.

(** The code only grows. *)
Lemma extends_refl s : extends s s.
Proof. exists []. by rewrite app_nil_r. Qed.

Lemma extends_trans s1 s2 s3 : extends s1 s2 -> extends s2 s3 -> extends s1 s3.
Proof. intros [d1 H1] [d2 H2]. exists (d1 ++ d2). by rewrite H2, H1, app_assoc. Qed.

Lemma extends_same s s' : code s' = code s -> extends s s'.
Proof. intros H. exists []. by rewrite app_nil_r. Qed.

Lemma Keeps_extends : Keeps_decl (fun _ => extends).
Proof.
  split; [split|..].
  - intros _. apply extends_refl.
  - intros _. apply extends_trans.
  - intros _ s0 t s1 (? & _)%ts_get_Ok. by apply extends_same.
  - intros _ d s0 u s1 (? & _)%error_Ok. by apply extends_same.
  - intros _ o l a s0 n s1 _ (H & _)%emit_Ok'. by eexists.
  - intros _ s0 s1 i a u s2 [d Hd] Hi _ ((ins & _ & H) & _)%patch_Ok.
    unfold extends. rewrite H, Hd. rewrite insert_app_r_alt by done. by eexists.
  - intros _ nm s0 c s1 (_ & ? & _)%lookup_Ok. by apply extends_same.
  - auto.
  - intros _ nm v s0 n s1 (_ & _ & _ & ? & _)%insert_Ok. by apply extends_same.
  - intros _ r a s0 u s1 (_ & _ & ? & _)%set_value_Ok. by apply extends_same.
  - intros _ l s0 u s1 (_ & _ & ? & _)%purge_Ok. by apply extends_same.
Qed.

Lemma exec_extends fuel p s s' : exec fuel p s = Ok tt s' -> extends s s'.
Proof. apply (kept_exec _ Keeps_extends 0). Qed.

(** Every instruction the compiler emits has an opcode of the
    enumeration of [pl0c/pl0c.h]. *)
Lemma Keeps_compiler_set :
  Keeps_decl (fun _ s s' => in_compiler_set (code s) -> in_compiler_set (code s')).
Proof.
  unfold in_compiler_set. split; [split|..].
  - auto.
  - auto.
  - by intros _ s0 t s1 (-> & _)%ts_get_Ok.
  - by intros _ d s0 u s1 (-> & _)%error_Ok.
  - intros _ o l a s0 n s1 Ho (-> & _)%emit_Ok' H. apply Forall_app. split; [done|].
    by repeat constructor.
  - intros _ s0 s1 i a u s2 H01 Hi _ ((ins & Hins & ->) & _)%patch_Ok H0.
    apply Forall_insert; [auto|]. simpl.
    specialize (H01 H0). rewrite Forall_forall in H01. apply H01.
    by eapply list_elem_of_lookup_2.
  - by intros _ nm s0 c s1 (_ & -> & _)%lookup_Ok.
  - auto.
  - by intros _ nm v s0 n s1 (_ & _ & _ & -> & _)%insert_Ok.
  - by intros _ r a s0 u s1 (_ & _ & -> & _)%set_value_Ok.
  - by intros _ l s0 u s1 (_ & _ & -> & _)%purge_Ok.
Qed.

Lemma exec_compiler_set fuel p s s' :
  exec fuel p s = Ok tt s' -> in_compiler_set (code s) -> in_compiler_set (code s').
Proof. apply (kept_exec _ Keeps_compiler_set 0). Qed.

(** Each diagnostic counts. *)
Lemma reports_refl s : reports s s [].
Proof. split; [by rewrite app_nil_r | by rewrite Z.add_0_r]. Qed.

Lemma reports_trans s1 s2 s3 d1 d2 :
  reports s1 s2 d1 -> reports s2 s3 d2 -> reports s1 s3 (d1 ++ d2).
Proof.
  intros [H1 N1] [H2 N2]. split; [by rewrite H2, H1, app_assoc|].
  rewrite N2. unfold wrapU32 in *.
  rewrite length_app, Nat2Z.inj_add.
  rewrite <- Zplus_mod_idemp_l, N1, Zplus_mod_idemp_l. f_equal. lia.
Qed.

Lemma reports_same s s' :
  cerr s' = cerr s -> nErrors s' = nErrors s -> reports s s' [].
Proof. intros Hc Hn. unfold reports. by rewrite Hn, Hc, app_nil_r, Z.add_0_r. Qed.

Lemma error_reports d s u s' : error d s = Ok u s' -> reports s s' [d].
Proof.
  intros (_ & _ & _ & _ & _ & _ & Hc & Hn)%error_Ok. unfold reports.
  rewrite Hn, Hc. split; [done|]. unfold wrapU32. by rewrite Zmod_mod.
Qed.

Lemma Keeps_reports : Keeps_decl (fun _ s s' => exists ds, reports s s' ds).
Proof.
  split; [split|..].
  - intros _ s0. exists []. apply reports_refl.
  - intros _ s1 s2 s3 [d1 H1] [d2 H2]. exists (d1 ++ d2). by eapply reports_trans.
  - intros _ s0 t s1 (_ & _ & _ & Hn & Hc & _)%ts_get_Ok. exists []. by apply reports_same.
  - intros _ d s0 u s1 H. exists [d]. by eapply error_reports.
  - intros _ o l a s0 n s1 _ (_ & _ & _ & _ & _ & _ & Hc & Hn)%emit_Ok'.
    exists []. by apply reports_same.
  - intros _ s0 s1 i a u s2 [ds H01] _ _ (_ & _ & _ & _ & _ & _ & Hc & Hn)%patch_Ok.
    exists ds. unfold reports in *. by rewrite Hn, Hc.
  - intros _ nm s0 c s1 (_ & _ & _ & _ & _ & _ & Hc & Hn & _)%lookup_Ok.
    exists []. by apply reports_same.
  - auto.
  - intros _ nm v s0 n s1 (_ & _ & _ & _ & _ & _ & _ & Hc & Hn)%insert_Ok.
    exists []. by apply reports_same.
  - intros _ r a s0 u s1 (_ & _ & _ & _ & _ & _ & Hc & Hn)%set_value_Ok.
    exists []. by apply reports_same.
  - intros _ l s0 u s1 (_ & _ & _ & _ & _ & _ & Hc & Hn)%purge_Ok.
    exists []. by apply reports_same.
Qed.

Lemma exec_reports fuel p s s' : exec fuel p s = Ok tt s' -> exists ds, reports s s' ds.
Proof. apply (kept_exec _ Keeps_reports 0). Qed.

(** ** More fuel changes nothing *)


Lemma le_M_refl {A} (m : M A) : le_M m m.
Proof. intros s. by right. Qed.

Lemma le_M_bind {A B} (m1 m2 : M A) (f1 f2 : A -> M B) :
  le_M m1 m2 -> (forall a, le_M (f1 a) (f2 a)) -> le_M (bind m1 f1) (bind m2 f2).
Proof.
  intros Hm Hf s. unfold bind. destruct (Hm s) as [-> | ->]; [by left|].
  destruct (m2 s); [apply Hf | by right | by right].
Qed.

Lemma le_M_out {A} (m : M A) : le_M out_of_fuel m.
Proof. intros s. by left. Qed.

Ltac mono :=
  repeat first
    [ apply le_M_refl
    | apply le_M_out
    | assumption
    | apply le_M_bind; [ | intros ? ]
    | lazymatch goal with
      | |- le_M (if ?c then _ else _) _ => destruct c
      | |- le_M (match ?c with _ => _ end) _ => destruct c
      | H : forall q, le_M (_ q) (_ q) |- le_M (_ ?p) (_ ?p) => apply H
      end ].

Lemma constDecls_mono n : forall m l, (n <= m)%nat -> le_M (constDecls n l) (constDecls m l).
Proof.
  induction n as [|n IH]; intros m l Hm; [apply le_M_out|].
  destruct m as [|m]; [lia|]. simpl.
  assert (le_M (constDecls n l) (constDecls m l)) by (apply IH; lia). mono.
Qed.

Lemma varDecls_mono n : forall m dx l, (n <= m)%nat -> le_M (varDecls n dx l) (varDecls m dx l).
Proof.
  induction n as [|n IH]; intros m dx l Hm; [apply le_M_out|].
  destruct m as [|m]; [lia|]. simpl.
  assert (forall dx, le_M (varDecls n dx l) (varDecls m dx l)) by (intros; apply IH; lia).
  mono; auto.
Qed.

Lemma formals_mono n : forall m args, (n <= m)%nat -> le_M (formals n args) (formals m args).
Proof.
  induction n as [|n IH]; intros m args Hm; [apply le_M_out|].
  destruct m as [|m]; [lia|]. simpl.
  assert (forall args, le_M (formals n args) (formals m args)) by (intros; apply IH; lia).
  mono; auto.
Qed.

Lemma body_mono n m (call1 call2 : Prod -> M unit) p :
  (n <= m)%nat -> (forall q, le_M (call1 q) (call2 q)) ->
  le_M (body n call1 p) (body m call2 p).
Proof.
  intros Hnm Hcall.
  pose proof (fun l => constDecls_mono n m l Hnm).
  pose proof (fun dx l => varDecls_mono n m dx l Hnm).
  pose proof (fun args => formals_mono n m args Hnm).
  destruct p; simpl;
    unfold identifier_, factor_, factors_, terminal_, terms_, expression_, arguments_,
      condition_, assignStmt_, callStmt_, identStmt_, whileStmt_, ifStmt_, repeatStmt_,
      statement_, statements_, subDecl_, subDecls_, block_;
    mono; auto.
Qed.

Lemma exec_le n : forall m p, (n <= m)%nat -> le_M (exec n p) (exec m p).
Proof.
  induction n as [|n IH]; intros m p Hm; [apply le_M_out|].
  destruct m as [|m]; [lia|].
  rewrite !exec_S. apply body_mono; [lia|]. intros q. apply IH. lia.
Qed.

(** A run that did not stop for want of fuel is the run with any larger
    amount of it. *)
Lemma exec_mono n m p s r :
  exec n p s = r -> r <> OutOfFuel -> (n <= m)%nat -> exec m p s = r.
Proof.
  intros H Hr Hm. destruct (exec_le n m p Hm s) as [E | E]; congruence.
Qed.

Lemma exec_mono_Ok n m p s s' :
  exec n p s = Ok tt s' -> (n <= m)%nat -> exec m p s = Ok tt s'.
Proof. intros H. by apply exec_mono. Qed.


(** ** Tokens are consumed, never put back *)

Lemma ts_get_remaining s t s' :
  ts_get s = Ok t s' ->
  (remaining s' <= remaining s)%nat /\
  (Token.kind (ct s) <> Token.eos -> (remaining s' < remaining s)%nat).
Proof.
  unfold ts_get, remaining. destruct (input s) as [|t0 rest]; intros [= <- <-]; simpl.
  - repeat case_decide; try done; split; intros; try done; lia.
  - repeat case_decide; simpl; split; intros; try done; lia.
Qed.

Lemma exec_remaining fuel p s s' :
  exec fuel p s = Ok tt s' -> (remaining s' <= remaining s)%nat.
Proof.
  apply (exec_keeps (fun _ s s' => (remaining s' <= remaining s)%nat)) with (L := 0);
    unfold remaining.
  - auto.
  - intros; lia.
  - intros _ s0 t s1 H. by apply ts_get_remaining in H as [H _].
  - by intros _ d s0 u s1 (_ & _ & _ & -> & -> & _)%error_Ok.
  - by intros _ o l a s0 n s1 _ (_ & _ & _ & -> & -> & _)%emit_Ok'.
  - intros _ s0 s1 i a u s2 H _ _ (_ & _ & _ & -> & -> & _)%patch_Ok. done.
  - by intros _ nm s0 c s1 (_ & _ & _ & _ & -> & -> & _)%lookup_Ok.
  - auto.
  - by intros _ nm v s0 n s1 (_ & _ & _ & _ & -> & -> & _)%insert_Ok.
  - by intros _ r a s0 u s1 (_ & _ & _ & -> & -> & _)%set_value_Ok.
  - by intros _ l s0 u s1 (_ & _ & _ & -> & -> & _)%purge_Ok.
Qed.

Lemma accept_Ok k g s b s' :
  accept k g s = Ok b s' ->
  (b = true /\ Token.kind (ct s) = k /\
   if g then ts_get s = Ok (ct s') s' else s' = s) \/
  (b = false /\ Token.kind (ct s) <> k /\ s' = s).
Proof.
  unfold accept, next. intros H. minv.
  - left. split; [done|]. split; [done|]. pose proof Hm as Hx.
    apply ts_get_Ok in Hx as (_ & _ & _ & _ & _ & _ & -> & _). done.
  - left. done.
  - right. done.
Qed.

Lemma accept_remaining k g s b s' :
  accept k g s = Ok b s' -> (remaining s' <= remaining s)%nat.
Proof.
  intros [(_ & _ & H) | (_ & _ & ->)]%accept_Ok; [|done].
  destruct g; [|by subst]. by apply ts_get_remaining in H as [H _].
Qed.

Lemma accept_consumes k s s' :
  accept k true s = Ok true s' -> k <> Token.eos -> (remaining s' < remaining s)%nat.
Proof.
  intros [(_ & Hk & H) | (? & _)]%accept_Ok Hne; [|done].
  apply ts_get_remaining in H as [_ H]. apply H. congruence.
Qed.

Lemma accept_peek k s s' :
  accept k false s = Ok true s' -> s' = s /\ Token.kind (ct s) = k.
Proof. intros [(_ & Hk & H) | (? & _)]%accept_Ok; done. Qed.

Lemma expect_remaining k g s b s' :
  expect k g s = Ok b s' -> (remaining s' <= remaining s)%nat.
Proof.
  unfold expect. intros H. minv.
  - by eapply accept_remaining.
  - apply accept_remaining in Hm. apply error_Ok in Hm1 as (_ & _ & _ & Hc & Hi & _).
    unfold remaining in *. rewrite Hc, Hi. done.
Qed.

Lemma orelse_peek k1 k2 s s' :
  orelse (accept k1 false) (accept k2 false) s = Ok true s' ->
  s' = s /\ (Token.kind (ct s) = k1 \/ Token.kind (ct s) = k2).
Proof.
  unfold orelse. intros H. minv.
  - apply accept_peek in Hm as [-> ?]. auto.
  - apply accept_Ok in Hm as [(? & _) | (_ & _ & ->)]; [done|].
    apply accept_peek in H as [-> ?]. auto.
Qed.

Lemma orelse_remaining (a b : M bool) s x s' :
  (forall s x s', a s = Ok x s' -> (remaining s' <= remaining s)%nat) ->
  (forall s x s', b s = Ok x s' -> (remaining s' <= remaining s)%nat) ->
  orelse a b s = Ok x s' -> (remaining s' <= remaining s)%nat.
Proof.
  unfold orelse. intros Ha Hb H. minv; [eauto | ].
  apply Ha in Hm. apply Hb in H. lia.
Qed.

Lemma orelse_consumes (a b : M bool) s s' :
  (forall s s', a s = Ok true s' -> (remaining s' < remaining s)%nat) ->
  (forall s s', a s = Ok false s' -> s' = s) ->
  (forall s s', b s = Ok true s' -> (remaining s' < remaining s)%nat) ->
  orelse a b s = Ok true s' -> (remaining s' < remaining s)%nat.
Proof.
  unfold orelse. intros Ha Ha' Hb H. minv; [eauto | ].
  apply Ha' in Hm as ->. eauto.
Qed.

(** ** Calls that cannot run out of fuel *)


Lemma runs_bind {A B} (m : M A) (f : A -> M B) :
  runs m -> (forall a, runs (f a)) -> runs (bind m f).
Proof.
  intros Hm Hf s. unfold bind. specialize (Hm s).
  destruct (m s); [apply Hf | done | done].
Qed.

Lemma runs_ret {A} (a : A) : runs (ret a).
Proof. done. Qed.

Create HintDb runs_db discriminated.

Ltac runs :=
  repeat first
    [ apply runs_ret
    | solve [auto 2 with nocore runs_db]
    | apply runs_bind; [ | intros ? ]
    | lazymatch goal with
      | |- runs (if ?c then _ else _) => destruct c
      | |- runs (match ?c with _ => _ end) => destruct c
      end
    | (intros ?; done) ].

Lemma runs_ts_get : runs ts_get.
Proof. intros s. unfold ts_get. by destruct (input s). Qed.

Lemma runs_next : runs next.
Proof. apply runs_ts_get. Qed.

Lemma runs_error d : runs (error d).
Proof. done. Qed.

Lemma runs_get : runs get.
Proof. done. Qed.

Lemma runs_current : runs current.
Proof. done. Qed.

Lemma runs_code_size : runs code_size.
Proof. done. Qed.

Lemma runs_abort {A} : runs (@abort A).
Proof. done. Qed.

#[local] Hint Resolve runs_ts_get runs_next runs_error runs_get runs_current runs_code_size
  runs_abort : runs_db.

Lemma runs_accept k g : runs (accept k g).
Proof. unfold accept. runs. Qed.

#[local] Hint Resolve runs_accept : runs_db.

Lemma runs_expect k g : runs (expect k g).
Proof. unfold expect. runs. Qed.

Lemma runs_orelse a b : runs a -> runs b -> runs (orelse a b).
Proof. intros. unfold orelse. runs. Qed.

Lemma runs_emit o l a : runs (emit o l a).
Proof. done. Qed.

Lemma runs_patch i a : runs (patch i a).
Proof. intros s. unfold patch. by destruct (code s !! i). Qed.

Lemma runs_lookup l nm : runs (lookup l nm).
Proof. done. Qed.

Lemma runs_insert nm v : runs (insert nm v).
Proof. done. Qed.

Lemma runs_deref r : runs (deref r).
Proof. intros s. unfold deref. by destruct (filter _ _). Qed.

Lemma runs_set_value r a : runs (set_value r a).
Proof. intros s. unfold set_value. by destruct (filter _ _). Qed.

Lemma runs_purge l : runs (purge l).
Proof. done. Qed.

#[local] Hint Resolve runs_expect runs_orelse runs_emit runs_patch runs_lookup runs_insert
  runs_deref runs_set_value runs_purge : runs_db.

Lemma runs_constDecl l : runs (constDecl l).
Proof. unfold constDecl. runs. Qed.

Lemma runs_varDecl o l : runs (varDecl o l).
Proof. unfold varDecl. runs. Qed.

Lemma runs_bind_formals args : forall l o, runs (bind_formals args l o).
Proof. induction args as [|x rest IH]; intros l o; simpl; runs. Qed.

Lemma runs_redefined range nm : runs (redefined range nm).
Proof. induction range as [|x rest IH]; simpl; runs. Qed.

#[local] Hint Resolve runs_constDecl runs_varDecl runs_bind_formals runs_redefined : runs_db.


(** ** Enough fuel: the compiler returns *)

Lemma bind_fuel {A B} (m : M A) (f : A -> M B) s :
  m s <> OutOfFuel -> (forall a s1, m s = Ok a s1 -> f a s1 <> OutOfFuel) ->
  bind m f s <> OutOfFuel.
Proof. unfold bind. intros Hm Hf. destruct (m s); [by apply Hf | done | done]. Qed.


Lemma same_ts_remaining s s' :
  ct s' = ct s -> input s' = input s -> remaining s' = remaining s.
Proof. unfold remaining. by intros -> ->. Qed.

Lemma error_remaining d s u s' : error d s = Ok u s' -> remaining s' = remaining s.
Proof. intros (_ & _ & _ & ? & ? & _)%error_Ok. by apply same_ts_remaining. Qed.

Lemma emit_remaining o l a s n s' : emit o l a s = Ok n s' -> remaining s' = remaining s.
Proof. intros (_ & _ & _ & ? & ? & _)%emit_Ok'. by apply same_ts_remaining. Qed.

Lemma patch_remaining i a s u s' : patch i a s = Ok u s' -> remaining s' = remaining s.
Proof. intros (_ & _ & _ & ? & ? & _)%patch_Ok. by apply same_ts_remaining. Qed.

Lemma lookup_remaining l nm s c s' : lookup l nm s = Ok c s' -> remaining s' = remaining s.
Proof. intros (_ & _ & _ & _ & ? & ? & _)%lookup_Ok. by apply same_ts_remaining. Qed.

Lemma insert_remaining nm v s n s' : insert nm v s = Ok n s' -> remaining s' = remaining s.
Proof. intros (_ & _ & _ & _ & ? & ? & _)%insert_Ok. by apply same_ts_remaining. Qed.

Lemma set_value_remaining r a s u s' : set_value r a s = Ok u s' -> remaining s' = remaining s.
Proof. intros (_ & _ & _ & ? & ? & _)%set_value_Ok. by apply same_ts_remaining. Qed.

Lemma purge_remaining l s u s' : purge l s = Ok u s' -> remaining s' = remaining s.
Proof. intros (_ & _ & _ & ? & ? & _)%purge_Ok. by apply same_ts_remaining. Qed.

(** What a peek at the current token tells. *)
Ltac peek :=
  repeat match goal with
  | H : decide _ = _ |- _ => clear H
  | H : accept _ false _ = Ok true _ |- _ => apply accept_peek in H as [-> ?]
  | H : accept _ false _ = Ok false _ |- _ =>
      apply accept_Ok in H as [(? & _) | (_ & ? & ->)]; [discriminate|]
  | H : orelse (accept _ false) (accept _ false) _ = Ok true _ |- _ =>
      apply orelse_peek in H as [-> ?]
  end.


Lemma keeps_tokens_accept k g : keeps_tokens (accept k g).
Proof. intros s x s'. apply accept_remaining. Qed.

Lemma keeps_tokens_orelse a b :
  keeps_tokens a -> keeps_tokens b -> keeps_tokens (orelse a b).
Proof. intros Ha Hb s x s'. by apply orelse_remaining. Qed.

(** What the steps of a run did to the number of tokens left. *)
Ltac tokens_prim H :=
  first
    [ apply ts_get_remaining in H as [? ?]
    | apply error_remaining in H
    | apply emit_remaining in H
    | apply patch_remaining in H
    | apply lookup_remaining in H
    | apply insert_remaining in H
    | apply set_value_remaining in H
    | apply purge_remaining in H
    | apply exec_remaining in H
    | apply expect_remaining in H
    | lazymatch type of H with
      | accept ?k true ?s = Ok true ?s' =>
          let Hc := fresh in
          assert (Hc : (remaining s' < remaining s)%nat)
            by (apply (accept_consumes k s s' H); discriminate);
          clear H
      | accept _ _ _ = Ok _ _ => apply accept_remaining in H
      | orelse ?a ?b _ = Ok _ _ =>
          let Hk := fresh in
          assert (Hk : keeps_tokens (orelse a b))
            by (repeat first [apply keeps_tokens_orelse | apply keeps_tokens_accept]);
          apply Hk in H; clear Hk
      end ].

Ltac tokens0 :=
  repeat match goal with
  | H : _ _ = Ok _ _ |- _ => tokens_prim H
  end.

Lemma constDecl_remaining l s u s' :
  constDecl l s = Ok u s' -> (remaining s' <= remaining s)%nat.
Proof. unfold constDecl, next. intros H. minv; tokens0; lia. Qed.

Lemma varDecl_remaining o l s x s' :
  varDecl o l s = Ok x s' -> (remaining s' <= remaining s)%nat.
Proof. unfold varDecl. intros H. minv; tokens0; lia. Qed.

Lemma bind_formals_remaining args : forall l o s u s',
  bind_formals args l o s = Ok u s' -> remaining s' = remaining s.
Proof.
  induction args as [|x rest IH]; intros l o s u s' H; simpl in H; minv; [done|].
  apply IH in H. tokens0. lia.
Qed.

Lemma redefined_remaining range : forall nm s u s',
  redefined range nm s = Ok u s' -> remaining s' = remaining s.
Proof.
  induction range as [|x rest IH]; intros nm s u s' H; simpl in H; minv; [done|].
  apply IH in H. tokens0. lia.
Qed.

Lemma constDecls_remaining n : forall l s u s',
  constDecls n l s = Ok u s' -> (remaining s' <= remaining s)%nat.
Proof.
  induction n as [|n IH]; intros l s u s' H; [discriminate H|].
  simpl in H. minv.
  - apply IH in H. apply constDecl_remaining in Hm. tokens0. lia.
  - apply constDecl_remaining in Hm. tokens0. lia.
Qed.

Lemma varDecls_remaining n : forall o l s x s',
  varDecls n o l s = Ok x s' -> (remaining s' <= remaining s)%nat.
Proof.
  induction n as [|n IH]; intros o l s x s' H; [discriminate H|].
  simpl in H. minv.
  - apply IH in H. apply varDecl_remaining in Hm. tokens0. lia.
  - apply varDecl_remaining in Hm. tokens0. lia.
Qed.

Lemma formals_remaining n : forall args s x s',
  formals n args s = Ok x s' -> (remaining s' <= remaining s)%nat.
Proof.
  induction n as [|n IH]; intros args s x s' H; [discriminate H|].
  simpl in H. minv.
  - apply IH in H. tokens0. lia.
  - tokens0. lia.
Qed.

Ltac consumed :=
  repeat match goal with
  | H : Token.kind (ct _) <> Token.eos -> _ |- _ =>
      first [ specialize (H ltac:(first [assumption | congruence | intuition congruence]))
            | clear H ]
  end.

Ltac tokens :=
  repeat match goal with
  | H : constDecl _ _ = Ok _ _ |- _ => apply constDecl_remaining in H
  | H : varDecl _ _ _ = Ok _ _ |- _ => apply varDecl_remaining in H
  | H : constDecls _ _ _ = Ok _ _ |- _ => apply constDecls_remaining in H
  | H : varDecls _ _ _ _ = Ok _ _ |- _ => apply varDecls_remaining in H
  | H : formals _ _ _ = Ok _ _ |- _ => apply formals_remaining in H
  | H : bind_formals _ _ _ _ = Ok _ _ |- _ => apply bind_formals_remaining in H
  | H : redefined _ _ _ = Ok _ _ |- _ => apply redefined_remaining in H
  | H : _ _ = Ok _ _ |- _ => tokens_prim H
  end; consumed.

(** The loops over declarations take one token a turn. *)
Lemma constDecls_fuel n : forall l s,
  (remaining s < n)%nat -> constDecls n l s <> OutOfFuel.
Proof.
  induction n as [|n IH]; intros l s Hn; [lia|]. simpl.
  apply bind_fuel; [apply runs_constDecl|]. intros u s1 H1.
  apply bind_fuel; [apply runs_accept|]. intros b s2 H2.
  destruct b; [|done]. apply IH. tokens. lia.
Qed.

Lemma varDecls_fuel n : forall o l s,
  (remaining s < n)%nat -> varDecls n o l s <> OutOfFuel.
Proof.
  induction n as [|n IH]; intros o l s Hn; [lia|]. simpl.
  apply bind_fuel; [apply runs_varDecl|]. intros u s1 H1.
  apply bind_fuel; [apply runs_accept|]. intros b s2 H2.
  destruct b; [|done]. apply IH. tokens. lia.
Qed.

Lemma formals_fuel n : forall args s,
  (remaining s < n)%nat -> formals n args s <> OutOfFuel.
Proof.
  induction n as [|n IH]; intros args s Hn; [lia|]. simpl.
  apply bind_fuel; [apply runs_get|]. intros u s1 H1. minv.
  apply bind_fuel; [apply runs_accept|]. intros b1 s2 H2.
  apply bind_fuel; [apply runs_accept|]. intros b s3 H3.
  destruct b; [|done]. apply IH. tokens. lia.
Qed.


(** [subDecl] consumes the keyword it is called on. *)
Lemma subDecl_consumes n l s s' :
  exec n (SubDecl l) s = Ok tt s' -> Token.kind (ct s) <> Token.eos ->
  (remaining s' < remaining s)%nat.
Proof.
  intros H Hk. destruct n as [|n]; [discriminate H|].
  rewrite exec_S in H. unfold_body H. unfold next in H. minv; tokens; lia.
Qed.

Ltac declared :=
  repeat match goal with
  | H : exec _ (SubDecl _) ?s = Ok _ ?s' |- _ =>
      let Hc := fresh in
      assert (Hc : (remaining s' < remaining s)%nat)
        by (eapply subDecl_consumes; [exact H | first [congruence | intuition congruence]]);
      clear H
  end.

(** One step of a run, with what it leaves to show. *)
Ltac fuel_step IH :=
  lazymatch goal with
  | |- ret _ _ <> OutOfFuel => discriminate
  | |- abort _ <> OutOfFuel => discriminate
  | |- bind _ _ _ <> OutOfFuel =>
      apply bind_fuel;
      [ | let a := fresh "a" in let s := fresh "s" in let H := fresh "Hs" in
          intros a s H; cbv beta ]
  | |- (if ?c then _ else _) _ <> OutOfFuel => destruct c eqn:?
  | |- (match ?c with _ => _ end) _ <> OutOfFuel => destruct c eqn:?
  | |- exec _ _ _ <> OutOfFuel => apply IH
  | |- constDecls _ _ _ <> OutOfFuel => apply constDecls_fuel
  | |- varDecls _ _ _ _ <> OutOfFuel => apply varDecls_fuel
  | |- formals _ _ _ <> OutOfFuel => apply formals_fuel
  | |- ?m ?s <> OutOfFuel =>
      let Hr := fresh in
      assert (Hr : runs m) by (solve [auto 10 with nocore runs_db]); apply Hr
  end.

Theorem exec_terminates fuel : forall p s,
  started p s -> (budget p s <= fuel)%nat -> exec fuel p s <> OutOfFuel.
Proof.
  induction fuel as [|n IH]; intros p s Hst Hn; [unfold budget in Hn; lia|].
  rewrite exec_S. unfold budget in *.
  destruct p; simpl in Hst; cbn [rank] in Hn;
    cbv beta iota delta
      [body identifier_ factor_ factors_ terminal_ terms_ expression_ arguments_
       condition_ assignStmt_ callStmt_ identStmt_ whileStmt_ ifStmt_ repeatStmt_
       statement_ statements_ subDecl_ subDecls_ block_];
    unfold next;
    repeat fuel_step IH.
  all: try (simpl; exact I).
  all: minv; peek.
  all: try (simpl; congruence).
  all: try (simpl; intuition congruence).
  all: cbn [rank]; declared; tokens; lia.
Qed.

(** ** The expression grammar has no [assert] to fail *)


Lemma safe_bind {A B} (m : M A) (f : A -> M B) :
  safe m -> (forall a, safe (f a)) -> safe (bind m f).
Proof.
  intros Hm Hf s. unfold bind. specialize (Hm s).
  destruct (m s); [apply Hf | done | done].
Qed.

Lemma safe_ret {A} (a : A) : safe (ret a).
Proof. done. Qed.

Lemma safe_ts_get : safe ts_get.
Proof. intros s. unfold ts_get. by destruct (input s). Qed.

Lemma safe_next : safe next.
Proof. apply safe_ts_get. Qed.

Lemma safe_error d : safe (error d).
Proof. done. Qed.

Lemma safe_get : safe get.
Proof. done. Qed.

Lemma safe_current : safe current.
Proof. done. Qed.

Lemma safe_emit o l a : safe (emit o l a).
Proof. done. Qed.

Lemma safe_lookup l nm : safe (lookup l nm).
Proof. done. Qed.

Create HintDb safe_db discriminated.
#[local] Hint Resolve safe_ts_get safe_next safe_error safe_get safe_current safe_emit
  safe_lookup : safe_db.

Ltac safe :=
  repeat first
    [ apply safe_ret
    | solve [auto 2 with nocore safe_db]
    | apply safe_bind; [ | intros ? ]
    | lazymatch goal with
      | |- safe (if ?c then _ else _) => destruct c
      | |- safe (match ?c with _ => _ end) => destruct c
      | H : forall q, in_expression q = true -> safe (_ q) |- safe (_ ?p) =>
          apply H; reflexivity
      end ].

Lemma safe_accept k g : safe (accept k g).
Proof. unfold accept. safe. Qed.

#[local] Hint Resolve safe_accept : safe_db.

Lemma safe_expect k g : safe (expect k g).
Proof. unfold expect. safe. Qed.

#[local] Hint Resolve safe_expect : safe_db.

Lemma expression_safe fuel : forall p, in_expression p = true -> safe (exec fuel p).
Proof.
  induction fuel as [|n IH]; intros p Hp; [done|].
  rewrite exec_S.
  destruct p; try discriminate Hp;
    cbv beta iota zeta delta
      [body identifier_ factor_ factors_ terminal_ terms_ expression_ arguments_];
    safe.
Qed.

(** With enough fuel, a member function of the expression grammar
    returns. *)
Theorem expression_returns fuel p s :
  in_expression p = true -> started p s -> (budget p s <= fuel)%nat ->
  exists s', exec fuel p s = Ok tt s'.
Proof.
  intros Hp Hst Hn.
  pose proof (exec_terminates fuel p s Hst Hn) as Ht.
  pose proof (expression_safe fuel p Hp s) as Hs.
  destruct (exec fuel p s) as [[] s'| |]; [eauto | done | done].
Qed.


(** ** The symbol table and the searches *)

(** Statements and expressions leave the table as it is, and search it
    at their own level. *)
Lemma stmt_frame fuel p s s' :
  declares p = false -> exec fuel p s = Ok tt s' -> searches (lvl_of p) s s'.
Proof.
  apply (stmt_keeps searches); unfold searches.
  - intros L s0. repeat split; try done. exists []. by rewrite app_nil_r.
  - intros L s1 s2 s3 (T1 & S1 & n1 & L1 & F1) (T2 & S2 & n2 & L2 & F2).
    repeat split; try congruence. exists (n1 ++ n2).
    split; [by rewrite L2, L1, app_assoc|].
    apply Forall_app. split; [done|].
    rewrite T1 in F2. done.
  - intros L s0 t s1 (_ & -> & -> & _ & _ & -> & _)%ts_get_Ok.
    repeat split; try done. exists []. by rewrite app_nil_r.
  - intros L d s0 u s1 (_ & -> & -> & _ & _ & -> & _)%error_Ok.
    repeat split; try done. exists []. by rewrite app_nil_r.
  - intros L o l a s0 n s1 _ (_ & -> & -> & _ & _ & -> & _)%emit_Ok'.
    repeat split; try done. exists []. by rewrite app_nil_r.
  - intros L s0 s1 i a u s2 H _ _ (_ & -> & -> & _ & _ & -> & _)%patch_Ok. done.
  - intros L nm s0 c s1 (-> & _ & -> & -> & _ & _ & _ & _ & ->)%lookup_Ok.
    repeat split; try done. eexists. split; [done|]. by repeat constructor.
Qed.

Lemma closest_spec range e :
  closest range = Some e ->
  e ∈ range /\
  forall e', e' ∈ range -> SymValue.level (val e') <= SymValue.level (val e).
Proof.
  unfold closest. destruct range as [|first rest]; [discriminate|].
  intros [= <-].
  set (f := fun c it : Node =>
              if decide (SymValue.level (val it) > SymValue.level (val c)) then it else c).
  assert (G : forall l c,
             (fold_left f l c = c \/ fold_left f l c ∈ l) /\
             SymValue.level (val c) <= SymValue.level (val (fold_left f l c)) /\
             forall e', e' ∈ l ->
                        SymValue.level (val e') <= SymValue.level (val (fold_left f l c))).
  { induction l as [|x l IH]; intros c; simpl.
    - split; [by left|]. split; [lia|]. intros e' He'. by apply elem_of_nil in He'.
    - destruct (IH (f c x)) as (Hin & Hge & Hmax).
      assert (Hf : (f c x = c \/ f c x = x) /\
                   SymValue.level (val c) <= SymValue.level (val (f c x)) /\
                   SymValue.level (val x) <= SymValue.level (val (f c x))).
      { unfold f. case_decide; split; auto; lia. }
      destruct Hf as (Hcx & Hc & Hx).
      split; [|split; [lia|]].
      + destruct Hin as [-> | Hin].
        * destruct Hcx as [-> | ->]; [by left | right; by left].
        * right. by right.
      + intros e' [-> | He']%elem_of_cons; [lia | auto]. }
  destruct (G (first :: rest) first) as (Hin & _ & Hmax).
  change (fold_left f (first :: rest) first ∈ first :: rest /\
          forall e', e' ∈ first :: rest ->
                     SymValue.level (val e') <=
                     SymValue.level (val (fold_left f (first :: rest) first))).
  split; [|done].
  destruct Hin as [Heq | Hin]; [rewrite Heq; by left | done].
Qed.

Lemma closest_None range : closest range = None <-> range = [].
Proof. unfold closest. by destruct range. Qed.

Lemma bounded_weaken L L' tbl : L <= L' -> bounded L tbl -> bounded L' tbl.
Proof.
  unfold bounded. intros HL Hb. eapply Forall_impl; [exact Hb|]. intros n Hn. simpl in *. lia.
Qed.

Lemma scoped_same L s s' :
  symtbl s' = symtbl s -> lookups s' = lookups s -> scoped L s -> scoped L s'.
Proof. unfold scoped. by intros -> ->. Qed.

Lemma searches_scoped L s s' : searches L s s' -> scoped L s -> scoped L s'.
Proof.
  intros (T & _ & new & Hl & Hnew) [Hb Hlk]. unfold scoped. rewrite T, Hl.
  split; [done|]. apply Forall_app. split; [done|].
  eapply Forall_impl; [exact Hnew|]. intros l (Hat & Htab & Hch). unfold lookup_ok.
  split; [done | by rewrite Hat, Htab].
Qed.

Lemma insert_scoped L nm v s n s' :
  insert nm v s = Ok n s' -> SymValue.level v <= L -> scoped L s -> scoped L s'.
Proof.
  intros (_ & T & _ & _ & _ & _ & Hl & _)%insert_Ok Hv [Hb Hlk]. unfold scoped.
  rewrite T, Hl. split; [|done]. apply Forall_app. split; [done|]. by repeat constructor.
Qed.

Lemma set_value_scoped L r a s u s' :
  set_value r a s = Ok u s' -> scoped L s -> scoped L s'.
Proof.
  intros (T & _ & _ & _ & _ & Hl & _)%set_value_Ok [Hb Hlk]. unfold scoped.
  rewrite T, Hl. split; [|done]. unfold bounded in *.
  apply Forall_fmap. eapply Forall_impl; [exact Hb|]. intros n Hn. simpl.
  by case_decide.
Qed.

Lemma purge_scoped L s u s' :
  purge L s = Ok u s' -> scoped L s -> scoped (L - 1) s'.
Proof.
  intros (T & _ & _ & _ & _ & Hl & _)%purge_Ok [Hb Hlk]. unfold scoped.
  rewrite T, Hl. split; [|done]. unfold bounded in *.
  apply Forall_forall. intros n [Hn Hin]%list_elem_of_filter.
  rewrite Forall_forall in Hb. specialize (Hb n Hin). lia.
Qed.

Lemma accept_same k g s b s' :
  accept k g s = Ok b s' -> symtbl s' = symtbl s /\ lookups s' = lookups s.
Proof.
  intros [(_ & _ & H) | (_ & _ & ->)]%accept_Ok; [|done].
  destruct g; [|by subst]. by apply ts_get_Ok in H as (_ & -> & _ & _ & _ & -> & _).
Qed.

Lemma expect_same k g s b s' :
  expect k g s = Ok b s' -> symtbl s' = symtbl s /\ lookups s' = lookups s.
Proof.
  unfold expect. intros H. minv.
  - by eapply accept_same.
  - apply accept_same in Hm as [? ?].
    apply error_Ok in Hm1 as (_ & -> & _ & _ & _ & -> & _). done.
Qed.

Lemma orelse_peek_same k1 k2 s b s' :
  orelse (accept k1 false) (accept k2 false) s = Ok b s' -> s' = s.
Proof.
  unfold orelse. intros H. minv.
  - by apply accept_Ok in Hm as [(_ & _ & ->) | (_ & _ & ->)].
  - apply accept_Ok in Hm as [(_ & _ & ->) | (_ & _ & ->)];
      by apply accept_Ok in H as [(_ & _ & ->) | (_ & _ & ->)].
Qed.

(** Carrying [scoped] along the steps of a run. *)
Ltac scope_step :=
  match goal with
  | Hi : scoped ?L ?s, H : ts_get ?s = Ok _ ?s' |- _ =>
      let Hn := fresh "Hsc" in
      assert (Hn : scoped L s')
        by (apply ts_get_Ok in H as (_ & ? & _ & _ & _ & ? & _); by apply (scoped_same L s));
      clear H Hi
  | Hi : scoped ?L ?s, H : error _ ?s = Ok _ ?s' |- _ =>
      let Hn := fresh "Hsc" in
      assert (Hn : scoped L s')
        by (apply error_Ok in H as (_ & ? & _ & _ & _ & ? & _); by apply (scoped_same L s));
      clear H Hi
  | Hi : scoped ?L ?s, H : emit _ _ _ ?s = Ok _ ?s' |- _ =>
      let Hn := fresh "Hsc" in
      assert (Hn : scoped L s')
        by (apply emit_Ok' in H as (_ & ? & _ & _ & _ & ? & _); by apply (scoped_same L s));
      clear H Hi
  | Hi : scoped ?L ?s, H : patch _ _ ?s = Ok _ ?s' |- _ =>
      let Hn := fresh "Hsc" in
      assert (Hn : scoped L s')
        by (apply patch_Ok in H as (_ & ? & _ & _ & _ & ? & _); by apply (scoped_same L s));
      clear H Hi
  | Hi : scoped ?L ?s, H : accept _ _ ?s = Ok _ ?s' |- _ =>
      let Hn := fresh "Hsc" in
      assert (Hn : scoped L s')
        by (apply accept_same in H as [? ?]; by apply (scoped_same L s));
      clear H Hi
  | Hi : scoped ?L ?s, H : expect _ _ ?s = Ok _ ?s' |- _ =>
      let Hn := fresh "Hsc" in
      assert (Hn : scoped L s')
        by (apply expect_same in H as [? ?]; by apply (scoped_same L s));
      clear H Hi
  | Hi : scoped ?L ?s, H : insert _ _ ?s = Ok _ ?s' |- _ =>
      let Hn := fresh "Hsc" in
      assert (Hn : scoped L s')
        by (apply (insert_scoped L _ _ s _ s' H); [simpl; lia | exact Hi]);
      clear H Hi
  | Hi : scoped ?L ?s, H : set_value _ _ ?s = Ok _ ?s' |- _ =>
      let Hn := fresh "Hsc" in
      assert (Hn : scoped L s') by (by apply (set_value_scoped L _ _ s _ s' H));
      clear H Hi
  end.

Lemma constDecl_scoped L s u s' : constDecl L s = Ok u s' -> scoped L s -> scoped L s'.
Proof. unfold constDecl, next. intros H Hi. minv; repeat scope_step; done. Qed.

Lemma varDecl_scoped L o s x s' : varDecl o L s = Ok x s' -> scoped L s -> scoped L s'.
Proof. unfold varDecl. intros H Hi. minv; repeat scope_step; done. Qed.

Lemma constDecls_scoped L n : forall s u s',
  constDecls n L s = Ok u s' -> scoped L s -> scoped L s'.
Proof.
  induction n as [|n IH]; intros s u s' H Hi; [discriminate H|].
  simpl in H. minv.
  - apply constDecl_scoped in Hm; [|done]. repeat scope_step. eauto.
  - apply constDecl_scoped in Hm; [|done]. repeat scope_step. done.
Qed.

Lemma varDecls_scoped L n : forall o s x s',
  varDecls n o L s = Ok x s' -> scoped L s -> scoped L s'.
Proof.
  induction n as [|n IH]; intros o s x s' H Hi; [discriminate H|].
  simpl in H. minv.
  - apply varDecl_scoped in Hm; [|done]. repeat scope_step. eauto.
  - apply varDecl_scoped in Hm; [|done]. repeat scope_step. done.
Qed.

Lemma formals_scoped L n : forall args s x s',
  formals n args s = Ok x s' -> scoped L s -> scoped L s'.
Proof.
  induction n as [|n IH]; intros args s x s' H Hi; [discriminate H|].
  simpl in H. minv; repeat scope_step; eauto.
Qed.

Lemma bind_formals_scoped L args : forall o s u s',
  bind_formals args L o s = Ok u s' -> scoped L s -> scoped L s'.
Proof.
  induction args as [|x rest IH]; intros o s u s' H Hi; simpl in H; minv; [done|].
  repeat scope_step. eauto.
Qed.

Lemma redefined_scoped L range : forall nm s u s',
  redefined range nm s = Ok u s' -> scoped L s -> scoped L s'.
Proof.
  induction range as [|x rest IH]; intros nm s u s' H Hi; simpl in H; minv; [done|].
  repeat scope_step. eauto.
Qed.

Lemma scoped_weaken L L' s : L <= L' -> scoped L s -> scoped L' s.
Proof. intros HL [Hb Hlk]. split; [by eapply bounded_weaken | done]. Qed.

(** At every moment the table holds entries of the current level and of
    the enclosing ones only; a block leaves none of its own. *)
Theorem exec_scoped fuel : forall p s s',
  exec fuel p s = Ok tt s' -> scoped (lvl_of p) s -> scoped (level_after p) s'.
Proof.
  induction fuel as [|n IH]; intros p s s' H Hi; [discriminate H|].
  destruct (declares p) eqn:Hp.
  - rewrite exec_S in H.
    destruct p; try discriminate Hp; simpl in Hi |- *; unfold_body H; unfold next in *; minv;
      peek.
    all: repeat match goal with
      | H : orelse (accept _ false) (accept _ false) _ = Ok _ _ |- _ =>
          apply orelse_peek_same in H as ->
      end.
    all: repeat first
      [ scope_step
      | match goal with
        | Hi : scoped ?L ?s, H : constDecls _ ?L ?s = Ok _ ?s' |- _ =>
            apply (constDecls_scoped L) in H; [clear Hi | exact Hi]
        | Hi : scoped ?L ?s, H : varDecls _ _ ?L ?s = Ok _ ?s' |- _ =>
            apply (varDecls_scoped L) in H; [clear Hi | exact Hi]
        | Hi : scoped ?L ?s, H : formals _ _ ?s = Ok _ ?s' |- _ =>
            apply (formals_scoped L) in H; [clear Hi | exact Hi]
        | Hi : scoped ?L ?s, H : redefined _ _ ?s = Ok _ ?s' |- _ =>
            apply (redefined_scoped L) in H; [clear Hi | exact Hi]
        | Hi : scoped ?L ?s, H : bind_formals _ (?L + 1) _ ?s = Ok _ ?s' |- _ =>
            apply (bind_formals_scoped (L + 1)) in H;
            [clear Hi | apply (scoped_weaken L); [lia | exact Hi]]
        | Hi : scoped ?L ?s, H : exec _ (Block _ (?L + 1) _) ?s = Ok _ ?s' |- _ =>
            apply IH in H; [clear Hi | apply (scoped_weaken L); [simpl; lia | exact Hi]];
            simpl in H; replace (L + 1 - 1) with L in H by lia
        | Hi : scoped (?L + 1) ?s, H : exec _ (Block _ (?L + 1) _) ?s = Ok _ ?s' |- _ =>
            apply IH in H; [clear Hi | exact Hi];
            simpl in H; replace (L + 1 - 1) with L in H by lia
        | Hi : scoped ?L ?s, H : exec _ _ ?s = Ok _ ?s' |- _ =>
            apply IH in H; [clear Hi | exact Hi]; simpl in H
        | Hi : scoped ?L ?s, H : purge ?L ?s = Ok _ ?s' |- _ =>
            apply (purge_scoped L) in H; [clear Hi | exact Hi]
        end ].
    all: done.
  - replace (level_after p) with (lvl_of p) by (by destruct p).
    eapply searches_scoped; [|exact Hi]. by apply (stmt_frame (S n)).
Qed.


(** ** Lookup and purge of the symbol table *)

Lemma lookup_ok_innermost l : lookup_ok l -> innermost l.
Proof.
  intros [Hc Hb]. unfold innermost. destruct (chosen l) as [e|] eqn:E.
  - symmetry in Hc. apply closest_spec in Hc as [Hin Hmax].
    split; [done|]. split; [done|].
    apply list_elem_of_filter in Hin as [_ Hin].
    unfold bounded in Hb. rewrite Forall_forall in Hb. by apply Hb.
  - symmetry in Hc. by apply closest_None in Hc.
Qed.

Lemma new_scoped : scoped 0 new.
Proof. split; unfold bounded; simpl; repeat constructor; simpl; lia. Qed.

Lemma block_purges fuel r L nargs s s' :
  block fuel r L nargs s = Ok tt s' ->
  Forall (fun n => SymValue.level (val n) <> L) (symtbl s').
Proof.
  unfold block. intros H. destruct fuel as [|n]; [discriminate H|].
  rewrite exec_S in H. unfold_body H.
  minv; apply purge_Ok in H as (-> & _);
    apply Forall_forall; by intros x [? _]%list_elem_of_filter.
Qed.



(** ** Steps that leave the code alone *)

Lemma ts_get_returns s : exists t s', ts_get s = Ok t s'.
Proof. unfold ts_get. destruct (input s); eauto. Qed.

(** One call unfolded, in the goal. *)
Ltac enter_body :=
  rewrite exec_S;
  cbv beta iota zeta delta
    [body identifier_ factor_ factors_ terminal_ terms_ expression_ arguments_
     condition_ assignStmt_ callStmt_ identStmt_ whileStmt_ ifStmt_ repeatStmt_
     statement_ statements_ subDecl_ subDecls_ block_].

Lemma accept_code k g s b s' : accept k g s = Ok b s' -> code s' = code s.
Proof.
  intros [(_ & _ & H) | (_ & _ & ->)]%accept_Ok; [|done].
  destruct g; [|by subst]. by apply ts_get_Ok in H as (-> & _).
Qed.

Lemma expect_code k g s b s' : expect k g s = Ok b s' -> code s' = code s.
Proof.
  unfold expect. intros H. minv.
  - by eapply accept_code.
  - apply accept_code in Hm. apply error_Ok in Hm1 as (-> & _). done.
Qed.

(** Lists of instructions, compared with their concatenations
    flattened. *)
Ltac flat := repeat (rewrite <- app_assoc; simpl); try reflexivity.

(** The bodies unfolded, in the goal. *)
Ltac unfold_body_goal :=
  cbv beta iota zeta delta
    [body identifier_ factor_ factors_ terminal_ terms_ expression_ arguments_
     condition_ assignStmt_ callStmt_ identStmt_ whileStmt_ ifStmt_ repeatStmt_
     statement_ statements_ subDecl_ subDecls_ block_].

(** Writing the address of a jump emitted earlier. *)
Lemma patch_middle pre o l a0 post i a s u s' :
  code s = pre ++ mkInstr o l a0 :: post ->
  i = length pre ->
  patch i a s = Ok u s' ->
  code s' = pre ++ mkInstr o l a :: post.
Proof.
  intros Hc -> ((ins & Hi & Hp) & _)%patch_Ok.
  rewrite Hc in Hi, Hp. rewrite list_lookup_middle in Hi by done. injection Hi as <-.
  rewrite insert_app_r_alt, Nat.sub_diag in Hp by done. done.
Qed.

Lemma safe_insert nm v : safe (insert nm v).
Proof. done. Qed.

#[local] Hint Resolve safe_insert : safe_db.

Lemma safe_constDecl L : safe (constDecl L).
Proof. unfold constDecl. safe. Qed.

Lemma safe_varDecl o L : safe (varDecl o L).
Proof. unfold varDecl. safe. Qed.

(** The six relational operators are accepted, and no other token. *)
Lemma relational_accept s :
  let chain := orelse (accept Token.lte true)
                 (orelse (accept Token.lt true)
                    (orelse (accept Token.equ true)
                       (orelse (accept Token.gt true)
                          (orelse (accept Token.gte true) (accept Token.neq true))))) in
  match relation (Token.kind (ct s)) with
  | None => chain s = Ok false s
  | Some _ => exists t s', ts_get s = Ok t s' /\ chain s = Ok true s'
  end.
Proof.
  destruct (ts_get_returns s) as (t & s' & Hg).
  unfold orelse, accept, current, next, ret, bind.
  destruct (Token.kind (ct s)) eqn:E; cbn [relation];
    repeat (cbv beta iota; rewrite ?E;
            first [rewrite decide_True by reflexivity
                  | rewrite decide_False by discriminate]);
    cbv beta iota;
    first [reflexivity | exists t, s'; rewrite Hg; done].
Qed.


(** ** What a run does to the symbol table *)

Lemma grows_weaken Li Lp Li' Lp' t t' :
  Li' <= Li -> Lp' <= Lp -> grows Li Lp t t' -> grows Li' Lp' t t'.
Proof.
  intros Hi Hp H. induction H.
  - apply grows_refl.
  - apply grows_insert. lia.
  - apply grows_value.
  - apply grows_purge. lia.
  - by eapply grows_trans.
Qed.

Lemma grows_same Li Lp t s s' :
  symtbl s' = symtbl s -> grows Li Lp t (symtbl s) -> grows Li Lp t (symtbl s').
Proof. by intros ->. Qed.

(** Carrying [grows] along the steps of a run. *)
Ltac grow_step :=
  match goal with
  | Hi : grows ?a ?b ?t (symtbl ?s), H : ts_get ?s = Ok _ ?s' |- _ =>
      apply ts_get_Ok in H as (_ & H & _);
      apply (grows_same a b t s s' H) in Hi; clear H
  | Hi : grows ?a ?b ?t (symtbl ?s), H : error _ ?s = Ok _ ?s' |- _ =>
      apply error_Ok in H as (_ & H & _);
      apply (grows_same a b t s s' H) in Hi; clear H
  | Hi : grows ?a ?b ?t (symtbl ?s), H : emit _ _ _ ?s = Ok _ ?s' |- _ =>
      apply emit_Ok' in H as (_ & H & _);
      apply (grows_same a b t s s' H) in Hi; clear H
  | Hi : grows ?a ?b ?t (symtbl ?s), H : patch _ _ ?s = Ok _ ?s' |- _ =>
      apply patch_Ok in H as (_ & H & _);
      apply (grows_same a b t s s' H) in Hi; clear H
  | Hi : grows ?a ?b ?t (symtbl ?s), H : accept _ _ ?s = Ok _ ?s' |- _ =>
      apply accept_same in H as [H _];
      apply (grows_same a b t s s' H) in Hi; clear H
  | Hi : grows ?a ?b ?t (symtbl ?s), H : expect _ _ ?s = Ok _ ?s' |- _ =>
      apply expect_same in H as [H _];
      apply (grows_same a b t s s' H) in Hi; clear H
  | Hi : grows ?a ?b ?t (symtbl ?s), H : insert _ ?v ?s = Ok _ ?s' |- _ =>
      apply insert_Ok in H as (_ & H & _);
      assert (grows a b t (symtbl s'))
        by (rewrite H; eapply grows_trans; [exact Hi|]; apply grows_insert; simpl; lia);
      clear H Hi
  | Hi : grows ?a ?b ?t (symtbl ?s), H : set_value _ _ ?s = Ok _ ?s' |- _ =>
      apply set_value_Ok in H as (H & _);
      assert (grows a b t (symtbl s'))
        by (rewrite H; eapply grows_trans; [exact Hi|]; apply grows_value);
      clear H Hi
  | Hi : grows ?a ?b ?t (symtbl ?s), H : purge _ ?s = Ok _ ?s' |- _ =>
      apply purge_Ok in H as (H & _);
      assert (grows a b t (symtbl s'))
        by (rewrite H; eapply grows_trans; [exact Hi|]; apply grows_purge; lia);
      clear H Hi
  end.

Lemma constDecl_grows Lp L s u s' t :
  constDecl L s = Ok u s' -> grows L Lp t (symtbl s) -> grows L Lp t (symtbl s').
Proof. unfold constDecl, next. intros H Hi. minv; repeat grow_step; done. Qed.

Lemma varDecl_grows Lp L o s x s' t :
  varDecl o L s = Ok x s' -> grows L Lp t (symtbl s) -> grows L Lp t (symtbl s').
Proof. unfold varDecl. intros H Hi. minv; repeat grow_step; done. Qed.

Lemma constDecls_grows Lp L n t : forall s u s',
  constDecls n L s = Ok u s' -> grows L Lp t (symtbl s) -> grows L Lp t (symtbl s').
Proof.
  induction n as [|n IH]; intros s u s' H Hi; [discriminate H|].
  simpl in H. minv.
  - eapply constDecl_grows in Hm; [|exact Hi]. repeat grow_step. eauto.
  - eapply constDecl_grows in Hm; [|exact Hi]. repeat grow_step. done.
Qed.

Lemma varDecls_grows Lp L n t : forall o s x s',
  varDecls n o L s = Ok x s' -> grows L Lp t (symtbl s) -> grows L Lp t (symtbl s').
Proof.
  induction n as [|n IH]; intros o s x s' H Hi; [discriminate H|].
  simpl in H. minv.
  - eapply varDecl_grows in Hm; [|exact Hi]. repeat grow_step. eauto.
  - eapply varDecl_grows in Hm; [|exact Hi]. repeat grow_step. done.
Qed.

Lemma formals_grows Li Lp n t : forall args s x s',
  formals n args s = Ok x s' -> grows Li Lp t (symtbl s) -> grows Li Lp t (symtbl s').
Proof.
  induction n as [|n IH]; intros args s x s' H Hi; [discriminate H|].
  simpl in H. minv; repeat grow_step; eauto.
Qed.

Lemma bind_formals_grows Li Lp L args t : forall o s u s',
  Li <= L ->
  bind_formals args L o s = Ok u s' -> grows Li Lp t (symtbl s) -> grows Li Lp t (symtbl s').
Proof.
  induction args as [|x rest IH]; intros o s u s' HL H Hi; simpl in H; minv; [done|].
  repeat grow_step. eauto.
Qed.

Lemma redefined_grows Li Lp range t : forall nm s u s',
  redefined range nm s = Ok u s' -> grows Li Lp t (symtbl s) -> grows Li Lp t (symtbl s').
Proof.
  induction range as [|x rest IH]; intros nm s u s' H Hi; simpl in H; minv; [done|].
  repeat grow_step. eauto.
Qed.

(** The table changes by additions at the level of the member function or
    deeper, and erasures below it (of its own level, for a block). *)
Lemma exec_grows fuel : forall p s s',
  exec fuel p s = Ok tt s' ->
  grows (lvl_of p) (erases_from p) (symtbl s) (symtbl s').
Proof.
  induction fuel as [|n IH]; intros p s s' H; [discriminate H|].
  destruct (declares p) eqn:Hp.
  - pose proof (grows_refl (lvl_of p) (erases_from p) (symtbl s)) as Hi.
    rewrite exec_S in H.
    destruct p; try discriminate Hp; simpl in Hi |- *; unfold_body H; unfold next in *; minv;
      peek.
    all: repeat match goal with
      | H : orelse (accept _ false) (accept _ false) _ = Ok _ _ |- _ =>
          apply orelse_peek_same in H as ->
      end.
    all: repeat first
      [ grow_step
      | match goal with
        | Hi : grows ?a ?b ?t (symtbl ?s), H : constDecls _ _ ?s = Ok _ ?s' |- _ =>
            apply (constDecls_grows b _ _ t) in H; [clear Hi | exact Hi]
        | Hi : grows ?a ?b ?t (symtbl ?s), H : varDecls _ _ _ ?s = Ok _ ?s' |- _ =>
            apply (varDecls_grows b _ _ t) in H; [clear Hi | exact Hi]
        | Hi : grows ?a ?b ?t (symtbl ?s), H : formals _ _ ?s = Ok _ ?s' |- _ =>
            apply (formals_grows a b _ t) in H; [clear Hi | exact Hi]
        | Hi : grows ?a ?b ?t (symtbl ?s), H : redefined _ _ ?s = Ok _ ?s' |- _ =>
            apply (redefined_grows a b _ t) in H; [clear Hi | exact Hi]
        | Hi : grows ?a ?b ?t (symtbl ?s), H : bind_formals _ _ _ ?s = Ok _ ?s' |- _ =>
            apply (bind_formals_grows a b _ _ t) in H; [clear Hi | lia | exact Hi]
        | Hi : grows ?a ?b ?t (symtbl ?s), H : exec _ _ ?s = Ok _ ?s' |- _ =>
            apply IH in H; simpl in H;
            apply (grows_weaken _ _ a b) in H; [| lia | lia];
            apply (grows_trans _ _ _ _ _ Hi) in H; clear Hi
        end ].
    all: done.
  - apply (stmt_frame (S n)) in H as (-> & _); [|done].
    apply grows_refl.
Qed.

Lemma grows_nonneg Li Lp t t' :
  grows Li Lp t t' -> 0 <= Li ->
  Forall (fun n => 0 <= SymValue.level (val n)) t ->
  Forall (fun n => 0 <= SymValue.level (val n)) t'.
Proof.
  intros H HL. induction H; intros Ht.
  - done.
  - apply Forall_app. split; [done|]. repeat constructor. lia.
  - apply Forall_fmap. eapply Forall_impl; [exact Ht|]. intros n Hn. simpl. by case_decide.
  - apply Forall_forall. intros x [_ Hx]%list_elem_of_filter.
    rewrite Forall_forall in Ht. auto.
  - auto.
Qed.

Lemma grows_survives Li Lp t t' :
  grows Li Lp t t' ->
  forall n, n ∈ t -> SymValue.level (val n) < Lp ->
  exists n', n' ∈ t' /\ id n' = id n /\ SymValue.level (val n') = SymValue.level (val n).
Proof.
  intros H. induction H; intros x Hx Hlt.
  - eauto.
  - exists x. split; [apply elem_of_app; by left | done].
  - eexists. split; [apply (list_elem_of_fmap_2 _ _ _ Hx)|].
    simpl. by case_decide.
  - exists x. split; [|done]. apply list_elem_of_filter. split; [lia | done].
  - destruct (IHgrows1 x Hx Hlt) as (y & Hy & Hid & Hl).
    destruct (IHgrows2 y Hy) as (z & Hz & Hid' & Hl'); [lia|].
    exists z. split; [done|]. split; congruence.
Qed.

(** ** Runs that return: no assert fails *)

Lemma bind_na {A B} (m : M A) (f : A -> M B) s :
  m s <> Abort -> (forall a s1, m s = Ok a s1 -> f a s1 <> Abort) -> bind m f s <> Abort.
Proof. unfold bind. intros Hm Hf. destruct (m s); [by apply Hf | done | done]. Qed.

Lemma patch_na i a s : (i < length (code s))%nat -> patch i a s <> Abort.
Proof.
  intros Hi. unfold patch. destruct (code s !! i) eqn:E; [done|].
  apply lookup_ge_None in E. lia.
Qed.

Lemma present_filter r tbl n :
  n ∈ tbl -> id n = r -> filter (fun n => id n = r) tbl <> [].
Proof.
  intros Hn Hr Hf.
  assert (Hin : n ∈ filter (fun n => id n = r) tbl) by by apply list_elem_of_filter.
  rewrite Hf in Hin. by apply elem_of_nil in Hin.
Qed.

Lemma set_value_na r a s n : n ∈ symtbl s -> id n = r -> set_value r a s <> Abort.
Proof.
  intros Hn Hr. unfold set_value.
  pose proof (present_filter r _ n Hn Hr). by destruct (filter _ _).
Qed.

Lemma deref_na r s n : n ∈ symtbl s -> id n = r -> deref r s <> Abort.
Proof.
  intros Hn Hr. unfold deref.
  pose proof (present_filter r _ n Hn Hr). by destruct (filter _ _).
Qed.

Lemma formals_length n : forall args s x s',
  formals n args s = Ok x s' -> (length x <= length args + n)%nat.
Proof.
  induction n as [|n IH]; intros args s x s' H; [discriminate H|].
  simpl in H. minv.
  - apply IH in H. rewrite length_app in H. simpl in H. lia.
  - rewrite length_app. simpl. lia.
Qed.

Lemma safe_na {A} (m : M A) s : safe m -> m s <> Abort.
Proof. intros H. apply H. Qed.

Lemma safe_constDecls n L : safe (constDecls n L).
Proof.
  induction n as [|n IH]; [done|]. simpl.
  apply safe_bind; [apply safe_constDecl|]. intros _.
  apply safe_bind; [apply safe_accept|]. intros []; [exact IH | apply safe_ret].
Qed.

Lemma safe_varDecls n L : forall dx, safe (varDecls n dx L).
Proof.
  induction n as [|n IH]; intros dx; [done|]. simpl.
  apply safe_bind; [apply safe_varDecl|]. intros dx'.
  apply safe_bind; [apply safe_accept|]. intros []; [apply IH | apply safe_ret].
Qed.

Lemma safe_formals n : forall args, safe (formals n args).
Proof.
  induction n as [|n IH]; intros args; [done|]. simpl.
  apply safe_bind; [apply safe_get|]. intros s0.
  apply safe_bind; [apply safe_accept|]. intros _.
  apply safe_bind; [apply safe_accept|]. intros []; [apply IH | apply safe_ret].
Qed.

Lemma safe_bind_formals args : forall L o, safe (bind_formals args L o).
Proof.
  induction args as [|x rest IH]; intros L o; simpl; [apply safe_ret|].
  apply safe_bind; [apply safe_insert|]. intros _. apply IH.
Qed.

Lemma safe_redefined range nm : safe (redefined range nm).
Proof.
  induction range as [|x rest IH]; simpl; [apply safe_ret|].
  apply safe_bind; [apply safe_error|]. intros _. apply IH.
Qed.

Lemma safe_code_size : safe code_size.
Proof. done. Qed.

Lemma safe_purge l : safe (purge l).
Proof. done. Qed.

Lemma safe_orelse a b : safe a -> safe b -> safe (orelse a b).
Proof. intros Ha Hb. unfold orelse. apply safe_bind; [done|]. intros []; [apply safe_ret | done]. Qed.

#[local] Hint Resolve safe_constDecl safe_varDecl safe_constDecls safe_varDecls safe_formals
  safe_bind_formals safe_redefined safe_code_size safe_purge safe_orelse : safe_db.

(** Following a run step by step, with what each step returned at hand. *)
Ltac na :=
  repeat first
    [ apply safe_na; solve [safe | auto 6 with nocore safe_db]
    | apply bind_na; [ | intros ? ? ? ]
    | lazymatch goal with
      | |- (if ?c then _ else _) _ <> Abort => destruct c eqn:?
      | |- (match ?c with _ => _ end) _ <> Abort => destruct c eqn:?
      | IH : forall p s, callable p s -> exec _ p s <> Abort |- exec _ ?q _ <> Abort =>
          apply IH; exact I
      | IH : forall p s, declares p = false -> exec _ p s <> Abort |- exec _ ?q _ <> Abort =>
          apply IH; reflexivity
      end ].

(** The length of the code after each step of a run. *)
Ltac measure :=
  repeat match goal with
  | H : emit _ _ _ _ = Ok _ _ |- _ =>
      let E := fresh "E" in
      pose proof (emit_Ok _ _ _ _ _ _ H) as [E _];
      apply emit_Ok' in H as (H & _);
      apply (f_equal length) in H; rewrite length_app in H; simpl in H
  | H : exec _ _ _ = Ok _ _ |- _ =>
      apply exec_extends in H as [? H];
      apply (f_equal length) in H; rewrite length_app in H
  | H : expect _ _ _ = Ok _ _ |- _ => apply expect_code in H; apply (f_equal length) in H
  | H : accept _ _ _ = Ok _ _ |- _ => apply accept_code in H; apply (f_equal length) in H
  | H : patch _ _ _ = Ok _ _ |- _ =>
      apply patch_Ok in H as ((? & _ & H) & _);
      apply (f_equal length) in H; rewrite length_insert in H
  | H : set_value _ _ _ = Ok _ _ |- _ =>
      apply set_value_Ok in H as (_ & _ & H & _); apply (f_equal length) in H
  | H : constDecls _ _ _ = Ok _ _ |- _ =>
      apply (kept_constDecls _ Keeps_extends 0) in H as [? H];
      apply (f_equal length) in H; rewrite length_app in H
  | H : varDecls _ _ _ _ = Ok _ _ |- _ =>
      apply (kept_varDecls _ Keeps_extends 0) in H as [? H];
      apply (f_equal length) in H; rewrite length_app in H
  end.

(** The table after the steps of a run, from the table [Hi] starts at. *)
Ltac grow_run :=
  repeat first
    [ grow_step
    | match goal with
      | Hi : grows ?a ?b ?t (symtbl ?s), H : constDecls _ _ ?s = Ok _ ?s' |- _ =>
          apply (constDecls_grows b _ _ t) in H; [clear Hi | exact Hi]
      | Hi : grows ?a ?b ?t (symtbl ?s), H : varDecls _ _ _ ?s = Ok _ ?s' |- _ =>
          apply (varDecls_grows b _ _ t) in H; [clear Hi | exact Hi]
      | Hi : grows ?a ?b ?t (symtbl ?s), H : formals _ _ ?s = Ok _ ?s' |- _ =>
          apply (formals_grows a b _ t) in H; [clear Hi | exact Hi]
      | Hi : grows ?a ?b ?t (symtbl ?s), H : redefined _ _ ?s = Ok _ ?s' |- _ =>
          apply (redefined_grows a b _ t) in H; [clear Hi | exact Hi]
      | Hi : grows ?a ?b ?t (symtbl ?s), H : bind_formals _ _ _ ?s = Ok _ ?s' |- _ =>
          apply (bind_formals_grows a b _ _ t) in H; [clear Hi | lia | exact Hi]
      | Hi : grows ?a ?b ?t (symtbl ?s), H : exec _ _ ?s = Ok _ ?s' |- _ =>
          apply exec_grows in H; simpl in H;
          apply (grows_weaken _ _ a b) in H; [| lia | lia];
          apply (grows_trans _ _ _ _ _ Hi) in H; clear Hi
      end ].

(** No assert of a member function fails, and a block finds the entry it
    was called with, when it is called as the compiler calls it. *)
Lemma exec_safe fuel :
  Z.of_nat fuel < 2 ^ 31 - 1 ->
  forall p s, callable p s -> exec fuel p s <> Abort.
Proof.
  induction fuel as [|n IH]; intros Hf p s Hp; [done|].
  assert (Hn : Z.of_nat n < 2 ^ 31 - 1) by lia.
  specialize (IH Hn).
  rewrite exec_S.
  destruct p; unfold_body_goal; unfold next; na.
  - (* condition: the operator accepted is one of the six *)
    minv.
    match goal with
    | Hr : relation (Token.kind (ct ?s0)) = None, Hc : orelse _ _ ?s0 = Ok true _ |- _ =>
        pose proof (relational_accept s0) as Ha; cbv zeta in Ha; rewrite Hr in Ha;
        rewrite Ha in Hc; discriminate Hc
    end.
  - (* while *) minv. measure. apply patch_na. lia.
  - (* if, the conditional jump *) minv; measure; apply patch_na; lia.
  - (* if, the jump over else *) minv; measure; apply patch_na; lia.
  - (* subDecl: the block is compiled for the entry just inserted *)
    apply IH. simpl. split.
    + assert (length a8 <= n)%nat.
      { clear - H8. destruct a7; minv; [|simpl; lia].
        match goal with Hx : formals _ _ _ = Ok _ _ |- _ => apply formals_length in Hx end.
        simpl in *. lia. }
      unfold wrapU32. rewrite Z.mod_small; lia.
    + assert (exists v, insert (Token.string_value (ct a1)) v s5 = Ok a5 s6 /\
                        SymValue.level v = lvl) as (v & Hins & Hv).
      { destruct (decide (Token.procDecl = a)); eauto. }
      clear H5. pose proof (insert_Ok _ _ _ _ _ Hins) as (-> & Ht & _). clear Hins.
      pose proof (grows_refl lvl (lvl + 1) (symtbl s6)) as Hi.
      clear H H0 H1 H2 H3 H4.
      destruct a7; minv; grow_run.
      all: match goal with
        | Hg : grows _ _ _ (symtbl ?sx) |- exists _, _ ∈ symtbl ?sx /\ _ =>
            destruct (grows_survives _ _ _ _ Hg
                        (mkNode (serial s5) (Token.string_value (ct a1)) v))
              as (n' & Hin & Hid & Hl);
              [rewrite Ht; apply elem_of_app; right; apply list_elem_of_singleton; reflexivity
              | simpl; lia
              | exists n'; simpl in *; split; [done|]; split; [done | lia] ]
        end.
  - (* block: the address of the entry *)
    destruct Hp as (Hargs & x & Hx & Hxid & Hxl).
    pose proof (grows_refl lvl (lvl + 1) (symtbl s)) as Hi.
    minv; grow_run.
    all: match goal with
      | Hg : grows _ _ _ (symtbl ?sx) |- set_value _ _ ?sx <> Abort =>
          destruct (grows_survives _ _ _ _ Hg x Hx) as (n' & Hin & Hid & Hl); [lia|];
          apply (set_value_na _ _ _ n' Hin); congruence
      end.
  - (* block: the jump over the nested procedures *)
    clear Hp. minv; measure; apply patch_na; lia.
  - (* block: the number of arguments *)
    destruct Hp as (Hargs & _). contradiction.
  - (* block: the kind of the entry *)
    destruct Hp as (Hargs & x & Hx & Hxid & Hxl).
    pose proof (grows_refl lvl (lvl + 1) (symtbl s)) as Hi.
    minv; grow_run.
    all: match goal with
      | Hg : grows _ _ _ (symtbl ?sx) |- deref _ ?sx <> Abort =>
          destruct (grows_survives _ _ _ _ Hg x Hx) as (n' & Hin & Hid & Hl); [lia|];
          apply (deref_na _ _ n' Hin); congruence
      end.
Qed.


(** The statements and expressions need no bound on the depth of the
    calls for that. *)
Lemma stmt_safe fuel : forall p s, declares p = false -> exec fuel p s <> Abort.
Proof.
  induction fuel as [|n IH]; intros p s Hp; [done|].
  rewrite exec_S.
  destruct p; try discriminate Hp; unfold_body_goal; unfold next; na.
  - minv.
    match goal with
    | Hr : relation (Token.kind (ct ?s0)) = None, Hc : orelse _ _ ?s0 = Ok true _ |- _ =>
        pose proof (relational_accept s0) as Ha; cbv zeta in Ha; rewrite Hr in Ha;
        rewrite Ha in Hc; discriminate Hc
    end.
  - minv. measure. apply patch_na. lia.
  - minv; measure; apply patch_na; lia.
  - minv; measure; apply patch_na; lia.
Qed.

(** With fuel for the tokens that remain, a statement or an expression
    returns; so does a declaration or a block, of fewer than [2^31]
    nested calls. *)
Lemma stmt_returns fuel p s :
  declares p = false -> started p s -> (budget p s <= fuel)%nat ->
  exists s', exec fuel p s = Ok tt s'.
Proof.
  intros Hp Hst Hn.
  pose proof (exec_terminates fuel p s Hst Hn) as Ht.
  pose proof (stmt_safe fuel p s Hp) as Hs.
  destruct (exec fuel p s) as [[] s'| |]; [eauto | done | done].
Qed.

Lemma exec_returns fuel p s :
  started p s -> callable p s -> (budget p s <= fuel)%nat -> Z.of_nat fuel < 2 ^ 31 - 1 ->
  exists s', exec fuel p s = Ok tt s'.
Proof.
  intros Hst Hc Hn Hz.
  pose proof (exec_terminates fuel p s Hst Hn) as Ht.
  pose proof (exec_safe fuel Hz p s Hc) as Hs.
  destruct (exec fuel p s) as [[] s'| |]; [eauto | done | done].
Qed.

(** ** The header of a routine *)

(** The loop over the formal parameters reads them all, up to the
    closing parenthesis. *)
Lemma formals_params n : forall xs x acc s tail,
  ct s = Token.ident x ->
  input s = match xs with [] => [] | _ :: _ => K Token.comma :: params xs end
            ++ K Token.rparen :: tail ->
  (length xs < n)%nat ->
  formals n acc s = Ok (acc ++ x :: xs) (set_ts (K Token.rparen) tail s).
Proof.
  induction n as [|n IH]; intros xs x acc s tail Hct Hin Hn; [lia|].
  simpl. unfold get, accept, current, next, ts_get, ret, bind.
  rewrite Hct. simpl. rewrite Hin.
  destruct xs as [|y ys]; simpl.
  - reflexivity.
  - rewrite (IH ys y (acc ++ [x]) _ tail); [|reflexivity|reflexivity|simpl in Hn; lia].
    by rewrite <- app_assoc.
Qed.

(** The parameters are entered one after the other, with consecutive
    offsets. *)
Lemma bind_formals_eq args : forall lvl off s,
  bind_formals args lvl off s =
  Ok tt (set_symtbl
           (symtbl s ++ imap (fun k x => mkNode (serial s + k) x
                                (SymValue.mk SymValue.identifier lvl (off + Z.of_nat k)))
                          args)
           (serial s + length args) s).
Proof.
  induction args as [|x rest IH]; intros lvl off s; simpl.
  - unfold ret. rewrite app_nil_r, Nat.add_0_r. by destruct s.
  - unfold bind, insert. rewrite IH. simpl.
    rewrite <- app_assoc. simpl. rewrite Z.add_0_r, Nat.add_0_r.
    unfold set_symtbl. simpl. do 2 f_equal.
    + do 2 f_equal. apply imap_ext. intros k y _. simpl. do 2 f_equal; lia.
    + lia.
Qed.

#[local] Arguments imap : simpl never.

(** [subDecl] on a well-formed header, of a name that is new at its
    level: the block is compiled for the entry of the routine, in the
    table extended by that entry and by one entry for each parameter, at
    the level of the block, with the offsets [-n], ..., [-1]; nothing is
    written on [cerr], whatever the names of the parameters are. *)
Lemma subDecl_binds n L s nm xs rest :
  input s = Token.ident nm :: K Token.lparen :: params xs ++ K Token.rparen :: rest ->
  same_level L nm (symtbl s) = [] ->
  (length xs <= n)%nat ->
  subDecl (S n) L s =
    (block n (serial s) (L + 1) (wrapU32 (Z.of_nat (length xs))) ;;
     expect Token.scomma true ;; ret tt)
      (mkState (hd (K Token.eos) rest) (tl rest)
         (symtbl s
          ++ mkNode (serial s) nm
               (SymValue.mk (if decide (Token.procDecl = Token.kind (ct s))
                             then SymValue.proc else SymValue.function) L 0)
             :: imap (fun k x => mkNode (S (serial s) + k) x
                        (SymValue.mk SymValue.identifier (L + 1)
                           (- Z.of_nat (length xs) + Z.of_nat k))) xs)
         (S (serial s) + length xs) (code s) (nErrors s) (cerr s) (lookups s)).
Proof.
  intros Hin Hnew Hn. unfold subDecl, block. rewrite exec_S. unfold_body_goal.
  destruct s as [c i t sr cd ne ce lk]. simpl in Hin, Hnew. subst i.
  unfold expect, accept, current, next, get, ts_get, insert, ret.
  unfold bind at 1 2 3 4 5 6. simpl.
  unfold bind at 1 2. simpl. rewrite Hnew. simpl.
  destruct (decide (Token.procDecl = Token.kind c)); destruct xs as [|x xs']; simpl.
  all: unfold bind; simpl.
  all: try (rewrite (formals_params n xs' x [] _ rest);
            [|reflexivity|reflexivity|simpl in Hn; lia];
            cbv beta iota; rewrite bind_formals_eq).
  all: destruct rest as [|t0 rest0]; simpl.
  all: rewrite <- ?app_assoc, ?Nat.add_0_r; try reflexivity.
Qed.

(** ** The variables of a block *)

Lemma is_local_weaken L lo hi lo' hi' n :
  is_local L lo hi n -> lo' <= lo -> hi <= hi' -> is_local L lo' hi' n.
Proof. unfold is_local. intros (? & ? & ?) ? ?. repeat split; [done | done | lia | lia]. Qed.

(** [varDecl] returns the offset advanced by the one variable it declared,
    if it did. *)
Lemma varDecl_locals dx L s dx' s' :
  varDecl dx L s = Ok dx' s' ->
  exists locals, symtbl s' = symtbl s ++ locals /\ dx' = dx + Z.of_nat (length locals) /\
                 Forall (is_local L dx dx') locals.
Proof.
  unfold varDecl. intros H. minv.
  all: repeat match goal with
    | He : expect _ _ _ = Ok _ _ |- _ => apply expect_same in He as [He _]
    | He : error _ _ = Ok _ _ |- _ => apply error_Ok in He as (_ & He & _)
    | He : insert _ _ _ = Ok _ _ |- _ => apply insert_Ok in He as (_ & He & _)
    end.
  - eexists [_]. split; [by rewrite Hm, Hm0|]. split; [simpl; lia|].
    repeat constructor; simpl; lia.
  - exists []. rewrite app_nil_r. split; [congruence|]. split; [simpl; lia | constructor].
  - exists []. rewrite app_nil_r. split; [congruence|]. split; [simpl; lia | constructor].
Qed.

Lemma varDecls_locals fuel L : forall dx s dx' s',
  varDecls fuel dx L s = Ok dx' s' ->
  exists locals, symtbl s' = symtbl s ++ locals /\ dx' = dx + Z.of_nat (length locals) /\
                 Forall (is_local L dx dx') locals.
Proof.
  induction fuel as [|n IH]; intros dx s dx' s' H; [discriminate H|].
  simpl in H. minv.
  all: match goal with
    | Hv : varDecl _ _ _ = Ok _ _ |- _ => apply varDecl_locals in Hv as (l1 & Hs1 & -> & Hl1)
    end.
  all: match goal with
    | Hx : accept _ _ _ = Ok _ _ |- _ => apply accept_same in Hx as [Ha _]
    end.
  - apply IH in H as (l2 & Hs2 & -> & Hl2).
    exists (l1 ++ l2). split; [by rewrite Hs2, Ha, Hs1, app_assoc|].
    split; [rewrite length_app; lia|].
    apply Forall_app. split.
    + eapply Forall_impl; [exact Hl1|]. intros x Hx. eapply is_local_weaken; [exact Hx|lia|lia].
    + eapply Forall_impl; [exact Hl2|]. intros x Hx. eapply is_local_weaken; [exact Hx|lia|lia].
  - exists l1. split; [congruence|]. done.
Qed.

Lemma varDecl_offsets dx L s dx' s' :
  varDecl dx L s = Ok dx' s' ->
  exists locals, symtbl s' = symtbl s ++ locals /\
                 map (fun n => SymValue.value (val n)) locals
                   = seqZ dx (Z.of_nat (length locals)) /\
                 dx' = dx + Z.of_nat (length locals).
Proof.
  unfold varDecl. intros H. minv.
  all: repeat match goal with
    | He : expect _ _ _ = Ok _ _ |- _ => apply expect_same in He as [He _]
    | He : error _ _ = Ok _ _ |- _ => apply error_Ok in He as (_ & He & _)
    | He : insert _ _ _ = Ok _ _ |- _ => apply insert_Ok in He as (_ & He & _)
    end.
  - eexists [_]. split; [by rewrite Hm, Hm0|]. split; [reflexivity | simpl; lia].
  - exists []. rewrite app_nil_r. split; [congruence|]. split; [reflexivity | simpl; lia].
  - exists []. rewrite app_nil_r. split; [congruence|]. split; [reflexivity | simpl; lia].
Qed.

Lemma varDecls_offsets fuel L : forall dx s dx' s',
  varDecls fuel dx L s = Ok dx' s' ->
  exists locals, symtbl s' = symtbl s ++ locals /\
                 map (fun n => SymValue.value (val n)) locals
                   = seqZ dx (Z.of_nat (length locals)) /\
                 dx' = dx + Z.of_nat (length locals).
Proof.
  induction fuel as [|n IH]; intros dx s dx' s' H; [discriminate H|].
  simpl in H. minv.
  all: match goal with
    | Hv : varDecl _ _ _ = Ok _ _ |- _ => apply varDecl_offsets in Hv as (l1 & Hs1 & Hm1 & ->)
    end.
  all: match goal with
    | Hx : accept _ _ _ = Ok _ _ |- _ => apply accept_same in Hx as [Ha _]
    end.
  - apply IH in H as (l2 & Hs2 & Hm2 & ->).
    exists (l1 ++ l2). split; [by rewrite Hs2, Ha, Hs1, app_assoc|].
    split; [|rewrite length_app; lia].
    rewrite map_app, Hm1, Hm2, length_app, Nat2Z.inj_add.
    by rewrite seqZ_app by lia.
  - exists l1. split; [congruence|]. done.
Qed.


(** ** Redeclarations *)

Lemma ts_get_reports s t s' : ts_get s = Ok t s' -> reports s s' [].
Proof. intros (_ & _ & _ & Hn & Hc & _)%ts_get_Ok. by apply reports_same. Qed.

Lemma insert_reports nm v s n s' : insert nm v s = Ok n s' -> reports s s' [].
Proof. intros (_ & _ & _ & _ & _ & _ & _ & Hc & Hn)%insert_Ok. by apply reports_same. Qed.

Lemma accept_reports k g s b s' : accept k g s = Ok b s' -> reports s s' [].
Proof.
  intros [(_ & _ & H) | (_ & _ & ->)]%accept_Ok; [|apply reports_refl].
  destruct g; [|subst; apply reports_refl]. by eapply ts_get_reports.
Qed.

Lemma expect_reports k g s b s' :
  expect k g s = Ok b s' ->
  if b then reports s s' [] else reports s s' [Diag_expected k (Token.kind (ct s))].
Proof.
  unfold expect. intros H. minv.
  - by eapply accept_reports.
  - pose proof Hm as Ha. apply accept_reports in Hm.
    apply accept_Ok in Ha as [(? & _) | (_ & _ & ->)]; [done|].
    apply error_reports in Hm1.
    apply (reports_trans _ _ _ [] _ Hm Hm1).
Qed.

Lemma redefined_reports range : forall nm s u s',
  redefined range nm s = Ok u s' ->
  reports s s'
    (replicate (length range) (Diag_name "identifier has previously been defined" nm)).
Proof.
  induction range as [|x rest IH]; intros nm s u s' H; simpl in H; minv.
  - apply reports_refl.
  - apply IH in H. apply error_reports in Hm.
    apply (reports_trans _ _ _ [_] _ Hm H).
Qed.

Lemma redefined_same range : forall nm s u s',
  redefined range nm s = Ok u s' -> symtbl s' = symtbl s.
Proof.
  induction range as [|x rest IH]; intros nm s u s' H; simpl in H; minv; [done|].
  apply IH in H. apply error_Ok in Hm as (_ & Hs & _). congruence.
Qed.

Lemma expect_false k g s s' : expect k g s = Ok false s' -> Token.kind (ct s) <> k.
Proof.
  unfold expect. intros H. minv; try discriminate.
  match goal with
  | Ha : accept _ _ _ = Ok false _ |- _ =>
      by apply accept_Ok in Ha as [(? & _) | (_ & ? & _)]
  end.
Qed.

Lemma expect_true k g s s' : expect k g s = Ok true s' -> Token.kind (ct s) = k.
Proof.
  unfold expect. intros H. minv; try discriminate.
  match goal with
  | Ha : accept _ _ _ = Ok true _ |- _ =>
      by apply accept_Ok in Ha as [(_ & ? & _) | (? & _)]
  end.
Qed.

(** A well-formed [ident = number] whose name is declared at this level
    gets the one diagnostic of the redeclaration. *)
Lemma constDecl_redefined L s t1 t2 rest u s' :
  Token.kind (ct s) = Token.identifier ->
  input s = t1 :: t2 :: rest ->
  Token.kind t1 = Token.assign -> Token.kind t2 = Token.number ->
  same_level L (Token.string_value (ct s)) (symtbl s) <> [] ->
  constDecl L s = Ok u s' ->
  cerr s' = cerr s ++ [Diag_name "identifier has previously been defined"
                         (Token.string_value (ct s))].
Proof.
  intros Hk Hin H1 H2 Hdup.
  unfold constDecl, expect, accept, current, next, get, ret, ts_get, error, bind.
  rewrite decide_True by done. rewrite Hin. simpl.
  rewrite decide_True by done. simpl.
  rewrite decide_True by done. simpl.
  destruct rest; simpl;
    (destruct (same_level L (Token.string_value (ct s)) (symtbl s)); [done|]);
    by intros [= _ <-].
Qed.

(** What each step of a declaration wrote on [cerr], and that it left the
    table alone. *)
Ltac audit :=
  repeat match goal with
  | H : ts_get ?s = Ok _ ?s' |- _ =>
      let Hs := fresh "Hsym" in
      assert (Hs : symtbl s' = symtbl s) by (by apply ts_get_Ok in H as (_ & ? & _));
      apply ts_get_reports in H
  | H : error _ ?s = Ok _ ?s' |- _ =>
      let Hs := fresh "Hsym" in
      assert (Hs : symtbl s' = symtbl s) by (by apply error_Ok in H as (_ & ? & _));
      apply error_reports in H
  | H : expect _ _ ?s = Ok _ ?s' |- _ =>
      let Hs := fresh "Hsym" in
      assert (Hs : symtbl s' = symtbl s) by (by apply expect_same in H as [? _]);
      apply expect_reports in H
  | H : accept _ _ ?s = Ok _ ?s' |- _ =>
      let Hs := fresh "Hsym" in
      assert (Hs : symtbl s' = symtbl s) by (by apply accept_same in H as [? _]);
      apply accept_reports in H
  | H : insert _ _ ?s = Ok _ ?s' |- _ => apply insert_reports in H
  | H : redefined _ _ ?s = Ok _ ?s' |- _ =>
      let Hs := fresh "Hsym" in
      assert (Hs : symtbl s' = symtbl s) by (by apply redefined_same in H);
      apply redefined_reports in H
  end;
  repeat match goal with
  | H : if ?b then _ else _ |- _ => destruct b
  end;
  repeat match goal with
  | H1 : reports ?a ?b ?d1, H2 : reports ?b ?c ?d2 |- _ =>
      let H := fresh "Hrep" in
      pose proof (reports_trans a b c d1 d2 H1 H2) as H; clear H1 H2
  end.



(** ** Variables: reading and assigning *)

(** C1: a variable read compiled as a factor at level [L] emits the single
    instruction [pushVar (L - L') off] (the level difference narrowed to the
    8-bit field of the instruction), and an assignment to a variable emits
    the code of its right-hand side followed by the single instruction
    [pop (L - L') off]. *)
Theorem variable_read_and_assignment :
  (forall fuel L s n,
     Token.kind (ct s) = Token.identifier ->
     closest (equal_range (Token.string_value (ct s)) (symtbl s)) = Some n ->
     SymValue.kind (val n) = SymValue.identifier ->
     exists s',
       factor (S (S fuel)) L s = Ok tt s' /\
       code s' = code s ++ [mkInstr OpCode.pushVar (wrap8 (L - SymValue.level (val n)))
                              (SymValue.value (val n))]) /\
  (forall fuel nm v L s,
     SymValue.kind v = SymValue.identifier ->
     (budget (AssignStmt nm v L) s <= fuel)%nat ->
     exists rhs s1 s',
       expression fuel L s = Ok tt s1 /\ code s1 = code s ++ rhs /\
       assignStmt fuel nm v L s = Ok tt s' /\
       code s' = code s ++ rhs ++ [mkInstr OpCode.pop (wrap8 (L - SymValue.level v))
                                     (SymValue.value v)]).
Proof.
  split.
  - intros fuel L s n Hk Hc Hv. unfold factor.
    enter_body. enter_body.
    unfold accept, current, get, next, ts_get, lookup, ret, bind.
    rewrite decide_True by done.
    destruct (input s); simpl; rewrite Hc, Hv; simpl; eauto.
  - intros fuel nm v L s Hv Hn. unfold expression, assignStmt.
    destruct fuel as [|k]; [unfold budget in Hn; lia|].
    destruct (expression_returns k (Expression L) s) as [s1 H1];
      [done | done | unfold budget in *; cbn [rank] in *; lia |].
    destruct (exec_extends _ _ _ _ H1) as [rhs Hrhs].
    exists rhs, s1. eexists. split; [by apply (exec_mono_Ok k); [|lia]|].
    split; [done|].
    enter_body. unfold bind. rewrite H1, Hv. unfold emit, ret.
    split; [reflexivity|]. simpl. by rewrite Hrhs, <- app_assoc.
Qed.

(** In [var i; i = i .] the read of [i] is one [pushVar] and the assignment
    one [pop]; neither [eval] nor [assign] is emitted. *)
Lemma read_without_eval :
  exists s',
    compile 20 copy_source [] new = Ok 0 s' /\
    code s' = [mkInstr OpCode.jump 0 1; mkInstr OpCode.enter 0 5;
               mkInstr OpCode.pushVar 0 4; mkInstr OpCode.pop 0 4;
               mkInstr OpCode.ret 0 0] /\
    Forall (fun i => op i <> OpCode.eval /\ op i <> OpCode.assign) (code s').
Proof.
  eexists. split; [vm_compute; reflexivity|]. split; [reflexivity|].
  repeat constructor; discriminate.
Qed.

Lemma variable_read_and_assignment_witness :
  (exists s',
     factor 2 0 (reading [Token.ident "i"; K Token.period] table_i) = Ok tt s' /\
     code s' = [mkInstr OpCode.pushVar 0 4]) /\
  (exists s',
     assignStmt 20 "i" (SymValue.mk SymValue.identifier 0 4) 0
       (reading [Token.num 1; K Token.period] table_i) = Ok tt s' /\
     code s' = [mkInstr OpCode.pushConst 0 1; mkInstr OpCode.pop 0 4]).
Proof.
  split.
  - destruct (proj1 variable_read_and_assignment 0%nat 0
                (reading [Token.ident "i"; K Token.period] table_i)
                (mkNode 1 "i" (SymValue.mk SymValue.identifier 0 4)))
      as (s' & H1 & H2); [reflexivity | reflexivity | reflexivity |].
    exists s'. split; [exact H1 | exact H2].
  - destruct (proj2 variable_read_and_assignment 20%nat "i"
                (SymValue.mk SymValue.identifier 0 4) 0
                (reading [Token.num 1; K Token.period] table_i))
      as (rhs & s1 & s' & H1 & H2 & H3 & H4); [reflexivity | vm_compute; lia |].
    exists s'. split; [exact H3|].
    vm_compute in H3. injection H3 as <-. reflexivity.
Defined.

(** ** Terms *)




(** ** The opcodes of a compiled program *)

(** What every step keeps, a whole compilation keeps. *)
Lemma kept_run R fuel s s' : Keeps_decl R -> run fuel s = Ok tt s' -> R 0 s s'.
Proof.
  intros HK H. pose proof (keeps_stmt _ HK) as HS.
  unfold run, next in H. minv.
  match goal with
  | Hg : ts_get _ = Ok _ _, Hb : block _ _ _ _ _ = Ok _ _, He : expect _ _ _ = Ok _ _ |- _ =>
      apply (keeps_next _ HS 0) in Hg;
      apply (kept_exec _ HK 0) in Hb;
      apply (kept_expect _ HS 0) in He;
      exact (keeps_trans _ HS _ _ _ _ Hg (keeps_trans _ HS _ _ _ _ Hb He))
  end.
Qed.

Lemma compile_compiler_set fuel source prog s n s' :
  compile fuel source prog s = Ok n s' -> in_compiler_set prog -> in_compiler_set (code s').
Proof.
  unfold compile. intros H Hp.
  destruct (run fuel _) as [[] s1| |] eqn:Hrun; try discriminate H.
  injection H as _ <-.
  by apply (kept_run _ _ _ _ Keeps_compiler_set) in Hrun.
Qed.

(** C5: for a condition [odd expr] the compiler emits the code of [expr]
    followed by the single instruction [odd], an opcode of its own; every
    instruction of a compiled program has an opcode of the enumeration
    of [pl0c/pl0c.h], so that none is a [band]. *)
Theorem odd_condition_and_dispatch :
  (forall fuel L s,
     Token.kind (ct s) = Token.odd ->
     (budget (Condition L) s <= fuel)%nat ->
     exists t s0 c s1 s',
       next s = Ok t s0 /\ expression fuel L s0 = Ok tt s1 /\ code s1 = code s ++ c /\
       condition fuel L s = Ok tt s' /\
       code s' = code s ++ c ++ [mkInstr OpCode.odd 0 0]) /\
  (forall fuel source prog s n s',
     compile fuel source prog s = Ok n s' ->
     in_compiler_set prog ->
     in_compiler_set (code s') /\ Forall (fun i => op i <> OpCode.band) (code s')).
Proof.
  split.
  - intros fuel L s Hk Hn. unfold budget in Hn. cbn [rank] in Hn.
    destruct fuel as [|n]; [lia|].
    assert (Hne : Token.kind (ct s) <> Token.eos) by by rewrite Hk.
    destruct (ts_get_returns s) as (t & s0 & H0).
    pose proof (ts_get_remaining _ _ _ H0) as [_ Hlt]. specialize (Hlt Hne).
    pose proof (ts_get_Ok _ _ _ H0) as (Hc0 & _).
    destruct (expression_returns n (Expression L) s0) as [s1 H1];
      [done | done | unfold budget; cbn [rank]; lia |].
    destruct (exec_extends _ _ _ _ H1) as [c Hc1].
    exists t, s0, c, s1. eexists.
    split; [done|]. split; [by apply (exec_mono_Ok n); [|lia]|].
    split; [congruence|]. split.
    + unfold condition. enter_body. unfold accept, current, next, ret, bind.
      rewrite decide_True by done. rewrite H0. cbv beta iota. rewrite H1. reflexivity.
    + simpl. by rewrite Hc1, Hc0, <- app_assoc.
  - intros fuel source prog s n s' H Hp.
    pose proof (compile_compiler_set _ _ _ _ _ _ H Hp) as Hs.
    split; [exact Hs|]. eapply Forall_impl; [exact Hs|].
    intros i Hi Hb. simpl in Hi. rewrite Hb in Hi. discriminate Hi.
Qed.

(** [var i; if odd i then i = 1 .] is compiled to a program whose
    condition is [pushVar 0 4; odd]: the instruction after the code of the
    expression is [odd], and neither a [pushConst 1] nor a [band]. *)
Lemma odd_is_an_opcode :
  exists s',
    compile 70 odd_source [] new = Ok 0 s' /\
    code s' = [mkInstr OpCode.jump 0 1; mkInstr OpCode.enter 0 5;
               mkInstr OpCode.pushVar 0 4; mkInstr OpCode.odd 0 0;
               mkInstr OpCode.jneq 0 7;
               mkInstr OpCode.pushConst 0 1; mkInstr OpCode.pop 0 4;
               mkInstr OpCode.ret 0 0] /\
    code s' !! 3%nat <> Some (mkInstr OpCode.pushConst 0 1) /\
    Forall (fun i => op i <> OpCode.band) (code s').
Proof.
  eexists. split; [vm_compute; reflexivity|]. split; [reflexivity|].
  split; [discriminate | repeat constructor; discriminate].
Qed.

Lemma odd_condition_and_dispatch_witness :
  (exists s',
     condition 30 0 (reading [K Token.odd; Token.num 1; K Token.then_] []) = Ok tt s' /\
     code s' = [mkInstr OpCode.pushConst 0 1; mkInstr OpCode.odd 0 0]) /\
  (exists s', compile 70 odd_source [] new = Ok 0 s' /\ in_compiler_set (code s')).
Proof.
  destruct odd_condition_and_dispatch as (H1 & H2).
  split.
  - destruct (H1 30%nat 0 (reading [K Token.odd; Token.num 1; K Token.then_] []))
      as (t & s0 & c & s1 & s' & _ & _ & _ & Hc & _); [reflexivity | vm_compute; lia |].
    exists s'. split; [exact Hc|]. vm_compute in Hc. injection Hc as <-. reflexivity.
  - eexists. split; [vm_compute; reflexivity|].
    eapply (proj1 (H2 70%nat odd_source [] new 0 _ ltac:(vm_compute; reflexivity)
                     ltac:(constructor))).
Defined.
(** ** The frame of a block *)

(** From [enter] on: the address of [enter] patched into the jump, the
    statement, the return. *)
Lemma block_tail n r L (nargs : Z) o dx s j s0 sD mid a sE sV sP sS x sR s' :
  emit OpCode.jump 0 0 s = Ok j s0 ->
  code sD = code s0 ++ mid ->
  emit OpCode.enter 0 dx sD = Ok a sE ->
  set_value r (wrap32 (Z.of_nat a)) sE = Ok tt sV ->
  patch j (wrap32 (Z.of_nat a)) sV = Ok tt sP ->
  exec n (Statement L) sP = Ok tt sS ->
  emit o 0 (wrap32 nargs) sS = Ok x sR ->
  purge L sR = Ok tt s' ->
  exists rest,
    code s' = code s
              ++ [mkInstr OpCode.jump 0 (wrap32 (Z.of_nat (length (code s) + 1 + length mid)))]
              ++ mid ++ [mkInstr OpCode.enter 0 dx] ++ rest.
Proof.
  intros Hj Hmid He Hv Hp Hs Hr Hpu.
  pose proof (emit_Ok _ _ _ _ _ _ Hj) as [-> _].
  apply emit_Ok' in Hj as (Hj & _).
  pose proof (emit_Ok _ _ _ _ _ _ He) as [-> _].
  apply emit_Ok' in He as (He & _).
  apply set_value_Ok in Hv as (_ & _ & Hv & _).
  apply patch_Ok in Hp as ((ins & Hi & Hp) & _).
  apply exec_extends in Hs as [d Hd].
  apply emit_Ok' in Hr as (Hr & _).
  apply purge_Ok in Hpu as (_ & _ & Hpu & _).
  change (wrap8 0) with 0 in *.
  rewrite Hv, He, Hmid, Hj in Hi, Hp.
  rewrite <- !app_assoc in Hi, Hp. simpl in Hi, Hp.
  rewrite list_lookup_middle in Hi by done. injection Hi as <-. simpl in Hp.
  rewrite insert_app_r_alt, Nat.sub_diag in Hp by done. simpl in Hp.
  exists (d ++ [mkInstr o 0 (wrap32 nargs)]).
  rewrite Hpu, Hr, Hd, Hp, !length_app. simpl.
  replace (length (code s) + S (length mid))%nat
    with (length (code s) + 1 + length mid)%nat by lia.
  repeat (rewrite <- app_assoc; simpl). reflexivity.
Qed.

(** The code of a block: the jump over the nested routines, patched to
    the address of [enter]; the routines; [enter dx]; the statement and the
    return. *)
Lemma block_shape fuel r L nargs s s' :
  block fuel r L nargs s = Ok tt s' ->
  exists dx locals mid rest,
    code s' = code s
              ++ [mkInstr OpCode.jump 0 (wrap32 (Z.of_nat (length (code s) + 1 + length mid)))]
              ++ mid ++ [mkInstr OpCode.enter 0 dx] ++ rest /\
    dx = Frame_size + Z.of_nat (length locals) /\
    Forall (is_local L Frame_size dx) locals /\
    (locals = [] \/
     exists k s2 s3, varDecls k Frame_size L s2 = Ok dx s3 /\ symtbl s3 = symtbl s2 ++ locals).
Proof.
  intros H. unfold block in H. destruct fuel as [|n]; [discriminate H|].
  rewrite exec_S in H. unfold_body H. minv.
  all: repeat match goal with
    | Hx : accept _ _ _ = Ok _ _ |- _ =>
        apply (kept_accept _ (keeps_stmt _ Keeps_extends) 0) in Hx
    | Hx : expect _ _ _ = Ok _ _ |- _ =>
        apply (kept_expect _ (keeps_stmt _ Keeps_extends) 0) in Hx
    | Hx : constDecls _ _ _ = Ok _ _ |- _ => apply (kept_constDecls _ Keeps_extends 0) in Hx
    | Hx : exec _ (SubDecls _) _ = Ok _ _ |- _ => apply exec_extends in Hx
    end.
  all: try match goal with
    | Hx : varDecls _ _ _ _ = Ok _ _ |- _ =>
        pose proof (kept_varDecls _ Keeps_extends 0 _ _ _ _ _ _ Hx);
        pose proof (varDecls_locals _ _ _ _ _ _ Hx) as (locals & Hloc & Hdx & Hall)
    end.
  all: match goal with
    | Hj : emit OpCode.jump 0 0 _ = Ok _ ?s0, He : emit OpCode.enter 0 _ ?sD = Ok _ _ |- _ =>
        assert (Hmid : extends s0 sD)
          by repeat first [apply extends_refl | eapply extends_trans; [eassumption|]]
    end.
  all: match goal with
    | Hj : emit OpCode.jump 0 0 _ = Ok _ _, He : emit OpCode.enter 0 _ _ = Ok _ _,
      Hv : set_value _ _ _ = Ok _ _, Hp : patch _ _ _ = Ok _ _,
      Hs : exec _ (Statement _) _ = Ok _ _, Hr : emit _ 0 (wrap32 _) _ = Ok _ _,
      Hpu : purge _ _ = Ok _ _ |- _ =>
        destruct Hmid as [mid Hmid];
        destruct (block_tail _ _ _ _ _ _ _ _ _ _ _ _ _ _ _ _ _ _ _ Hj Hmid He Hv Hp Hs Hr Hpu)
          as (rest & Hcode)
    end.
  all: first
    [ match goal with
      | Hx : varDecls _ _ _ _ = Ok _ _ |- _ =>
          eexists _, locals, mid, rest;
          split; [exact Hcode|]; split; [exact Hdx|]; split; [exact Hall|];
          right; eauto
      end
    | exists Frame_size, [], mid, rest;
      split; [exact Hcode|]; split; [simpl; lia|]; split; [constructor | by left] ].
Qed.

(** The steps of a block up to [enter], with the variables its [var] part
    entered. *)
Lemma block_frame n r L nargs s s' :
  block (S n) r L nargs s = Ok tt s' ->
  exists j s0 bc sa s1 bv sb dx s2 (locals : list Node) s3 mid rest,
    emit OpCode.jump 0 0 s = Ok j s0 /\
    accept Token.constDecl true s0 = Ok bc sa /\
    (if bc then exists sc b, constDecls n L sa = Ok tt sc /\
                             expect Token.scomma true sc = Ok b s1
     else s1 = sa) /\
    accept Token.varDecl true s1 = Ok bv sb /\
    (if bv then exists sv b, varDecls n Frame_size L sb = Ok dx sv /\
                             expect Token.scomma true sv = Ok b s2
     else dx = Frame_size /\ s2 = sb) /\
    symtbl s2 = symtbl s1 ++ locals /\
    dx = Frame_size + Z.of_nat (length locals) /\
    Forall (is_local L Frame_size dx) locals /\
    map (fun n => SymValue.value (val n)) locals
      = seqZ Frame_size (Z.of_nat (length locals)) /\
    exec n (SubDecls L) s2 = Ok tt s3 /\
    code s3 = code s ++ [mkInstr OpCode.jump 0 0] ++ mid /\
    code s' = code s
              ++ [mkInstr OpCode.jump 0 (wrap32 (Z.of_nat (length (code s) + 1 + length mid)))]
              ++ mid ++ [mkInstr OpCode.enter 0 dx] ++ rest.
Proof.
  intros H. unfold block in H. rewrite exec_S in H. unfold_body H. minv.
  all: match goal with
    | Hj : emit OpCode.jump 0 0 _ = Ok ?j ?s0, Hc : accept Token.constDecl true ?s0 = Ok ?bc ?sa,
      Hv : accept Token.varDecl true ?s1 = Ok ?bv ?sb,
      Hs : exec _ (SubDecls _) ?s2 = Ok _ ?s3,
      He : emit OpCode.enter 0 ?dx ?s3 = Ok _ _ |- _ =>
        exists j, s0, bc, sa, s1, bv, sb, dx, s2
    end.
  all: try match goal with
    | Hx : varDecls _ _ _ _ = Ok _ _ |- _ =>
        pose proof (varDecls_locals _ _ _ _ _ _ Hx) as (locals & Hloc & Hdx & Hall);
        pose proof (varDecls_offsets _ _ _ _ _ _ Hx) as (locals' & Hloc' & Hoff & _);
        rewrite Hloc in Hloc'; apply app_inv_head in Hloc'; subst locals'
    end.
  all: match goal with
    | Hx : varDecls _ _ _ _ = Ok _ _ |- _ => exists locals
    | _ => exists []
    end.
  all: match goal with
    | Hj : emit OpCode.jump 0 0 _ = Ok _ ?s0, He : emit OpCode.enter 0 _ ?sD = Ok _ _,
      Hv : set_value _ _ _ = Ok _ _, Hp : patch _ _ _ = Ok _ _,
      Hs : exec _ (Statement _) _ = Ok _ _, Hr : emit _ 0 (wrap32 _) _ = Ok _ _,
      Hpu : purge _ _ = Ok _ _, Hsub : exec _ (SubDecls _) ?s2 = Ok _ ?sD |- _ =>
        assert (Hmid : extends s0 sD);
        [ pose proof (exec_extends _ _ _ _ Hsub);
          repeat match goal with
            | Hx : accept _ _ _ = Ok _ _ |- _ =>
                apply (kept_accept _ (keeps_stmt _ Keeps_extends) 0) in Hx
            | Hx : expect _ _ _ = Ok _ _ |- _ =>
                apply (kept_expect _ (keeps_stmt _ Keeps_extends) 0) in Hx
            | Hx : constDecls _ _ _ = Ok _ _ |- _ =>
                apply (kept_constDecls _ Keeps_extends 0) in Hx
            | Hx : varDecls _ _ _ _ = Ok _ _ |- _ =>
                apply (kept_varDecls _ Keeps_extends 0) in Hx
            end;
          repeat first [apply extends_refl | eapply extends_trans; [eassumption|]]
        | ]
    end.
  all: destruct Hmid as [mid Hmid].
  all: match goal with
    | Hj : emit OpCode.jump 0 0 _ = Ok _ _, He : emit OpCode.enter 0 _ _ = Ok _ _,
      Hv : set_value _ _ _ = Ok _ _, Hp : patch _ _ _ = Ok _ _,
      Hs : exec _ (Statement _) _ = Ok _ _, Hr : emit _ 0 (wrap32 _) _ = Ok _ _,
      Hpu : purge _ _ = Ok _ _ |- _ =>
        destruct (block_tail _ _ _ _ _ _ _ _ _ _ _ _ _ _ _ _ _ _ _ Hj Hmid He Hv Hp Hs Hr Hpu)
          as (rest & Hcode)
    end.
  all: eexists _, mid, rest.
  all: repeat match goal with
    | |- _ /\ _ => split
    | |- exists sc b, _ /\ _ => eexists _, _
    end; try eassumption; try reflexivity.
  all: try match goal with
    | |- symtbl _ = symtbl _ ++ _ =>
        repeat match goal with
          | Hx : accept _ _ _ = Ok _ _ |- _ => apply accept_same in Hx as [Hx _]
          | Hx : expect _ _ _ = Ok _ _ |- _ => apply expect_same in Hx as [Hx _]
          end;
        rewrite ?app_nil_r; congruence
    end.
  all: try (simpl; lia).
  all: try (constructor; fail).
  all: try match goal with
    | Hj : emit OpCode.jump 0 0 ?s = Ok _ _ |- code _ = code ?s ++ _ =>
        apply emit_Ok' in Hj as (Hj & _); change (wrap8 0) with 0 in Hj;
        rewrite Hmid, Hj; by rewrite <- app_assoc
    end.
Qed.

(** C2: executing [Enter dx] adds the whole operand [dx] to the stack
    pointer (in 32-bit arithmetic) and leaves [bp] and the stack as they
    are; a block always compiles to a jump over its nested routines, these
    routines, and an [enter] whose [dx] is the four words of the frame
    header plus one word for each entry its [var] part added to the
    symbol table, which are variables of the level of the block at the
    offsets 4, 5, ... *)
Theorem enter_allocates :
  (forall m i,
     Interp.at_pc m = Some i -> op i = OpCode.enter ->
     (Interp.sp m = -1 \/ Interp.sp m < wrap32 (Z.of_nat (length (Interp.stack m)))) ->
     exists m',
       Interp.cycle m = Interp.Continue m' /\
       Interp.sp m' = wrap32 (Interp.sp m + addr i) /\
       (int32 (Interp.sp m + addr i) -> Interp.sp m' = Interp.sp m + addr i) /\
       Interp.bp m' = Interp.bp m /\ Interp.stack m' = Interp.stack m) /\
  (forall n r L nargs s,
     callable (Block r L nargs) s ->
     (budget (Block r L nargs) s <= S n)%nat ->
     Z.of_nat (S n) < 2 ^ 31 - 1 ->
     exists j s0 bc sa s1 bv sb dx s2 (locals : list Node) s3 mid rest s',
       emit OpCode.jump 0 0 s = Ok j s0 /\
       accept Token.constDecl true s0 = Ok bc sa /\
       (if bc then exists sc b, constDecls n L sa = Ok tt sc /\
                                expect Token.scomma true sc = Ok b s1
        else s1 = sa) /\
       accept Token.varDecl true s1 = Ok bv sb /\
       (if bv then exists sv b, varDecls n Frame_size L sb = Ok dx sv /\
                                expect Token.scomma true sv = Ok b s2
        else dx = Frame_size /\ s2 = sb) /\
       symtbl s2 = symtbl s1 ++ locals /\
       dx = Frame_size + Z.of_nat (length locals) /\
       Forall (is_local L Frame_size dx) locals /\
       map (fun n => SymValue.value (val n)) locals
         = seqZ Frame_size (Z.of_nat (length locals)) /\
       exec n (SubDecls L) s2 = Ok tt s3 /\
       code s3 = code s ++ [mkInstr OpCode.jump 0 0] ++ mid /\
       block (S n) r L nargs s = Ok tt s' /\
       code s' = code s
                 ++ [mkInstr OpCode.jump 0
                       (wrap32 (Z.of_nat (length (code s) + 1 + length mid)))]
                 ++ mid ++ [mkInstr OpCode.enter 0 dx] ++ rest).
Proof.
  split.
  - intros m i Hi Hop Hsp. eexists. split; [by apply InterpFacts.cycle_enter|].
    simpl. split; [done|]. split; [apply wrap32_id | done].
  - intros n r L nargs s Hc Hn Hz.
    destruct (exec_returns (S n) (Block r L nargs) s I Hc Hn Hz) as [s' H].
    destruct (block_frame n r L nargs s s' H)
      as (j & s0 & bc & sa & s1 & bv & sb & dx & s2 & locals & s3 & mid & rest
          & H1 & H2 & H3 & H4 & H5 & H6 & H7 & H8 & H9 & H10 & H11 & H12).
    exists j, s0, bc, sa, s1, bv, sb, dx, s2, locals, s3, mid, rest, s'.
    repeat (split; [assumption|]). assumption.
Qed.

(** Entering a block with one local, [enter 5], from [sp = 3], as the call
    of the block has left it: [sp] becomes 8, five words more and not one. *)
Lemma enter_adds_dx :
  exists m',
    Interp.at_pc Interp.entering = Some (mkInstr OpCode.enter 0 5) /\
    Interp.sp Interp.entering = 3 /\
    Interp.cycle Interp.entering = Interp.Continue m' /\
    Interp.sp m' = 8 /\
    Interp.sp m' <> Interp.sp Interp.entering + (5 - 4).
Proof.
  eexists. split; [reflexivity|]. split; [reflexivity|].
  split; [vm_compute; reflexivity|]. split; [reflexivity | discriminate].
Qed.

Lemma enter_allocates_witness :
  (exists m', Interp.cycle Interp.entering = Interp.Continue m' /\ Interp.sp m' = 8) /\
  (exists s',
     block 70 0 0 0 (reading two_vars_source (symtbl new)) = Ok tt s' /\
     code s' = [mkInstr OpCode.jump 0 1; mkInstr OpCode.enter 0 6;
                mkInstr OpCode.pushVar 0 5; mkInstr OpCode.pop 0 4;
                mkInstr OpCode.ret 0 0]).
Proof.
  split.
  - destruct (proj1 enter_allocates Interp.entering (mkInstr OpCode.enter 0 5))
      as (m' & Hc & Hs & _); [reflexivity | reflexivity | right; reflexivity |].
    exists m'. split; [exact Hc | exact Hs].
  - destruct (proj2 enter_allocates 69%nat 0%nat 0 0 (reading two_vars_source (symtbl new)))
      as (j & s0 & bc & sa & s1 & bv & sb & dx & s2 & locals & s3 & mid & rest & s'
          & _ & _ & _ & _ & _ & _ & _ & _ & _ & _ & _ & Hb & _).
    + split; [lia|]. eexists. split; [apply list_elem_of_here|]. split; [reflexivity|].
      simpl. lia.
    + vm_compute. lia.
    + lia.
    + exists s'. split; [exact Hb|].
      vm_compute in Hb. injection Hb as <-. reflexivity.
Defined.
(** * More on the compiler *)

(** ** The layout of the loops and of the conditional *)

(** X10: a [while] loop always compiles, to the code of its condition, a
    conditional jump to the first instruction after the loop, the code of
    its statement, compiled from where [do] was expected, and a jump back
    to the first instruction of the condition. *)
Theorem while_layout fuel L s :
  (budget (WhileStmt L) s <= fuel)%nat ->
  exists cnd s1 j s2 b s3 stm s4 s',
    condition fuel L s = Ok tt s1 /\ code s1 = code s ++ cnd /\
    emit OpCode.jneq 0 0 s1 = Ok j s2 /\
    expect Token.Do true s2 = Ok b s3 /\
    statement fuel L s3 = Ok tt s4 /\ code s4 = code s3 ++ stm /\
    whileStmt fuel L s = Ok tt s' /\
    code s' = code s ++ cnd
              ++ [mkInstr OpCode.jneq 0 (wrap32 (Z.of_nat (length (code s'))))]
              ++ stm
              ++ [mkInstr OpCode.jump 0 (wrap32 (Z.of_nat (length (code s))))].
Proof.
  intros Hn.
  destruct (stmt_returns fuel (WhileStmt L) s eq_refl I Hn) as [s' H].
  pose proof H as Hw.
  unfold whileStmt, condition, statement.
  destruct fuel as [|n]; [discriminate H|].
  rewrite exec_S in H. unfold_body H. minv.
  match goal with
  | Hc : exec _ (Condition _) _ = Ok _ ?s1,
    Hj : emit OpCode.jneq _ _ ?s1 = Ok ?j ?s2, He : expect _ ?g ?s2 = Ok ?b ?s3,
    Hs : exec _ (Statement _) ?s3 = Ok _ ?s4,
    Hb : emit OpCode.jump _ _ ?s4 = Ok _ ?s5 |- _ =>
      destruct (exec_extends _ _ _ _ Hc) as [cnd Hcnd];
      destruct (exec_extends _ _ _ _ Hs) as [stm Hstm];
      exists cnd, s1, j, s2, b, s3, stm, s4, s';
      split; [by apply (exec_mono_Ok n); [|lia]|]; split; [done|];
      split; [done|]; split; [done|];
      split; [by apply (exec_mono_Ok n); [|lia]|]; split; [done|];
      split; [done|];
      pose proof (emit_Ok _ _ _ _ _ _ Hj) as [-> _];
      apply emit_Ok' in Hj as (Hj & _);
      apply expect_code in He;
      apply emit_Ok' in Hb as (Hb & _);
      change (wrap8 0) with 0 in *;
      assert (Hs' : code s' = code s ++ cnd
                      ++ mkInstr OpCode.jneq 0 (wrap32 (Z.of_nat (length (code s5))))
                      :: stm ++ [mkInstr OpCode.jump 0
                                   (wrap32 (Z.of_nat (length (code s))))]);
      [ rewrite app_assoc; eapply patch_middle; [| |eassumption];
        [ rewrite Hb, Hstm, He, Hj, Hcnd; by rewrite <- !app_assoc
        | by rewrite Hcnd ]
      | assert (Hlen : length (code s') = length (code s5))
          by (rewrite Hs', Hb, Hstm, He, Hj, Hcnd; rewrite !length_app; simpl;
              rewrite !length_app; simpl; lia);
        rewrite Hlen; exact Hs' ]
  end.
Qed.

Lemma while_layout_witness :
  exists s',
    whileStmt 70 0 (reading while_source table_i) = Ok tt s' /\
    code s' = [mkInstr OpCode.pushVar 0 4; mkInstr OpCode.pushConst 0 3;
               mkInstr OpCode.lt 0 0; mkInstr OpCode.jneq 0 9;
               mkInstr OpCode.pushVar 0 4; mkInstr OpCode.pushConst 0 1;
               mkInstr OpCode.add 0 0; mkInstr OpCode.pop 0 4;
               mkInstr OpCode.jump 0 0].
Proof.
  destruct (while_layout 70 0 (reading while_source table_i) ltac:(vm_compute; lia))
    as (cnd & s1 & j & s2 & b & s3 & stm & s4 & s' & _ & _ & _ & _ & _ & _ & Hw & _).
  exists s'. split; [exact Hw|].
  vm_compute in Hw. injection Hw as <-. reflexivity.
Defined.

(** X11: an [if] always compiles, to the code of its condition, a
    conditional jump and the code of the statement after [then]; without
    [else] the jump targets the first instruction after that statement;
    with [else], a jump follows the first statement, the conditional jump
    targets the instruction after that jump, where the code of the
    second statement starts, and the jump targets the first instruction
    after the whole. *)
Theorem if_layout fuel L s :
  (budget (IfStmt L) s <= fuel)%nat ->
  exists cnd s1 j s2 b s3 thn s4 e s5 s',
    condition fuel L s = Ok tt s1 /\ code s1 = code s ++ cnd /\
    emit OpCode.jneq 0 0 s1 = Ok j s2 /\
    expect Token.then_ true s2 = Ok b s3 /\
    statement fuel L s3 = Ok tt s4 /\ code s4 = code s3 ++ thn /\
    accept Token.Else true s4 = Ok e s5 /\
    ifStmt fuel L s = Ok tt s' /\
    (e = false ->
     code s' = code s ++ cnd
               ++ [mkInstr OpCode.jneq 0 (wrap32 (Z.of_nat (length (code s'))))]
               ++ thn) /\
    (e = true ->
     exists k s6 s7 els s8,
       emit OpCode.jump 0 0 s5 = Ok k s6 /\
       patch j (wrap32 (Z.of_nat (length (code s6)))) s6 = Ok tt s7 /\
       statement fuel L s7 = Ok tt s8 /\ code s8 = code s7 ++ els /\
       code s' = code s ++ cnd
                 ++ [mkInstr OpCode.jneq 0
                       (wrap32 (Z.of_nat (length (code s) + length cnd + 1
                                          + length thn + 1)))]
                 ++ thn
                 ++ [mkInstr OpCode.jump 0 (wrap32 (Z.of_nat (length (code s'))))]
                 ++ els).
Proof.
  intros Hn.
  destruct (stmt_returns fuel (IfStmt L) s eq_refl I Hn) as [s' H].
  pose proof H as Hw.
  unfold ifStmt, condition, statement.
  destruct fuel as [|n]; [discriminate H|].
  rewrite exec_S in H. unfold_body H. minv.
  all: match goal with
    | Hc : exec _ (Condition _) _ = Ok _ ?s1,
      Hj : emit OpCode.jneq _ _ ?s1 = Ok ?j ?s2, He : expect _ _ ?s2 = Ok ?b ?s3,
      Hs : exec _ (Statement _) ?s3 = Ok _ ?s4,
      Ha : accept Token.Else _ ?s4 = Ok ?e ?s5,
      Hf : exec _ (IfStmt _) _ = Ok _ ?sf |- _ =>
        destruct (exec_extends _ _ _ _ Hc) as [cnd Hcnd];
        destruct (exec_extends _ _ _ _ Hs) as [thn Hthn];
        exists cnd, s1, j, s2, b, s3, thn, s4, e, s5, sf;
        split; [by apply (exec_mono_Ok n); [|lia]|]; split; [done|];
        split; [done|]; split; [done|];
        split; [by apply (exec_mono_Ok n); [|lia]|]; split; [done|];
        split; [done|]; split; [done|];
        pose proof (emit_Ok _ _ _ _ _ _ Hj) as [-> _];
        apply emit_Ok' in Hj as (Hj & _);
        apply expect_code in He;
        apply accept_code in Ha;
        change (wrap8 0) with 0 in *;
        assert (Hpre : code s5 = (code s ++ cnd) ++ mkInstr OpCode.jneq 0 0 :: thn)
          by (rewrite Ha, Hthn, He, Hj, Hcnd; by flat);
        assert (Hlen : length (code s5)
                       = (length (code s) + length cnd + 1 + length thn)%nat)
          by (rewrite Hpre, !length_app; simpl; lia);
        rewrite Hcnd in *;
        clear Hj He Hthn Ha Hs Hc
    end.
  - (* with else *)
    split; [discriminate|]. intros _.
    match goal with
    | Hb : emit OpCode.jump _ _ _ = Ok ?k ?s6,
      Hp : patch _ _ ?s6 = Ok _ ?s7,
      Hs2 : exec _ (Statement _) ?s7 = Ok _ ?s8,
      Hp2 : patch _ _ ?s8 = Ok _ _ |- _ =>
        destruct (exec_extends _ _ _ _ Hs2) as [els Hels];
        exists k, s6, s7, els, s8;
        split; [done|]; split; [done|];
        split; [by apply (exec_mono_Ok n); [|lia]|]; split; [done|];
        pose proof (emit_Ok _ _ _ _ _ _ Hb) as [-> _];
        apply emit_Ok' in Hb as (Hb & _);
        change (wrap8 0) with 0 in *;
        assert (H7 : code s7 = (code s ++ cnd)
                        ++ mkInstr OpCode.jneq 0 (wrap32 (Z.of_nat (length (code s6))))
                        :: thn ++ [mkInstr OpCode.jump 0 0]);
        [ eapply patch_middle; [| |exact Hp];
          [ rewrite Hb, Hpre; by flat | done ]
        | assert (H8 : code s' = ((code s ++ cnd)
                          ++ mkInstr OpCode.jneq 0 (wrap32 (Z.of_nat (length (code s6))))
                          :: thn)
                          ++ mkInstr OpCode.jump 0 (wrap32 (Z.of_nat (length (code s8))))
                          :: els);
          [ eapply patch_middle; [| |exact Hp2];
            [ rewrite Hels, H7; by flat
            | rewrite Hlen, !length_app; simpl; lia ]
          | assert (Hl' : length (code s') = length (code s8))
              by (rewrite H8, Hels, H7; rewrite !length_app; simpl;
                  rewrite !length_app; simpl; lia);
            assert (Hl6 : length (code s6)
                          = (length (code s) + length cnd + 1 + length thn + 1)%nat)
              by (rewrite Hb, length_app, Hlen; simpl; lia);
            rewrite Hl', <- Hl6, H8; by flat ] ]
    end.
  - (* without else *)
    split; [|discriminate]. intros _.
    match goal with
    | Hp : patch _ _ ?s5 = Ok _ ?s7 |- _ =>
        assert (Hs' : code s7 = (code s ++ cnd)
                        ++ mkInstr OpCode.jneq 0 (wrap32 (Z.of_nat (length (code s5))))
                        :: thn);
        [ eapply patch_middle; [| |exact Hp]; [exact Hpre | done]
        | assert (Hl' : length (code s7) = length (code s5))
            by (rewrite Hs', Hpre, !length_app; simpl; lia);
          rewrite Hl', Hs'; by flat ]
    end.
Qed.

Lemma if_layout_witness :
  (exists s',
     ifStmt 70 0 (reading if_source table_i) = Ok tt s' /\
     code s' = [mkInstr OpCode.pushVar 0 4; mkInstr OpCode.pushConst 0 3;
                mkInstr OpCode.lt 0 0; mkInstr OpCode.jneq 0 6;
                mkInstr OpCode.pushConst 0 1; mkInstr OpCode.pop 0 4]) /\
  (exists s',
     ifStmt 90 0 (reading if_else_source table_i) = Ok tt s' /\
     code s' = [mkInstr OpCode.pushVar 0 4; mkInstr OpCode.pushConst 0 3;
                mkInstr OpCode.lt 0 0; mkInstr OpCode.jneq 0 7;
                mkInstr OpCode.pushConst 0 1; mkInstr OpCode.pop 0 4;
                mkInstr OpCode.jump 0 9;
                mkInstr OpCode.pushConst 0 2; mkInstr OpCode.pop 0 4]).
Proof.
  split.
  - destruct (if_layout 70 0 (reading if_source table_i) ltac:(vm_compute; lia))
      as (cnd & s1 & j & s2 & b & s3 & thn & s4 & e & s5 & s'
          & _ & _ & _ & _ & _ & _ & _ & Hw & _).
    exists s'. split; [exact Hw|].
    vm_compute in Hw. injection Hw as <-. reflexivity.
  - destruct (if_layout 90 0 (reading if_else_source table_i) ltac:(vm_compute; lia))
      as (cnd & s1 & j & s2 & b & s3 & thn & s4 & e & s5 & s'
          & _ & _ & _ & _ & _ & _ & _ & Hw & _).
    exists s'. split; [exact Hw|].
    vm_compute in Hw. injection Hw as <-. reflexivity.
Defined.

(** X12: a [repeat] loop always compiles, to the code of its statement,
    the code of its condition, compiled from where [until] was expected,
    and a conditional jump back to the first instruction of the
    statement. *)
Theorem repeat_layout fuel L s :
  (budget (RepeatStmt L) s <= fuel)%nat ->
  exists stm s1 b s2 cnd s3 s',
    statement fuel L s = Ok tt s1 /\ code s1 = code s ++ stm /\
    expect Token.until true s1 = Ok b s2 /\
    condition fuel L s2 = Ok tt s3 /\ code s3 = code s2 ++ cnd /\
    repeatStmt fuel L s = Ok tt s' /\
    code s' = code s ++ stm ++ cnd
              ++ [mkInstr OpCode.jneq 0 (wrap32 (Z.of_nat (length (code s))))].
Proof.
  intros Hn.
  destruct (stmt_returns fuel (RepeatStmt L) s eq_refl I Hn) as [s' H].
  pose proof H as Hw.
  unfold repeatStmt, statement, condition.
  destruct fuel as [|n]; [discriminate H|].
  rewrite exec_S in H. unfold_body H. minv.
  match goal with
  | Hs : exec _ (Statement _) _ = Ok _ ?s1, He : expect _ _ ?s1 = Ok ?b ?s2,
    Hc : exec _ (Condition _) ?s2 = Ok _ ?s3,
    Hj : emit OpCode.jneq _ _ ?s3 = Ok _ _,
    Hf : exec _ (RepeatStmt _) _ = Ok _ ?sf |- _ =>
      destruct (exec_extends _ _ _ _ Hs) as [stm Hstm];
      destruct (exec_extends _ _ _ _ Hc) as [cnd Hcnd];
      exists stm, s1, b, s2, cnd, s3, sf;
      split; [by apply (exec_mono_Ok n); [|lia]|]; split; [done|];
      split; [done|];
      split; [by apply (exec_mono_Ok n); [|lia]|]; split; [done|];
      split; [done|];
      apply expect_code in He;
      apply emit_Ok' in Hj as (Hj & _);
      change (wrap8 0) with 0 in *;
      rewrite Hj, Hcnd, He, Hstm; by flat
  end.
Qed.

Lemma repeat_layout_witness :
  exists s',
    repeatStmt 70 0 (reading repeat_source table_i) = Ok tt s' /\
    code s' = [mkInstr OpCode.pushVar 0 4; mkInstr OpCode.pushConst 0 1;
               mkInstr OpCode.add 0 0; mkInstr OpCode.pop 0 4;
               mkInstr OpCode.pushVar 0 4; mkInstr OpCode.pushConst 0 3;
               mkInstr OpCode.gte 0 0; mkInstr OpCode.jneq 0 0].
Proof.
  destruct (repeat_layout 70 0 (reading repeat_source table_i) ltac:(vm_compute; lia))
    as (stm & s1 & b & s2 & cnd & s3 & s' & _ & _ & _ & _ & _ & Hw & _).
  exists s'. split; [exact Hw|].
  vm_compute in Hw. injection Hw as <-. reflexivity.
Defined.

(** ** A whole compilation *)



(** X14: the number the compiler returns is its error counter, which each
    diagnostic written advances by one (in [unsigned] arithmetic); the
    counter is not reset, so errors of earlier compilations are counted
    again. *)
Theorem compile_counts_diagnostics fuel source prog s n s' :
  compile fuel source prog s = Ok n s' ->
  n = nErrors s' /\
  exists ds, cerr s' = cerr s ++ ds /\
             wrapU32 n = wrapU32 (nErrors s + Z.of_nat (length ds)).
Proof.
  unfold compile. intros H.
  destruct (run fuel _) as [[] s1| |] eqn:Hrun; try discriminate H.
  injection H as <- <-. split; [done|].
  apply (kept_run _ _ _ _ Keeps_reports) in Hrun as (ds & Hc & Hn).
  exists ds. done.
Qed.

Lemma compile_counts_diagnostics_witness :
  exists s' ds,
    compile 20 rem_source [] new = Ok 1 s' /\
    cerr s' = ds /\ wrapU32 1 = wrapU32 (0 + Z.of_nat (length ds)).
Proof.
  eexists.
  destruct (compile_counts_diagnostics 20 rem_source [] new 1 _
              ltac:(vm_compute; reflexivity))
    as (_ & ds & Hc & Hn).
  exists ds. split; [vm_compute; reflexivity|]. split; [exact Hc | exact Hn].
Defined.

Lemma run_terminates fuel source prog s :
  (6 * length source + 3 <= fuel)%nat ->
  run fuel (set_code prog (set_ts (Token.of_kind Token.eos) source s)) <> OutOfFuel.
Proof.
  intros Hf. unfold run, next, bind.
  destruct (ts_get _) as [t s0| |] eqn:Hg; try done.
  2: { unfold ts_get in Hg. simpl in Hg. by destruct source. }
  apply ts_get_remaining in Hg as [Hg _].
  unfold remaining in Hg at 2. simpl in Hg.
  unfold get. destruct (equal_range "main" (symtbl s0)) as [|first ?]; [done|].
  unfold block.
  pose proof (exec_terminates fuel (Block (id first) 0 0) s0 I) as Ht.
  destruct (exec fuel _ s0) as [[] s2| |] eqn:Hb; try done.
  - unfold expect, accept, current, next, ts_get, error, ret, bind.
    case_decide; [destruct (input s2)|]; done.
  - intros _. apply Ht; [|done]. unfold budget. cbn [rank]. lia.
Qed.

(** X15: the compiler comes to an end on every sequence of tokens: the
    calls of its member functions never nest deeper than six times the
    number of tokens plus three. *)
Theorem compile_terminates fuel source prog s :
  (6 * length source + 3 <= fuel)%nat ->
  compile fuel source prog s <> OutOfFuel.
Proof.
  intros Hf. unfold compile.
  pose proof (run_terminates fuel source prog s Hf) as Hrun.
  by destruct (run fuel _) as [[] s1| |].
Qed.

Lemma compile_terminates_witness : compile 45 copy_source [] new <> OutOfFuel.
Proof. apply compile_terminates. simpl. lia. Defined.

(** ** What the compiler refuses *)

(** X16: an assignment whose target is not a variable: to a function it
    stores into the return-value slot of the current frame, [pop 0 3]; to a
    constant or a procedure it emits nothing after the code of the
    right-hand side, and reports the one diagnostic. *)
Theorem assignment_to_non_variable fuel nm v L s :
  (budget (AssignStmt nm v L) s <= fuel)%nat ->
  exists s1 s',
    expression fuel L s = Ok tt s1 /\
    assignStmt fuel nm v L s = Ok tt s' /\
    (SymValue.kind v = SymValue.function ->
     code s' = code s1 ++ [mkInstr OpCode.pop 0 Frame_rValue] /\ cerr s' = cerr s1) /\
    (SymValue.kind v = SymValue.constant ->
     code s' = code s1 /\ cerr s' = cerr s1 ++ [Diag_name "Can't assign to a constant" nm] /\
     nErrors s' = wrapU32 (nErrors s1 + 1)) /\
    (SymValue.kind v = SymValue.proc ->
     code s' = code s1 /\ cerr s' = cerr s1 ++ [Diag_name "Can't assign to a procedure" nm] /\
     nErrors s' = wrapU32 (nErrors s1 + 1)).
Proof.
  intros Hn. unfold expression, assignStmt.
  destruct fuel as [|k]; [unfold budget in Hn; lia|].
  destruct (expression_returns k (Expression L) s) as [s1 H1];
    [done | done | unfold budget in *; cbn [rank] in *; lia |].
  exists s1.
  assert (H : exists s', exec (S k) (AssignStmt nm v L) s = Ok tt s' /\
      match SymValue.kind v with
      | SymValue.identifier => True
      | SymValue.function =>
          s' = set_code (code s1 ++ [mkInstr OpCode.pop 0 Frame_rValue]) s1
      | SymValue.constant =>
          s' = set_errors (wrapU32 (nErrors s1 + 1))
                 (cerr s1 ++ [Diag_name "Can't assign to a constant" nm]) s1
      | SymValue.proc =>
          s' = set_errors (wrapU32 (nErrors s1 + 1))
                 (cerr s1 ++ [Diag_name "Can't assign to a procedure" nm]) s1
      end).
  { enter_body. unfold bind. rewrite H1.
    destruct (SymValue.kind v); eexists; (split; [reflexivity|]); done. }
  destruct H as (s' & H & Hs'). exists s'.
  split; [by apply (exec_mono_Ok k); [|lia]|]. split; [done|].
  split; [|split]; intros Hk; rewrite Hk in Hs'; subst s'; done.
Qed.

Lemma assignment_to_non_variable_witness :
  exists s',
    assignStmt 20 "c" (SymValue.mk SymValue.constant 0 7) 0
      (reading [Token.num 1; K Token.period] table_i) = Ok tt s' /\
    code s' = [mkInstr OpCode.pushConst 0 1] /\
    cerr s' = [Diag_name "Can't assign to a constant" "c"].
Proof.
  destruct (assignment_to_non_variable 20 "c" (SymValue.mk SymValue.constant 0 7) 0
              (reading [Token.num 1; K Token.period] table_i))
    as (s1 & s' & H1 & H2 & _ & Hc & _); [vm_compute; lia|].
  destruct (Hc eq_refl) as (Hcode & Hcerr & _).
  exists s'. split; [exact H2|].
  vm_compute in H1. injection H1 as <-. split; [exact Hcode | exact Hcerr].
Defined.

(** X17: a name that has no entry in the symbol table: as a factor and as
    the head of a statement alike, the name is consumed, one diagnostic is
    written, no code is emitted and the table is not changed. *)
Theorem undefined_name fuel L s :
  equal_range (Token.string_value (ct s)) (symtbl s) = [] ->
  exists t s0 s1 s2,
    next s = Ok t s0 /\
    identifier (S fuel) L s = Ok tt s1 /\
    identStmt (S fuel) L s = Ok tt s2 /\
    code s1 = code s /\ code s2 = code s /\
    symtbl s1 = symtbl s /\ symtbl s2 = symtbl s /\
    ct s1 = ct s0 /\ input s1 = input s0 /\ ct s2 = ct s0 /\ input s2 = input s0 /\
    cerr s1 = cerr s ++ [Diag_name "Undefined identifier" (Token.string_value (ct s))] /\
    cerr s2 = cerr s ++ [Diag_name "undefined variable" (Token.string_value (ct s))] /\
    nErrors s1 = wrapU32 (nErrors s + 1) /\ nErrors s2 = wrapU32 (nErrors s + 1).
Proof.
  intros He. unfold identifier, identStmt.
  rewrite !exec_S. unfold_body_goal.
  unfold get, next, ts_get, lookup, error, bind.
  destruct (input s); simpl; rewrite He; simpl; eexists _, _, _, _;
    (split; [reflexivity|]); (split; [reflexivity|]); (split; [reflexivity|]);
    simpl; repeat split.
Qed.

Lemma undefined_name_witness :
  exists s1 s2,
    identifier 1 0 (reading [Token.ident "z"; K Token.period] table_i) = Ok tt s1 /\
    identStmt 1 0 (reading [Token.ident "z"; K Token.period] table_i) = Ok tt s2 /\
    cerr s1 = [Diag_name "Undefined identifier" "z"] /\
    cerr s2 = [Diag_name "undefined variable" "z"] /\
    Token.kind (ct s1) = Token.period /\ Token.kind (ct s2) = Token.period.
Proof.
  destruct (undefined_name 0 0 (reading [Token.ident "z"; K Token.period] table_i) eq_refl)
    as (t & s0 & s1 & s2 & H0 & H1 & H2 & _ & _ & _ & _ & Hc1 & _ & Hc2 & _ & He1 & He2 & _).
  exists s1, s2. vm_compute in H0. injection H0 as _ <-.
  rewrite Hc1, Hc2. repeat split; assumption || reflexivity.
Defined.

(** X18: on a token that starts no factor, the end of the input included,
    [factor] writes one diagnostic naming the kind of the token, moves to
    the next token and emits nothing. *)
Theorem factor_skips_bad_token fuel L s :
  Token.kind (ct s) <> Token.identifier ->
  Token.kind (ct s) <> Token.number ->
  Token.kind (ct s) <> Token.lparen ->
  exists t s0 s',
    next s = Ok t s0 /\
    factor (S fuel) L s = Ok tt s' /\
    code s' = code s /\ symtbl s' = symtbl s /\
    ct s' = ct s0 /\ input s' = input s0 /\
    cerr s' = cerr s
              ++ [Diag_kind "factor: syntax error; expected ident | num | { expr }, but got:"
                    (Token.kind (ct s))] /\
    nErrors s' = wrapU32 (nErrors s + 1).
Proof.
  intros Hi Hn Hl. unfold factor. rewrite exec_S. unfold_body_goal.
  unfold accept, current, next, ts_get, error, ret, bind.
  rewrite !decide_False by done. simpl.
  destruct (input s); eexists _, _, _;
    (split; [reflexivity|]); (split; [reflexivity|]); simpl; repeat split.
Qed.

Lemma factor_skips_bad_token_witness :
  exists s',
    factor 1 0 (reading [K Token.rparen; Token.num 1] table_i) = Ok tt s' /\
    code s' = [] /\ ct s' = Token.num 1 /\ length (cerr s') = 1%nat.
Proof.
  destruct (factor_skips_bad_token 0 0 (reading [K Token.rparen; Token.num 1] table_i))
    as (t & s0 & s' & H0 & H1 & Hc & _ & Ht & _ & He & _); [done | done | done |].
  exists s'. vm_compute in H0. injection H0 as _ <-.
  rewrite Hc, Ht, He. repeat split; assumption || reflexivity.
Defined.

(** ** Declaring, then looking up *)

Lemma equal_range_app nm t1 t2 :
  equal_range nm (t1 ++ t2) = equal_range nm t1 ++ equal_range nm t2.
Proof. unfold equal_range. apply filter_app. Qed.

(** An entry added below every entry of its name is the closest one. *)
Lemma closest_snoc range e :
  (forall e', e' ∈ range -> SymValue.level (val e') < SymValue.level (val e)) ->
  closest (range ++ [e]) = Some e.
Proof.
  intros Hlt. destruct range as [|first rest] eqn:E.
  - simpl. by rewrite decide_False by lia.
  - rewrite <- E in *.
    assert (Hc : exists c, closest range = Some c) by (rewrite E; simpl; eauto).
    destruct Hc as [c Hc]. pose proof (closest_spec _ _ Hc) as [Hin _].
    rewrite E in Hc |- *. simpl in Hc |- *. injection Hc as Hc.
    rewrite fold_left_app. simpl. simpl in Hc. rewrite Hc.
    rewrite decide_True; [done|]. specialize (Hlt c Hin). lia.
Qed.

Lemma same_level_nil L nm tbl :
  bounded L tbl -> same_level L nm tbl = [] ->
  forall e', e' ∈ equal_range nm tbl -> SymValue.level (val e') < L.
Proof.
  unfold bounded, same_level. intros Hb Hs e' He'.
  assert (Hle : SymValue.level (val e') <= L).
  { rewrite Forall_forall in Hb. apply Hb.
    unfold equal_range in He'. by apply list_elem_of_filter in He' as [_ ?]. }
  destruct (decide (SymValue.level (val e') = L)) as [Heq|]; [|lia].
  assert (Hin : e' ∈ filter (fun n => SymValue.level (val n) = L) (equal_range nm tbl))
    by by apply list_elem_of_filter.
  rewrite Hs in Hin. by apply elem_of_nil in Hin.
Qed.

Lemma closest_insert L nm v tbl i :
  bounded L tbl -> same_level L nm tbl = [] -> SymValue.level v = L ->
  closest (equal_range nm (tbl ++ [mkNode i nm v])) = Some (mkNode i nm v).
Proof.
  intros Hb Hs Hv. rewrite equal_range_app.
  unfold equal_range at 2. rewrite filter_cons_True by done. rewrite filter_nil.
  apply closest_snoc. intros e' He'. simpl. rewrite Hv. by eapply same_level_nil.
Qed.

(** X19: a name declared in a block that has no entry of that name at its
    level is what a search for the name finds next: the variable with the
    offset it was given, the constant with its value, whatever the outer
    blocks declare under that name. *)
Theorem declaration_then_lookup L s :
  bounded L (symtbl s) ->
  same_level L (Token.string_value (ct s)) (symtbl s) = [] ->
  Token.kind (ct s) = Token.identifier ->
  (forall dx dx' s',
     varDecl dx L s = Ok dx' s' ->
     dx' = dx + 1 /\
     exists i, closest (equal_range (Token.string_value (ct s)) (symtbl s'))
               = Some (mkNode i (Token.string_value (ct s))
                         (SymValue.mk SymValue.identifier L dx))) /\
  (forall t1 t2 rest s',
     input s = t1 :: t2 :: rest ->
     Token.kind t1 = Token.assign -> Token.kind t2 = Token.number ->
     constDecl L s = Ok tt s' ->
     exists i, closest (equal_range (Token.string_value (ct s)) (symtbl s'))
               = Some (mkNode i (Token.string_value (ct s))
                         (SymValue.mk SymValue.constant L (Token.number_value t2)))).
Proof.
  intros Hb Hs Hk. split.
  - intros dx dx' s'.
    unfold varDecl, expect, accept, current, next, get, ret, ts_get, error, insert, bind.
    rewrite decide_True by done. simpl.
    destruct (input s); simpl; rewrite Hs; intros [= <- <-]; (split; [done|]);
      simpl; eexists; by apply (closest_insert L).
  - intros t1 t2 rest s' Hin H1 H2.
    unfold constDecl, expect, accept, current, next, get, ret, ts_get, error, insert, bind.
    rewrite decide_True by done. rewrite Hin. simpl.
    rewrite decide_True by done. simpl.
    rewrite decide_True by done. simpl.
    destruct rest; simpl; rewrite Hs; intros [= <-];
      simpl; eexists; by apply (closest_insert L).
Qed.

Lemma table_i_bounded : bounded 1 table_i.
Proof. repeat constructor; simpl; lia. Qed.

Lemma declaration_then_lookup_witness :
  (exists s' i,
     varDecl 4 1 (reading [Token.ident "i"; K Token.scomma] table_i) = Ok 5 s' /\
     closest (equal_range "i" (symtbl s'))
       = Some (mkNode i "i" (SymValue.mk SymValue.identifier 1 4))) /\
  (exists s' i,
     constDecl 1 (reading [Token.ident "i"; K Token.assign; Token.num 7; K Token.scomma]
                    table_i) = Ok tt s' /\
     closest (equal_range "i" (symtbl s'))
       = Some (mkNode i "i" (SymValue.mk SymValue.constant 1 7))).
Proof.
  split.
  - eexists.
    destruct (proj1 (declaration_then_lookup 1
                       (reading [Token.ident "i"; K Token.scomma] table_i)
                       table_i_bounded eq_refl eq_refl) 4 5 _
                ltac:(vm_compute; reflexivity)) as (_ & i & Hi).
    exists i. split; [vm_compute; reflexivity | exact Hi].
  - eexists.
    destruct (proj2 (declaration_then_lookup 1
                       (reading [Token.ident "i"; K Token.assign; Token.num 7; K Token.scomma]
                          table_i)
                       table_i_bounded eq_refl eq_refl)
                (K Token.assign) (Token.num 7) [K Token.scomma] _ eq_refl eq_refl eq_refl
                ltac:(vm_compute; reflexivity)) as (i & Hi).
    exists i. split; [vm_compute; reflexivity | exact Hi].
Defined.

(** ** The offsets of parameters and variables *)

(** X20: the names of a routine get consecutive offsets from its frame, in
    the order of their declaration.  [subDecl] on a well-formed header of
    [n] parameters compiles the block in the table extended by the entry
    of the routine and, at the level of the block, one entry for each
    parameter, the k-th at offset [-n + k]; the loop over a [var] part
    started at [dx] always returns, having entered variables of the level
    at [dx], [dx + 1], ..., and returns the next free offset. *)
Theorem frame_offsets :
  (forall n L s nm xs rest,
     input s = Token.ident nm :: K Token.lparen :: params xs ++ K Token.rparen :: rest ->
     same_level L nm (symtbl s) = [] ->
     (length xs <= n)%nat ->
     subDecl (S n) L s =
       (block n (serial s) (L + 1) (wrapU32 (Z.of_nat (length xs))) ;;
        expect Token.scomma true ;; ret tt)
         (mkState (hd (K Token.eos) rest) (tl rest)
            (symtbl s
             ++ mkNode (serial s) nm
                  (SymValue.mk (if decide (Token.procDecl = Token.kind (ct s))
                                then SymValue.proc else SymValue.function) L 0)
                :: imap (fun k x => mkNode (S (serial s) + k) x
                           (SymValue.mk SymValue.identifier (L + 1)
                              (- Z.of_nat (length xs) + Z.of_nat k))) xs)
            (S (serial s) + length xs) (code s) (nErrors s) (cerr s) (lookups s))) /\
  (forall fuel dx L s,
     (remaining s < fuel)%nat ->
     exists dx' s' locals,
       varDecls fuel dx L s = Ok dx' s' /\
       symtbl s' = symtbl s ++ locals /\
       map (fun n => SymValue.value (val n)) locals = seqZ dx (Z.of_nat (length locals)) /\
       dx' = dx + Z.of_nat (length locals) /\
       Forall (is_local L dx dx') locals).
Proof.
  split.
  - apply subDecl_binds.
  - intros fuel dx L s Hn.
    pose proof (varDecls_fuel fuel dx L s Hn) as Hf.
    pose proof (safe_varDecls fuel L dx s) as Hs.
    destruct (varDecls fuel dx L s) as [dx' s'| |] eqn:H; [|done|done].
    destruct (varDecls_offsets _ _ _ _ _ _ H) as (locals & Hs1 & Hm & Hdx).
    destruct (varDecls_locals _ _ _ _ _ _ H) as (locals' & Hs' & _ & Hall).
    rewrite Hs1 in Hs'. apply app_inv_head in Hs'. subst locals'.
    exists dx', s', locals. done.
Qed.

Lemma frame_offsets_witness :
  (exists s',
     subDecl 70 0 (reading two_params_source (symtbl new)) = Ok tt s' /\
     code s' = [mkInstr OpCode.jump 0 1; mkInstr OpCode.enter 0 4;
                mkInstr OpCode.pushVar 0 (-1); mkInstr OpCode.pop 0 (-2);
                mkInstr OpCode.ret 0 2]) /\
  (exists s',
     varDecls 10 4 0
       (reading [Token.ident "x"; K Token.comma; Token.ident "y"; K Token.scomma]
          (symtbl new)) = Ok 6 s' /\
     symtbl s' = symtbl new ++ [mkNode 1 "x" (SymValue.mk SymValue.identifier 0 4);
                                mkNode 2 "y" (SymValue.mk SymValue.identifier 0 5)]).
Proof.
  split.
  - rewrite (proj1 frame_offsets 69%nat 0 (reading two_params_source (symtbl new))
               "p"%string ["a"; "b"]%string
               [Token.ident "a"; K Token.assign; Token.ident "b"; K Token.scomma;
                Token.ident "p"; K Token.lparen; Token.num 1; K Token.comma; Token.num 2;
                K Token.rparen; K Token.period]
               eq_refl eq_refl ltac:(simpl; lia)).
    eexists. split; [vm_compute; reflexivity | reflexivity].
  - destruct (proj2 frame_offsets 10%nat 4 0
                (reading [Token.ident "x"; K Token.comma; Token.ident "y"; K Token.scomma]
                   (symtbl new)) ltac:(vm_compute; lia))
      as (dx' & s' & locals & H & _).
    exists s'. vm_compute in H. injection H as <- <-.
    split; reflexivity.
Defined.

(** ** Expressions and conditions *)



(** X22: a condition that does not start with [odd] is an expression,
    then for one of the six relational operators a second expression and
    the instruction of the operator; when no relational operator follows
    the first expression the condition ends there, and nothing is
    reported. *)
Theorem condition_relations fuel L s :
  Token.kind (ct s) <> Token.odd ->
  (budget (Condition L) s <= fuel)%nat ->
  exists s1 c1 s',
    expression fuel L s = Ok tt s1 /\ code s1 = code s ++ c1 /\
    condition fuel L s = Ok tt s' /\
    (relation (Token.kind (ct s1)) = None -> s' = s1) /\
    (forall o,
       relation (Token.kind (ct s1)) = Some o ->
       exists t s2 s3 c2,
         next s1 = Ok t s2 /\
         expression fuel L s2 = Ok tt s3 /\ code s3 = code s1 ++ c2 /\
         code s' = code s ++ c1 ++ c2 ++ [mkInstr o 0 0] /\
         cerr s' = cerr s3 /\ ct s' = ct s3 /\ input s' = input s3).
Proof.
  intros Hodd Hn. unfold budget in Hn. cbn [rank] in Hn.
  unfold expression, condition.
  destruct fuel as [|n]; [lia|].
  destruct (expression_returns n (Expression L) s) as [s1 H1];
    [done | done | unfold budget; cbn [rank]; lia |].
  pose proof (exec_remaining _ _ _ _ H1) as Hr1.
  destruct (exec_extends _ _ _ _ H1) as [c1 Hc1].
  pose proof (relational_accept s1) as Hrel. cbv zeta in Hrel.
  assert (Hhead : forall f : unit -> M unit,
            exec (S n) (Condition L) s =
            (b <- orelse (accept Token.lte true)
                   (orelse (accept Token.lt true)
                      (orelse (accept Token.equ true)
                         (orelse (accept Token.gt true)
                            (orelse (accept Token.gte true) (accept Token.neq true))))) ;;
             if b then
               exec n (Expression L) ;;
               match relation (Token.kind (ct s1)) with
               | Some o => emit o 0 0 ;; ret tt
               | None => abort
               end
             else ret tt) s1).
  { intros _. enter_body. unfold accept at 1. unfold current at 1. unfold bind at 1 2.
    rewrite decide_False by done. unfold ret at 1.
    unfold bind at 1. rewrite H1. unfold current at 1. unfold bind at 1. reflexivity. }
  specialize (Hhead (fun _ => ret tt)).
  destruct (relation (Token.kind (ct s1))) as [o|] eqn:Ho.
  - destruct Hrel as (t & s2 & Hg & Hchain).
    assert (Hne : Token.kind (ct s1) <> Token.eos) by (intros E; by rewrite E in Ho).
    pose proof (ts_get_remaining _ _ _ Hg) as [_ Hlt]. specialize (Hlt Hne).
    pose proof (ts_get_Ok _ _ _ Hg) as (Hc2 & _).
    destruct (expression_returns n (Expression L) s2) as [s3 H3];
      [done | done | unfold budget; cbn [rank]; lia |].
    destruct (exec_extends _ _ _ _ H3) as [c2 Hc3].
    exists s1, c1. eexists.
    split; [by apply (exec_mono_Ok n); [|lia]|]. split; [done|].
    split.
    { rewrite Hhead. unfold bind at 1. rewrite Hchain.
      unfold bind at 1. rewrite H3. reflexivity. }
    split; [rewrite Ho; intros [=]|].
    intros o' Ho'. rewrite Ho in Ho'. injection Ho' as <-. exists t, s2, s3, c2.
    split; [done|]. split; [by apply (exec_mono_Ok n); [|lia]|].
    split; [congruence|]. simpl. change (wrap8 0) with 0.
    rewrite Hc3, Hc2, Hc1. split; [by flat | done].
  - exists s1, c1, s1.
    split; [by apply (exec_mono_Ok n); [|lia]|]. split; [done|].
    split; [rewrite Hhead; unfold bind at 1; by rewrite Hrel|].
    split; [done|]. intros o' Ho'. rewrite Ho in Ho'. discriminate Ho'.
Qed.

Lemma condition_relations_witness :
  (exists s',
     condition 40 0 (reading [Token.ident "i"; K Token.lt; Token.num 3; K Token.Do] table_i)
       = Ok tt s' /\
     code s' = [mkInstr OpCode.pushVar 0 4; mkInstr OpCode.pushConst 0 3;
                mkInstr OpCode.lt 0 0] /\ cerr s' = []) /\
  (exists s',
     condition 40 0 (reading [Token.ident "i"; K Token.Do] table_i) = Ok tt s' /\
     code s' = [mkInstr OpCode.pushVar 0 4] /\ cerr s' = []).
Proof.
  split.
  - destruct (condition_relations 40 0
                (reading [Token.ident "i"; K Token.lt; Token.num 3; K Token.Do] table_i))
      as (s1 & c1 & s' & _ & _ & Hc & _); [done | vm_compute; lia |].
    exists s'. split; [exact Hc|]. vm_compute in Hc. injection Hc as <-. done.
  - destruct (condition_relations 40 0 (reading [Token.ident "i"; K Token.Do] table_i))
      as (s1 & c1 & s' & _ & _ & Hc & _); [done | vm_compute; lia |].
    exists s'. split; [exact Hc|]. vm_compute in Hc. injection Hc as <-. done.
Defined.

(** ** Calls *)



(** ** The symbol table over a whole compilation *)

(** X24: a compilation that returns leaves the symbol table empty, the
    entry of "main" erased with the other entries of level 0; the assert
    on that entry in [run] therefore fails when the same compiler is run a
    second time. *)
Theorem compiler_is_single_use fuel source prog n s' :
  compile fuel source prog new = Ok n s' ->
  symtbl s' = [] /\
  forall fuel' source' prog', compile fuel' source' prog' s' = Abort.
Proof.
  unfold compile. intros H.
  destruct (run fuel _) as [[] s1| |] eqn:Hrun; try discriminate H.
  injection H as _ <-.
  assert (Hempty : symtbl s1 = []).
  { unfold run, next in Hrun. minv. unfold block in *.
    match goal with
    | Hg : ts_get _ = Ok _ ?s0, Hb : exec _ _ ?s0 = Ok _ _, He : expect _ _ _ = Ok _ _ |- _ =>
        apply ts_get_Ok in Hg as (_ & Ht & _ & _ & _ & Hl & _);
        pose proof (exec_grows _ _ _ _ Hb) as Hgr;
        apply exec_scoped in Hb;
        [ simpl in Hb; destruct Hb as [Hbd _];
          apply expect_same in He as [Hex _]
        | eapply scoped_same; [exact Ht | exact Hl |];
          apply (scoped_same 0 new); [reflexivity | reflexivity | apply new_scoped] ]
    end.
    rewrite Hex.
    apply grows_nonneg in Hgr; [| simpl; lia | rewrite Ht; repeat constructor; simpl; lia].
    unfold bounded in Hbd.
    match goal with
    | |- symtbl ?x = [] => destruct (symtbl x) as [|e rest]; [done|]
    end.
    apply Forall_cons in Hbd as [Hbd _]. apply Forall_cons in Hgr as [Hgr _]. lia. }
  split; [done|].
  intros fuel' source' prog'. unfold run, next, ts_get, get, bind. simpl.
  destruct source'; simpl; by rewrite Hempty.
Qed.

Lemma compiler_is_single_use_witness :
  exists s',
    compile 20 copy_source [] new = Ok 0 s' /\ symtbl s' = [] /\
    compile 20 copy_source [] s' = Abort.
Proof.
  eexists.
  destruct (compiler_is_single_use 20 copy_source [] 0 _ ltac:(vm_compute; reflexivity))
    as [He Ha].
  split; [vm_compute; reflexivity|]. split; [exact He | apply Ha].
Defined.

(** ** No assert of the compiler fails *)


(** X25: a freshly constructed compiler returns an error count for every
    sequence of tokens (of fewer than about [2^31 / 6] tokens), whatever
    the tokens are: none of its asserts fails, in particular every address
    it patches is one of an instruction it has emitted and every entry it
    updates is in the table, and the recursion comes to an end. *)
Theorem compile_returns fuel source prog :
  (6 * length source + 3 <= fuel)%nat ->
  Z.of_nat fuel < 2 ^ 31 - 1 ->
  exists s', compile fuel source prog new = Ok (nErrors s') s'.
Proof.
  intros Hf Hz. unfold compile.
  destruct (run fuel _) as [[] s1| |] eqn:Hrun; [eauto | exfalso | exfalso].
  - revert Hrun. unfold run, next. apply bind_na; [apply safe_na; safe|].
    intros t s0 Hg. apply bind_na; [done|]. intros ? ? [= <- <-].
    apply ts_get_Ok in Hg as (_ & Ht & _).
    rewrite Ht. simpl.
    apply bind_na.
    + unfold block. apply exec_safe; [done|]. simpl. split; [lia|].
      exists (mkNode 0 "main" (SymValue.mk SymValue.proc 0 0)).
      rewrite Ht. simpl. split; [apply list_elem_of_here | done].
    + intros ? ? _. apply bind_na; [apply safe_na; safe|]. intros; done.
  - exact (run_terminates fuel source prog new Hf Hrun).
Qed.

Lemma compile_returns_witness :
  exists s', compile 45 copy_source [] new = Ok (nErrors s') s'.
Proof. apply compile_returns; [simpl; lia | lia]. Defined.
End CompFacts.
